(** * Lowering Cflat ASTs to LIR: a shallow embedding of the lowerer

    The development follows [lowerer.cpp] / [lowerer.hpp] / [lir.hpp]:
    the AST and LIR data types, the [Lowerer] object as an explicit state
    record, the visitor methods as computations in a state-and-exception
    monad, and the second pass [build_cfg] that slices the translation
    vector into basic blocks. *)

From Stdlib Require Import Ascii.
From stdpp Require Import base option list gmap strings pretty.

#[local] Set Warnings "-register-all".

(** ** Machine integers and strings *)

(** [int] is a 32-bit two's complement integer; arithmetic on it is written
    with its wrap-around. *)
Definition INT_MIN : Z := (- 2 ^ 31)%Z.
Definition INT_MAX : Z := (2 ^ 31 - 1)%Z.
Definition wrap_int (z : Z) : Z := ((z + 2 ^ 31) `mod` 2 ^ 32 - 2 ^ 31)%Z.

(** [std::to_string(int)]: decimal digits, with a leading minus sign for
    negative numbers. *)
Definition to_string (n : Z) : string := pretty n.

(** ** The AST (namespace [AST]) *)

Module AST.

Inductive Ty : Type :=
| IntType
| NilType
| StructType (name : string)
| PtrType (pointeeType : Ty)
| ArrayType (elementType : Ty)
| FnType (paramTypes : list Ty) (returnType : Ty).

Inductive UnaryOp := Neg | Not.

Inductive BinaryOp :=
| Add | Sub | Mul | Div
| Eq | NotEq | Lt | Lte | Gt | Gte
| And | Or.

(** Children are owning pointers ([std::unique_ptr]).  The lowerer never
    writes to any of them except [UnOp::exp], which it moves from; that
    field is therefore the one modelled as nullable. *)
Inductive Exp : Type :=
| Val (place : Place)
| Num (value : Z)
| NilExp
| Select (guard tt ff : Exp)
| UnOp (op : UnaryOp) (exp : option Exp)
| BinOp (op : BinaryOp) (left right : Exp)
| NewSingle (type : Ty)
| NewArray (type : Ty) (size : Exp)
| CallExp (fun_call : FunCall)
with Place : Type :=
| Id (name : string)
| Deref (exp : Exp)
| ArrayAccess (array index : Exp)
| FieldAccess (ptr : Exp) (field : string)
with FunCall : Type :=
| MkFunCall (callee : Exp) (args : list Exp).

Inductive Stmt : Type :=
| Stmts (statements : list Stmt)
| Assign (place : Place) (exp : Exp)
| CallStmt (fun_call : FunCall)
| If (guard : Exp) (tt : Stmt) (ff : option Stmt)
| While (guard : Exp) (body : Stmt)
| Break
| Continue
| Return (exp : option Exp).

Record Decl := { decl_name : string; decl_type : Ty }.

Record Extern :=
  { extern_name : string; param_types : list Ty; extern_rettype : Ty }.

Record StructDef := { struct_name : string; fields : list Decl }.

Record FunctionDef :=
  { name : string;
    params : list Decl;
    rettype : Ty;
    locals : list Decl;
    body : Stmt }.

Record Program :=
  { structs : list StructDef;
    externs : list Extern;
    functions : list FunctionDef }.

End AST.

(** ** The LIR (namespace [LIR], from [lir.hpp]) *)

Module LIR.

Inductive Ty : Type :=
| IntType
| NilType
| StructType (id : string)
| ArrayType (element : Ty)
| PtrType (element : Ty)
| FnType (params : list Ty) (ret : Ty).

Definition VarId := string.
Definition BbId := string.
Definition FuncId := string.
Definition StructId := string.
Definition FieldId := string.

Inductive ArithOp := Add | Sub | Mul | Div.
Inductive RelOp := Eq | NotEq | Lt | Lte | Gt | Gte.

Inductive Inst : Type :=
| Const (lhs : VarId) (val : Z)
| Copy (lhs op : VarId)
| Arith (lhs : VarId) (aop : ArithOp) (left right : VarId)
| Cmp (lhs : VarId) (rop : RelOp) (left right : VarId)
| Load (lhs src : VarId)
| Store (dst op : VarId)
| Gfp (lhs src : VarId) (sid : StructId) (field : FieldId)
| Gep (lhs src idx : VarId) (checked : bool)
| AllocSingle (lhs : VarId) (typ : Ty)
| AllocArray (lhs amt : VarId) (typ : Ty)
| Call (lhs : option VarId) (callee : VarId) (args : list VarId).

(** [std::variant<std::monostate, Jump, Branch, Ret>] *)
Inductive Terminal : Type :=
| Monostate
| Jump (target : BbId)
| Branch (guard : VarId) (tt ff : BbId)
| Ret (val : option VarId).

Record BasicBlock :=
  { label : BbId; insts : list Inst; term : Terminal }.

Record Function :=
  { name : FuncId;
    params : list (VarId * Ty);
    rettyp : Ty;
    locals : gmap string Ty;
    body : gmap string BasicBlock }.

Record Struct := { struct_name : StructId; fields : gmap string Ty }.

Record Program :=
  { structs : gmap string Struct;
    externs : gmap string Ty;
    funptrs : gmap string Ty;
    functions : gmap string Function }.

(** A default-constructed [LIR::Program], [LIR::Function] and
    [LIR::BasicBlock]. *)
Definition empty_Program : Program :=
  {| structs := ∅; externs := ∅; funptrs := ∅; functions := ∅ |}.

Definition empty_BasicBlock : BasicBlock :=
  {| label := ""; insts := []; term := Monostate |}.

Definition with_locals (f : gmap string Ty → gmap string Ty) (fn : Function) : Function :=
  {| name := name fn; params := params fn; rettyp := rettyp fn;
     locals := f (locals fn); body := body fn |}.

Definition with_body (f : gmap string BasicBlock → gmap string BasicBlock)
    (fn : Function) : Function :=
  {| name := name fn; params := params fn; rettyp := rettyp fn;
     locals := locals fn; body := f (body fn) |}.

Definition with_structs (f : gmap string Struct → gmap string Struct) (p : Program) : Program :=
  {| structs := f (structs p); externs := externs p;
     funptrs := funptrs p; functions := functions p |}.

Definition with_externs (f : gmap string Ty → gmap string Ty) (p : Program) : Program :=
  {| structs := structs p; externs := f (externs p);
     funptrs := funptrs p; functions := functions p |}.

Definition with_funptrs (f : gmap string Ty → gmap string Ty) (p : Program) : Program :=
  {| structs := structs p; externs := externs p;
     funptrs := f (funptrs p); functions := functions p |}.

Definition with_functions (f : gmap string Function → gmap string Function)
    (p : Program) : Program :=
  {| structs := structs p; externs := externs p;
     funptrs := funptrs p; functions := f (functions p) |}.

End LIR.

Import LIR (VarId, BbId, FuncId, StructId, FieldId).

(** ** The translation vector *)

(** [std::variant<TvLabel, LIR::Inst, LIR::Terminal>] *)
Inductive TranslationItem : Type :=
| TvLabel (name : BbId)
| TvInst (i : LIR.Inst)
| TvTerminal (t : LIR.Terminal).

(** ** The [Lowerer] object *)

(** [m_current_fun] points at an element of [m_lir_prog->functions]; it is
    modelled by the key of that element, so that writes through the pointer
    are writes to the program under construction. *)
Record Lowerer :=
  { m_lir_prog : LIR.Program;
    m_current_fun : option FuncId;
    m_tv : list TranslationItem;
    m_last_result_id : VarId;
    m_label_counter : Z;
    m_tmp_counter : Z;
    m_const_insert_pos : nat;
    m_loop_hdr_stack : list BbId;
    m_loop_end_stack : list BbId }.

Definition with_lir_prog (f : LIR.Program → LIR.Program) (st : Lowerer) : Lowerer :=
  {| m_lir_prog := f (m_lir_prog st); m_current_fun := m_current_fun st;
     m_tv := m_tv st; m_last_result_id := m_last_result_id st;
     m_label_counter := m_label_counter st; m_tmp_counter := m_tmp_counter st;
     m_const_insert_pos := m_const_insert_pos st;
     m_loop_hdr_stack := m_loop_hdr_stack st;
     m_loop_end_stack := m_loop_end_stack st |}.

Definition with_current_fun (f : option FuncId) (st : Lowerer) : Lowerer :=
  {| m_lir_prog := m_lir_prog st; m_current_fun := f;
     m_tv := m_tv st; m_last_result_id := m_last_result_id st;
     m_label_counter := m_label_counter st; m_tmp_counter := m_tmp_counter st;
     m_const_insert_pos := m_const_insert_pos st;
     m_loop_hdr_stack := m_loop_hdr_stack st;
     m_loop_end_stack := m_loop_end_stack st |}.

Definition with_tv (f : list TranslationItem → list TranslationItem) (st : Lowerer) : Lowerer :=
  {| m_lir_prog := m_lir_prog st; m_current_fun := m_current_fun st;
     m_tv := f (m_tv st); m_last_result_id := m_last_result_id st;
     m_label_counter := m_label_counter st; m_tmp_counter := m_tmp_counter st;
     m_const_insert_pos := m_const_insert_pos st;
     m_loop_hdr_stack := m_loop_hdr_stack st;
     m_loop_end_stack := m_loop_end_stack st |}.

Definition with_last_result_id (x : VarId) (st : Lowerer) : Lowerer :=
  {| m_lir_prog := m_lir_prog st; m_current_fun := m_current_fun st;
     m_tv := m_tv st; m_last_result_id := x;
     m_label_counter := m_label_counter st; m_tmp_counter := m_tmp_counter st;
     m_const_insert_pos := m_const_insert_pos st;
     m_loop_hdr_stack := m_loop_hdr_stack st;
     m_loop_end_stack := m_loop_end_stack st |}.

Definition with_label_counter (n : Z) (st : Lowerer) : Lowerer :=
  {| m_lir_prog := m_lir_prog st; m_current_fun := m_current_fun st;
     m_tv := m_tv st; m_last_result_id := m_last_result_id st;
     m_label_counter := n; m_tmp_counter := m_tmp_counter st;
     m_const_insert_pos := m_const_insert_pos st;
     m_loop_hdr_stack := m_loop_hdr_stack st;
     m_loop_end_stack := m_loop_end_stack st |}.

Definition with_tmp_counter (n : Z) (st : Lowerer) : Lowerer :=
  {| m_lir_prog := m_lir_prog st; m_current_fun := m_current_fun st;
     m_tv := m_tv st; m_last_result_id := m_last_result_id st;
     m_label_counter := m_label_counter st; m_tmp_counter := n;
     m_const_insert_pos := m_const_insert_pos st;
     m_loop_hdr_stack := m_loop_hdr_stack st;
     m_loop_end_stack := m_loop_end_stack st |}.

Definition with_const_insert_pos (n : nat) (st : Lowerer) : Lowerer :=
  {| m_lir_prog := m_lir_prog st; m_current_fun := m_current_fun st;
     m_tv := m_tv st; m_last_result_id := m_last_result_id st;
     m_label_counter := m_label_counter st; m_tmp_counter := m_tmp_counter st;
     m_const_insert_pos := n;
     m_loop_hdr_stack := m_loop_hdr_stack st;
     m_loop_end_stack := m_loop_end_stack st |}.

Definition with_loop_hdr_stack (f : list BbId → list BbId) (st : Lowerer) : Lowerer :=
  {| m_lir_prog := m_lir_prog st; m_current_fun := m_current_fun st;
     m_tv := m_tv st; m_last_result_id := m_last_result_id st;
     m_label_counter := m_label_counter st; m_tmp_counter := m_tmp_counter st;
     m_const_insert_pos := m_const_insert_pos st;
     m_loop_hdr_stack := f (m_loop_hdr_stack st);
     m_loop_end_stack := m_loop_end_stack st |}.

Definition with_loop_end_stack (f : list BbId → list BbId) (st : Lowerer) : Lowerer :=
  {| m_lir_prog := m_lir_prog st; m_current_fun := m_current_fun st;
     m_tv := m_tv st; m_last_result_id := m_last_result_id st;
     m_label_counter := m_label_counter st; m_tmp_counter := m_tmp_counter st;
     m_const_insert_pos := m_const_insert_pos st;
     m_loop_hdr_stack := m_loop_hdr_stack st;
     m_loop_end_stack := f (m_loop_end_stack st) |}.

(** A default-constructed [Lowerer] whose [m_lir_prog] has just been set by
    [Lowerer::lower]. *)
Definition new_Lowerer : Lowerer :=
  {| m_lir_prog := LIR.empty_Program; m_current_fun := None;
     m_tv := []; m_last_result_id := "";
     m_label_counter := 0; m_tmp_counter := 0;
     m_const_insert_pos := 1;
     m_loop_hdr_stack := []; m_loop_end_stack := [] |}.

(** ** Failures *)

Inductive Error : Type :=
| runtime_error (what : string)   (* throw std::runtime_error(what) *)
| out_of_range                    (* std::map::at on a missing key *)
| null_dereference                (* access through a null pointer *)
| invalid_iterator.               (* std::vector::insert past end() *)

(** The error kinds the specification names, as the exceptions the code
    throws for them. *)
Definition BreakOutsideLoop : Error :=
  runtime_error "Break statement outside of loop".
Definition ContinueOutsideLoop : Error :=
  runtime_error "Continue statement outside of loop".
Definition IdLoweredAsPlace : Error :=
  runtime_error
    "Id should not be lowered as a place (address). This indicates a bug in the lowerer.".
Definition UnknownIdentifier (id : VarId) : Error :=
  runtime_error ("Could not find type for VarId: " +:+ id).

(** ** The lowering monad: state of the [Lowerer] plus exceptions.

    A computation returns either a value or the exception thrown, together
    with the [Lowerer] as it was left at that point. *)
Definition Lower (A : Type) : Type := Lowerer → (Error + A) * Lowerer.

Global Instance Lower_ret : MRet Lower := λ A a st, (inr a, st).
Global Instance Lower_bind : MBind Lower := λ A B k m st,
  match m st with
  | (inr a, st') => k a st'
  | (inl e, st') => (inl e, st')
  end.

Definition throw {A} (e : Error) : Lower A := λ st, (inl e, st).
Definition gets {A} (f : Lowerer → A) : Lower A := λ st, (inr (f st), st).
Definition modify (f : Lowerer → Lowerer) : Lower unit := λ st, (inr (), f st).

(** ** Helper functions of the lowerer *)

(** The function [m_current_fun] points at, if any. *)
Definition current_fun (st : Lowerer) : option LIR.Function :=
  f ← m_current_fun st; LIR.functions (m_lir_prog st) !! f.

(** A read through [m_current_fun->...]. *)
Definition get_current_fun : Lower LIR.Function := λ st,
  match current_fun st with
  | Some fn => (inr fn, st)
  | None => (inl null_dereference, st)
  end.

(** A write through [m_current_fun->...]. *)
Definition modify_current_fun (g : LIR.Function → LIR.Function) : Lower unit := λ st,
  match m_current_fun st with
  | Some f =>
      match LIR.functions (m_lir_prog st) !! f with
      | Some fn => (inr (), with_lir_prog (LIR.with_functions <[f := g fn]>) st)
      | None => (inl null_dereference, st)
      end
  | None => (inl null_dereference, st)
  end.

(** [m_tv.push_back(item)] *)
Definition emit (item : TranslationItem) : Lower unit :=
  modify (with_tv (λ tv, tv ++ [item])).

Definition set_last_result_id (x : VarId) : Lower unit :=
  modify (with_last_result_id x).

Definition fresh_inner_var (type : LIR.Ty) : Lower VarId :=
  n ← gets m_tmp_counter;
  modify (with_tmp_counter (wrap_int (n + 1)));;
  let name := "_inner" +:+ to_string n in
  modify_current_fun (LIR.with_locals <[name := type]>);;
  mret name.

Definition fresh_non_inner_var (type : LIR.Ty) : Lower VarId :=
  n ← gets m_tmp_counter;
  modify (with_tmp_counter (wrap_int (n + 1)));;
  let name := "_tmp" +:+ to_string n in
  modify_current_fun (LIR.with_locals <[name := type]>);;
  mret name.

(** [release] is left unimplemented in the source: it ignores its argument. *)
Definition release (vars : list VarId) : Lower unit := mret ().

(** The name [const_var] gives to the holder of [n]. *)
Definition const_name (n : Z) : string :=
  "_const_" +:+
    (if bool_decide (n < 0)%Z then "n" +:+ to_string (wrap_int (- n)) else to_string n).

(** [m_tv.insert(m_tv.begin() + pos, item)].  The iterator is valid up to
    [m_tv.end()]: the item goes in front of the element at [pos], or at the
    back when [pos] is the size of the vector.  Behind [m_tv.end()] the
    insertion has no defined result: [None]. *)
Definition tv_insert (pos : nat) (item : TranslationItem)
    (tv : list TranslationItem) : option (list TranslationItem) :=
  if decide (pos ≤ length tv) then Some (take pos tv ++ item :: drop pos tv) else None.

Definition const_var (n : Z) : Lower VarId :=
  let name := const_name n in
  fn ← get_current_fun;
  match LIR.locals fn !! name with
  | None =>
      modify_current_fun (LIR.with_locals <[name := LIR.IntType]>);;
      pos ← gets m_const_insert_pos;
      tv ← gets m_tv;
      match tv_insert pos (TvInst (LIR.Const name n)) tv with
      | Some tv' => modify (with_tv (λ _, tv'))
      | None => throw invalid_iterator
      end;;
      modify (with_const_insert_pos (S pos))
  | Some _ => mret ()
  end;;
  mret name.

Definition new_label (prefix : string) : Lower BbId :=
  n ← gets m_label_counter;
  modify (with_label_counter (wrap_int (n + 1)));;
  mret (prefix +:+ to_string n).

(** [typeof_var]: locals, then funptrs, then externs, then the name
    [__NULL]; for any other name the source prints a warning on the error
    stream and returns [int] (the [throw] is commented out). *)
Definition typeof (st : Lowerer) (id : VarId) : LIR.Ty :=
  match current_fun st ≫= (λ fn, LIR.locals fn !! id) with
  | Some t => t
  | None =>
      match LIR.funptrs (m_lir_prog st) !! id with
      | Some t => t
      | None =>
          match LIR.externs (m_lir_prog st) !! id with
          | Some t => t
          | None =>
              if decide (id = "__NULL") then LIR.NilType else LIR.IntType
          end
      end
  end.

Definition typeof_var (id : VarId) : Lower LIR.Ty := gets (λ st, typeof st id).

Definition typeof_field (sid : StructId) (fid : FieldId) : Lower LIR.Ty :=
  prog ← gets m_lir_prog;
  match LIR.structs prog !! sid ≫= (λ s, LIR.fields s !! fid) with
  | Some t => mret t
  | None =>
      throw (runtime_error ("Could not find field " +:+ fid +:+ " in struct " +:+ sid))
  end.

(** Modelled from the spec: [typeof_struct_field] is called by
    the [FieldAccess] visitor but is not among the sources; the
    specification gives the field type as [structs[N].fields[f]] for the
    struct named [N], which is what [typeof_field] looks up. *)
Definition typeof_struct_field (struct_id : StructId) (fid : FieldId) : Lower LIR.Ty :=
  typeof_field struct_id fid.

Definition typeof_array_element (arr_type : LIR.Ty) : Lower LIR.Ty :=
  match arr_type with
  | LIR.ArrayType element => mret element
  | _ => throw (runtime_error "Type is not an array type")
  end.

Definition typeof_ptr_element (ptr_type : LIR.Ty) : Lower LIR.Ty :=
  match ptr_type with
  | LIR.PtrType element => mret element
  | _ => throw (runtime_error "Type is not a pointer type")
  end.

Definition typeof_func_ret (fn_type : LIR.Ty) : Lower LIR.Ty :=
  match fn_type with
  | LIR.FnType _ ret => mret ret
  | LIR.PtrType (LIR.FnType _ ret) => mret ret
  | _ => throw (runtime_error "Type is not a function or function pointer type")
  end.

(** On the closed set of AST types the conversion never reaches its final
    [throw]. *)
Fixpoint convert_type (ast_type : AST.Ty) : LIR.Ty :=
  match ast_type with
  | AST.IntType => LIR.IntType
  | AST.NilType => LIR.NilType
  | AST.StructType name => LIR.StructType name
  | AST.PtrType p => LIR.PtrType (convert_type p)
  | AST.ArrayType a => LIR.ArrayType (convert_type a)
  | AST.FnType ps r => LIR.FnType (map convert_type ps) (convert_type r)
  end.

Definition convert_arith_op (op : AST.BinaryOp) : Lower LIR.ArithOp :=
  match op with
  | AST.Add => mret LIR.Add
  | AST.Sub => mret LIR.Sub
  | AST.Mul => mret LIR.Mul
  | AST.Div => mret LIR.Div
  | _ => throw (runtime_error "Not an arith op")
  end.

Definition convert_rel_op (op : AST.BinaryOp) : Lower LIR.RelOp :=
  match op with
  | AST.Eq => mret LIR.Eq
  | AST.NotEq => mret LIR.NotEq
  | AST.Lt => mret LIR.Lt
  | AST.Lte => mret LIR.Lte
  | AST.Gt => mret LIR.Gt
  | AST.Gte => mret LIR.Gte
  | _ => throw (runtime_error "Not a rel op")
  end.

(** ** Visitors: expressions, places and calls

    Every visitor returns the node it visited as the visit leaves it, and
    passes its result identifier through [m_last_result_id], as the source
    does. *)

(** [lower_exp] and [lower_place]: run the visit, then read
    [m_last_result_id]. *)
Definition lower_with {A} (accept : Lower A) : Lower (A * VarId) :=
  n ← accept;
  r ← gets m_last_result_id;
  mret (n, r).

(** [static_cast<int>(n->value)] *)
Definition visit_Num (value : Z) : Lower unit :=
  r ← const_var (wrap_int value);
  set_last_result_id r.

(** The body of the [BinOp] visitor.  It is also entered from the [Not] case
    of the [UnOp] visitor, on a temporary node whose left child was moved
    out of the [UnOp]; the two children are therefore passed as the
    computations [lower_exp(n->left.get())] and [lower_exp(n->right.get())]. *)
Definition visit_BinOp {L R} (op : AST.BinaryOp)
    (lower_left : Lower (L * VarId)) (lower_right : Lower (R * VarId)) : Lower (L * R) :=
  match op with
  | AST.Add | AST.Sub | AST.Mul | AST.Div =>
      '(l, op1) ← lower_left;
      '(r, op2) ← lower_right;
      lhs ← fresh_non_inner_var LIR.IntType;
      aop ← convert_arith_op op;
      emit (TvInst (LIR.Arith lhs aop op1 op2));;
      release [op1; op2];;
      set_last_result_id lhs;;
      mret (l, r)
  | AST.Eq | AST.NotEq | AST.Lt | AST.Lte | AST.Gt | AST.Gte =>
      '(l, op1) ← lower_left;
      '(r, op2) ← lower_right;
      lhs ← fresh_non_inner_var LIR.IntType;
      rop ← convert_rel_op op;
      emit (TvInst (LIR.Cmp lhs rop op1 op2));;
      release [op1; op2];;
      set_last_result_id lhs;;
      mret (l, r)
  | AST.And =>
      TT ← new_label "and_true";
      FF ← new_label "and_false";
      END ← new_label "and_end";
      let x := "__NULL" in
      '(l, y) ← lower_left;
      emit (TvTerminal (LIR.Branch y TT FF));;
      emit (TvLabel TT);;
      release [y];;
      '(r, z) ← lower_right;
      x ← (if decide (z ≠ "__NULL") then
             z_type ← typeof_var z;
             x ← fresh_non_inner_var z_type;
             emit (TvInst (LIR.Copy x z));;
             mret x
           else mret x);
      release [z];;
      emit (TvTerminal (LIR.Jump END));;
      emit (TvLabel FF);;
      '(_, w) ← lower_with (visit_Num 0);
      x ← (if decide (w ≠ "__NULL") then
             x ← (if decide (x = "__NULL") then
                    w_type ← typeof_var w;
                    fresh_non_inner_var w_type
                  else mret x);
             emit (TvInst (LIR.Copy x w));;
             mret x
           else mret x);
      release [w];;
      emit (TvTerminal (LIR.Jump END));;
      emit (TvLabel END);;
      set_last_result_id x;;
      mret (l, r)
  | AST.Or =>
      FF ← new_label "or_false";
      END ← new_label "or_end";
      '(l, x) ← lower_left;
      y ← fresh_non_inner_var LIR.IntType;
      emit (TvInst (LIR.Copy y x));;
      emit (TvTerminal (LIR.Branch y END FF));;
      emit (TvLabel FF);;
      release [x];;
      '(r, z) ← lower_right;
      emit (TvInst (LIR.Copy y z));;
      release [z];;
      emit (TvTerminal (LIR.Jump END));;
      emit (TvLabel END);;
      set_last_result_id y;;
      mret (l, r)
  end.

(** [lower_exp] on a possibly null pointer: [exp->accept] through a null
    pointer does not return. *)
Definition lower_ptr {A} (lower : A → Lower (A * VarId)) (p : option A)
    : Lower (option A * VarId) :=
  match p with
  | Some e => '(e', r) ← lower e; mret (Some e', r)
  | None => throw null_dereference
  end.

(** The argument loop of the call visitors: the arguments are visited from
    the last to the first, and each result is pushed at the back of [xs]. *)
Definition lower_args_with (lower : AST.Exp → Lower (AST.Exp * VarId))
    : list AST.Exp → Lower (list AST.Exp * list VarId) :=
  fix go (args : list AST.Exp) : Lower (list AST.Exp * list VarId) :=
    match args with
    | [] => mret ([], [])
    | a :: rest =>
        '(rest', xs) ← go rest;
        '(a', x) ← lower a;
        mret (a' :: rest', xs ++ [x])
    end.

Fixpoint visit_Exp (n : AST.Exp) : Lower AST.Exp :=
  match n with
  | AST.Val place =>
      match place with
      | AST.Id name =>
          set_last_result_id name;;
          mret n
      | _ =>
          '(place', src) ← lower_with (visit_Place place);
          ptr_type ← typeof_var src;
          val_type ← typeof_ptr_element ptr_type;
          lhs ← fresh_non_inner_var val_type;
          emit (TvInst (LIR.Load lhs src));;
          release [src];;
          set_last_result_id lhs;;
          mret (AST.Val place')
      end
  | AST.Num value =>
      visit_Num value;;
      mret n
  | AST.NilExp =>
      set_last_result_id "__NULL";;
      mret n
  | AST.Select guard tt_ ff_ =>
      TT ← new_label "if_true";
      FF ← new_label "if_false";
      END ← new_label "if_end";
      let x := "__NULL" in
      '(guard', y) ← lower_with (visit_Exp guard);
      emit (TvTerminal (LIR.Branch y TT FF));;
      emit (TvLabel TT);;
      release [y];;
      '(tt', z) ← lower_with (visit_Exp tt_);
      x ← (if decide (z ≠ "__NULL") then
             z_type ← typeof_var z;
             x ← fresh_non_inner_var z_type;
             emit (TvInst (LIR.Copy x z));;
             mret x
           else mret x);
      release [z];;
      emit (TvTerminal (LIR.Jump END));;
      emit (TvLabel FF);;
      '(ff', w) ← lower_with (visit_Exp ff_);
      x ← (if decide (w ≠ "__NULL") then
             x ← (if decide (x = "__NULL") then
                    w_type ← typeof_var w;
                    fresh_non_inner_var w_type
                  else mret x);
             emit (TvInst (LIR.Copy x w));;
             mret x
           else mret x);
      release [w];;
      emit (TvTerminal (LIR.Jump END));;
      emit (TvLabel END);;
      set_last_result_id x;;
      mret (AST.Select guard' tt' ff')
  | AST.UnOp AST.Neg exp =>
      match exp with
      | Some (AST.Num value) =>
          r ← const_var (wrap_int (- wrap_int value));
          set_last_result_id r;;
          mret n
      | _ =>
          lhs ← fresh_non_inner_var LIR.IntType;
          zero ← const_var 0;
          '(exp', x) ← lower_ptr (λ e, lower_with (visit_Exp e)) exp;
          emit (TvInst (LIR.Arith lhs LIR.Sub zero x));;
          release [x];;
          set_last_result_id lhs;;
          mret (AST.UnOp AST.Neg exp')
      end
  | AST.UnOp AST.Not exp =>
      (* eq_binop takes ownership of n->exp and is destroyed, with the
         operand, when the visitor returns: n->exp is left null. *)
      visit_BinOp AST.Eq
        (lower_ptr (λ e, lower_with (visit_Exp e)) exp)
        (lower_with (visit_Num 0));;
      mret (AST.UnOp AST.Not None)
  | AST.BinOp op l r =>
      '(l', r') ← visit_BinOp op (lower_with (visit_Exp l)) (lower_with (visit_Exp r));
      mret (AST.BinOp op l' r')
  | AST.NewSingle type =>
      let tau := convert_type type in
      let ptr_tau := LIR.PtrType tau in
      lhs ← fresh_non_inner_var ptr_tau;
      emit (TvInst (LIR.AllocSingle lhs tau));;
      set_last_result_id lhs;;
      mret n
  | AST.NewArray type size =>
      let tau := convert_type type in
      let arr_tau := LIR.ArrayType tau in
      lhs ← fresh_non_inner_var arr_tau;
      '(size', x) ← lower_with (visit_Exp size);
      emit (TvInst (LIR.AllocArray lhs x tau));;
      release [x];;
      set_last_result_id lhs;;
      mret (AST.NewArray type size')
  | AST.CallExp fun_call =>
      fun_call' ← visit_FunCall fun_call;
      mret (AST.CallExp fun_call')
  end
with visit_Place (n : AST.Place) : Lower AST.Place :=
  match n with
  | AST.Id name =>
      throw IdLoweredAsPlace
  | AST.Deref exp =>
      '(exp', r) ← lower_with (visit_Exp exp);
      set_last_result_id r;;
      mret (AST.Deref exp')
  | AST.ArrayAccess array index =>
      '(array', src) ← lower_with (visit_Exp array);
      '(index', idx) ← lower_with (visit_Exp index);
      arr_type ← typeof_var src;
      elem_type ← typeof_array_element arr_type;
      let ptr_elem_type := LIR.PtrType elem_type in
      lhs ← fresh_inner_var ptr_elem_type;
      emit (TvInst (LIR.Gep lhs src idx true));;
      release [src; idx];;
      set_last_result_id lhs;;
      mret (AST.ArrayAccess array' index')
  | AST.FieldAccess ptr field =>
      '(ptr', src) ← lower_with (visit_Exp ptr);
      ptr_type ← typeof_var src;
      struct_type ← typeof_ptr_element ptr_type;
      match struct_type with
      | LIR.StructType struct_id =>
          sid ← fresh_inner_var ptr_type;
          field_type ← typeof_struct_field struct_id field;
          lhs ← fresh_inner_var (LIR.PtrType field_type);
          emit (TvInst (LIR.Gfp lhs src sid field));;
          release [src];;
          set_last_result_id lhs;;
          mret (AST.FieldAccess ptr' field)
      | _ => throw (runtime_error "FieldAccess on non-struct pointer type")
      end
  end
with visit_FunCall (n : AST.FunCall) : Lower AST.FunCall :=
  match n with
  | AST.MkFunCall callee args =>
      '(args', xs) ← lower_args_with (λ a, lower_with (visit_Exp a)) args;
      '(callee', fun_) ← lower_with (visit_Exp callee);
      fun_type ← typeof_var fun_;
      ret_type ← typeof_func_ret fun_type;
      lhs ← fresh_non_inner_var ret_type;
      emit (TvInst (LIR.Call (Some lhs) fun_ xs));;
      release (xs ++ [fun_]);;
      set_last_result_id lhs;;
      mret (AST.MkFunCall callee' args')
  end.

Definition lower_exp (exp : AST.Exp) : Lower (AST.Exp * VarId) :=
  lower_with (visit_Exp exp).

Definition lower_place (place : AST.Place) : Lower (AST.Place * VarId) :=
  lower_with (visit_Place place).

(** The argument loop, as the call visitors run it. *)
Definition lower_args : list AST.Exp → Lower (list AST.Exp * list VarId) :=
  lower_args_with lower_exp.

(** ** Visitors: statements *)

(** A range-based [for] loop that visits every element in order. *)
Definition visit_each {A} (visit : A → Lower A) : list A → Lower (list A) :=
  fix go (l : list A) : Lower (list A) :=
    match l with
    | [] => mret []
    | x :: rest =>
        x' ← visit x;
        rest' ← go rest;
        mret (x' :: rest')
    end.

Definition for_each {A} (f : A → Lower unit) : list A → Lower unit :=
  fix go (l : list A) : Lower unit :=
    match l with
    | [] => mret ()
    | x :: rest => f x;; go rest
    end.

(** [push_back] and [pop_back] on the loop stacks: the top is the last
    element. *)
Definition push_back {A} (x : A) (v : list A) : list A := v ++ [x].
Definition pop_back {A} (v : list A) : list A := removelast v.

Fixpoint visit_Stmt (n : AST.Stmt) : Lower AST.Stmt :=
  match n with
  | AST.Stmts statements =>
      statements' ← visit_each visit_Stmt statements;
      mret (AST.Stmts statements')
  | AST.Assign place exp =>
      match place with
      | AST.Id name =>
          '(exp', x) ← lower_exp exp;
          emit (TvInst (LIR.Copy name x));;
          release [x];;
          mret (AST.Assign place exp')
      | _ =>
          '(place', x) ← lower_place place;
          '(exp', y) ← lower_exp exp;
          emit (TvInst (LIR.Store x y));;
          release [x; y];;
          mret (AST.Assign place' exp')
      end
  | AST.CallStmt (AST.MkFunCall callee args) =>
      '(args', xs) ← lower_args args;
      '(callee', fun_) ← lower_exp callee;
      emit (TvInst (LIR.Call None fun_ xs));;
      release (xs ++ [fun_]);;
      mret (AST.CallStmt (AST.MkFunCall callee' args'))
  | AST.If guard tt_ ff_ =>
      TT ← new_label "if_true";
      FF ← new_label "if_false";
      END ← new_label "if_end";
      '(guard', x) ← lower_exp guard;
      emit (TvTerminal (LIR.Branch x TT FF));;
      emit (TvLabel TT);;
      release [x];;
      tt' ← visit_Stmt tt_;
      emit (TvTerminal (LIR.Jump END));;
      emit (TvLabel FF);;
      ff' ← match ff_ with
            | Some s => s' ← visit_Stmt s; mret (Some s')
            | None => mret None
            end;
      emit (TvTerminal (LIR.Jump END));;
      emit (TvLabel END);;
      mret (AST.If guard' tt' ff')
  | AST.While guard body =>
      LOOP_HDR ← new_label "loop_hdr";
      BODY ← new_label "loop_body";
      LOOP_END ← new_label "loop_end";
      modify (with_loop_hdr_stack (push_back LOOP_HDR));;
      modify (with_loop_end_stack (push_back LOOP_END));;
      emit (TvTerminal (LIR.Jump LOOP_HDR));;
      emit (TvLabel LOOP_HDR);;
      '(guard', x) ← lower_exp guard;
      emit (TvTerminal (LIR.Branch x BODY LOOP_END));;
      release [x];;
      emit (TvLabel BODY);;
      body' ← visit_Stmt body;
      emit (TvTerminal (LIR.Jump LOOP_HDR));;
      emit (TvLabel LOOP_END);;
      modify (with_loop_hdr_stack pop_back);;
      modify (with_loop_end_stack pop_back);;
      mret (AST.While guard' body')
  | AST.Break =>
      stack ← gets m_loop_end_stack;
      match last stack with
      | None => throw BreakOutsideLoop
      | Some LOOP_END =>
          emit (TvTerminal (LIR.Jump LOOP_END));;
          mret n
      end
  | AST.Continue =>
      stack ← gets m_loop_hdr_stack;
      match last stack with
      | None => throw ContinueOutsideLoop
      | Some LOOP_HDR =>
          emit (TvTerminal (LIR.Jump LOOP_HDR));;
          mret n
      end
  | AST.Return exp =>
      match exp with
      | Some e =>
          '(e', x) ← lower_exp e;
          emit (TvTerminal (LIR.Ret (Some x)));;
          release [x];;
          mret (AST.Return (Some e'))
      | None =>
          emit (TvTerminal (LIR.Ret None));;
          mret n
      end
  end.

Definition lower_stmt (stmt : AST.Stmt) : Lower AST.Stmt := visit_Stmt stmt.

(** ** Pass 2: translation vector to control-flow graph *)

Definition set_label (l : BbId) (bb : LIR.BasicBlock) : LIR.BasicBlock :=
  {| LIR.label := l; LIR.insts := LIR.insts bb; LIR.term := LIR.term bb |}.

Definition push_inst (i : LIR.Inst) (bb : LIR.BasicBlock) : LIR.BasicBlock :=
  {| LIR.label := LIR.label bb; LIR.insts := LIR.insts bb ++ [i]; LIR.term := LIR.term bb |}.

Definition set_term (t : LIR.Terminal) (bb : LIR.BasicBlock) : LIR.BasicBlock :=
  {| LIR.label := LIR.label bb; LIR.insts := LIR.insts bb; LIR.term := t |}.

(** [&m_current_fun->body[name]]: the block is created empty when absent. *)
Definition get_or_create (name : BbId) (body : gmap string LIR.BasicBlock)
    : gmap string LIR.BasicBlock :=
  match body !! name with
  | Some _ => body
  | None => <[name := LIR.empty_BasicBlock]> body
  end.

(** One iteration of the loop of [build_cfg]; [current_bb] points into
    [m_current_fun->body] and is modelled by the label of that block. *)
Definition cfg_step (current_bb : option BbId) (item : TranslationItem)
    : Lower (option BbId) :=
  match item with
  | TvLabel name =>
      modify_current_fun
        (LIR.with_body (λ body, alter (set_label name) name (get_or_create name body)));;
      mret (Some name)
  | TvInst i =>
      bb ← match current_bb with
           | Some bb => mret bb
           | None =>
               fn ← get_current_fun;
               let entry := LIR.name fn +:+ "_entry" in
               match LIR.body fn !! entry with
               | Some _ => mret entry
               | None => throw out_of_range
               end
           end;
      modify_current_fun (LIR.with_body (alter (push_inst i) bb));;
      mret (Some bb)
  | TvTerminal t =>
      match current_bb with
      | None => mret None
      | Some bb =>
          modify_current_fun (LIR.with_body (alter (set_term t) bb));;
          mret None
      end
  end.

Fixpoint cfg_scan (tv : list TranslationItem) (current_bb : option BbId) : Lower unit :=
  match tv with
  | [] => mret ()
  | item :: rest =>
      current_bb' ← cfg_step current_bb item;
      cfg_scan rest current_bb'
  end.

(** The source stops after the scan: no block is removed. *)
Definition build_cfg : Lower unit :=
  tv ← gets m_tv;
  cfg_scan tv None.

(** ** Visitors: functions and the program *)

(** The backwards search of the [FunctionDef] visitor, on the reversed
    vector: labels are skipped, the first terminal or instruction decides. *)
Fixpoint scan_for_ret (rtv : list TranslationItem) : bool :=
  match rtv with
  | [] => false
  | TvTerminal (LIR.Ret _) :: _ => true
  | TvTerminal _ :: _ => false
  | TvLabel _ :: rest => scan_for_ret rest
  | TvInst _ :: _ => false
  end.

Definition has_ret (tv : list TranslationItem) : bool := scan_for_ret (rev tv).

Definition add_implicit_return : Lower unit :=
  tv ← gets m_tv;
  if has_ret tv then mret () else emit (TvTerminal (LIR.Ret None)).

Definition with_ast_body (b : AST.Stmt) (n : AST.FunctionDef) : AST.FunctionDef :=
  {| AST.name := AST.name n; AST.params := AST.params n; AST.rettype := AST.rettype n;
     AST.locals := AST.locals n; AST.body := b |}.

Definition set_context (fname : string) : Lower unit :=
  prog ← gets m_lir_prog;
  match LIR.functions prog !! fname with
  | None => throw out_of_range
  | Some _ => modify (with_current_fun (Some fname))
  end;;
  modify (with_tv (λ _, []));;
  modify (with_label_counter 0);;
  modify (with_tmp_counter 0);;
  modify (with_const_insert_pos 1).

Definition visit_FunctionDef (n : AST.FunctionDef) : Lower AST.FunctionDef :=
  set_context (AST.name n);;
  emit (TvLabel (AST.name n +:+ "_entry"));;
  body' ← lower_stmt (AST.body n);
  add_implicit_return;;
  build_cfg;;
  mret (with_ast_body body' n).

Definition add_decl (m : gmap string LIR.Ty) (d : AST.Decl) : gmap string LIR.Ty :=
  <[AST.decl_name d := convert_type (AST.decl_type d)]> m.

Definition visit_StructDef (n : AST.StructDef) : Lower unit :=
  let lir_s := {| LIR.struct_name := AST.struct_name n;
                  LIR.fields := foldl add_decl ∅ (AST.fields n) |} in
  modify (with_lir_prog (LIR.with_structs <[LIR.struct_name lir_s := lir_s]>)).

Definition add_extern (ast_extern : AST.Extern) : Lower unit :=
  let param_types := map convert_type (AST.param_types ast_extern) in
  let ret_type := convert_type (AST.extern_rettype ast_extern) in
  modify (with_lir_prog
    (LIR.with_externs <[AST.extern_name ast_extern := LIR.FnType param_types ret_type]>)).

(** The function shell: parameters and declared locals, no body. *)
Definition param_types_of (ast_fun : AST.FunctionDef) : list LIR.Ty :=
  map (λ p, convert_type (AST.decl_type p)) (AST.params ast_fun).

Definition function_shell (ast_fun : AST.FunctionDef) : LIR.Function :=
  {| LIR.name := AST.name ast_fun;
     LIR.params :=
       map (λ p, (AST.decl_name p, convert_type (AST.decl_type p))) (AST.params ast_fun);
     LIR.rettyp := convert_type (AST.rettype ast_fun);
     LIR.locals := foldl add_decl (foldl add_decl ∅ (AST.params ast_fun)) (AST.locals ast_fun);
     LIR.body := ∅ |}.

Definition add_function_shell (ast_fun : AST.FunctionDef) : Lower unit :=
  let lir_fun := function_shell ast_fun in
  (if decide (LIR.name lir_fun ≠ "main") then
     let fn_type := LIR.FnType (param_types_of ast_fun) (LIR.rettyp lir_fun) in
     modify (with_lir_prog (LIR.with_funptrs <[LIR.name lir_fun := LIR.PtrType fn_type]>))
   else mret ());;
  modify (with_lir_prog (LIR.with_functions <[LIR.name lir_fun := lir_fun]>)).

(** Steps 1 to 3 of the [Program] visitor: the program shell. *)
Definition build_shell (n : AST.Program) : Lower unit :=
  for_each visit_StructDef (AST.structs n);;
  for_each add_extern (AST.externs n);;
  for_each add_function_shell (AST.functions n).

Definition visit_Program (n : AST.Program) : Lower AST.Program :=
  build_shell n;;
  functions' ← visit_each visit_FunctionDef (AST.functions n);
  mret {| AST.structs := AST.structs n; AST.externs := AST.externs n;
          AST.functions := functions' |}.

(** [Lowerer::lower]: the lowered program, or the exception, and the AST as
    the lowering leaves it. *)
Definition lower (ast_prog : AST.Program) : Error + (AST.Program * LIR.Program) :=
  match visit_Program ast_prog new_Lowerer with
  | (inr ast', st) => inr (ast', m_lir_prog st)
  | (inl e, _) => inl e
  end.

(** * Vocabulary of the properties *)

(** The locals [typeof_var] consults: those of the current function, none
    when there is no current function. *)
Definition current_locals (st : Lowerer) : gmap string LIR.Ty :=
  match current_fun st with
  | Some fn => LIR.locals fn
  | None => ∅
  end.

Definition is_label (item : TranslationItem) : bool :=
  match item with TvLabel _ => true | _ => false end.

(** The last item of the vector that is not a label is a [Ret]. *)
Definition ends_with_ret (tv : list TranslationItem) : bool :=
  match last (filter (λ item, is_label item = false) tv) with
  | Some (TvTerminal (LIR.Ret _)) => true
  | _ => false
  end.

(** Some [Ret] occurs in the vector. *)
Definition contains_ret (tv : list TranslationItem) : bool :=
  existsb (λ item, match item with TvTerminal (LIR.Ret _) => true | _ => false end) tv.

(** The state in which the [FunctionDef] visitor decides on the implicit
    return: the shell of [p] is built, the context is set to [n], the entry
    label is pushed and the body of [n] is lowered. *)
Definition before_implicit_return (p : AST.Program) (n : AST.FunctionDef) : Lowerer :=
  snd ((build_shell p;;
        set_context (AST.name n);;
        emit (TvLabel (AST.name n +:+ "_entry"));;
        lower_stmt (AST.body n)) new_Lowerer).

(** The function-pointer type of a function, read off its declaration:
    pointer to a function from the converted types of the declared
    parameters, in their order, to the converted return type. *)
Definition funptr_type (f : AST.FunctionDef) : LIR.Ty :=
  LIR.PtrType
    (LIR.FnType (map (λ d, convert_type (AST.decl_type d)) (AST.params f))
       (convert_type (AST.rettype f))).

(** What one iteration of the shell loop does to [funptrs]. *)
Definition add_funptr (m : gmap string LIR.Ty) (f : AST.FunctionDef) : gmap string LIR.Ty :=
  if decide (AST.name f ≠ "main") then <[AST.name f := funptr_type f]> m else m.

Definition shell_step (f : AST.FunctionDef) (st : Lowerer) : Lowerer :=
  snd (add_function_shell f st).

(** Control-flow successors of a block, and the blocks reachable from an
    entry label by following them. *)
Definition successors (t : LIR.Terminal) : list BbId :=
  match t with
  | LIR.Jump target => [target]
  | LIR.Branch _ tt_ ff_ => [tt_; ff_]
  | _ => []
  end.

Inductive reachable (body : gmap string LIR.BasicBlock) (entry : BbId) : BbId → Prop :=
| reachable_entry : reachable body entry entry
| reachable_succ l bb l' :
    reachable body entry l →
    body !! l = Some bb →
    l' ∈ successors (LIR.term bb) →
    reachable body entry l'.

(** ** Sample programs *)

Module Examples.

Definition decl (name : string) (type : AST.Ty) : AST.Decl :=
  {| AST.decl_name := name; AST.decl_type := type |}.

Definition var (name : string) : AST.Exp := AST.Val (AST.Id name).

Definition program_of (structs : list AST.StructDef) (functions : list AST.FunctionDef)
    : AST.Program :=
  {| AST.structs := structs; AST.externs := []; AST.functions := functions |}.

(** [fn main() -> int { let c:int; if (c) { return 1; } else { return 2; } }] *)
Definition main_if_else_return : AST.FunctionDef :=
  {| AST.name := "main"; AST.params := []; AST.rettype := AST.IntType;
     AST.locals := [decl "c" AST.IntType];
     AST.body :=
       AST.Stmts
         [AST.If (var "c")
            (AST.Stmts [AST.Return (Some (AST.Num 1))])
            (Some (AST.Stmts [AST.Return (Some (AST.Num 2))]))] |}.

Definition prog_if_else_return : AST.Program := program_of [] [main_if_else_return].

(** [struct S { f:int }  fn main() -> int { let s:&S; s.f = 5; return 0; }] *)
Definition struct_S : AST.StructDef :=
  {| AST.struct_name := "S"; AST.fields := [decl "f" AST.IntType] |}.

Definition main_field_store : AST.FunctionDef :=
  {| AST.name := "main"; AST.params := []; AST.rettype := AST.IntType;
     AST.locals := [decl "s" (AST.PtrType (AST.StructType "S"))];
     AST.body :=
       AST.Stmts
         [AST.Assign (AST.FieldAccess (var "s") "f") (AST.Num 5);
          AST.Return (Some (AST.Num 0))] |}.

Definition prog_field_store : AST.Program := program_of [struct_S] [main_field_store].

(** [fn g(x:int, y:int) -> int { return x; }]
    [fn main() -> int { let a:int, b:int, r:int; g(a, b); r = g(a, b); return r; }] *)
Definition fun_g : AST.FunctionDef :=
  {| AST.name := "g";
     AST.params := [decl "x" AST.IntType; decl "y" AST.IntType];
     AST.rettype := AST.IntType;
     AST.locals := [];
     AST.body := AST.Stmts [AST.Return (Some (var "x"))] |}.

Definition call_g_a_b : AST.FunCall := AST.MkFunCall (var "g") [var "a"; var "b"].

Definition main_calls : AST.FunctionDef :=
  {| AST.name := "main"; AST.params := []; AST.rettype := AST.IntType;
     AST.locals := [decl "a" AST.IntType; decl "b" AST.IntType; decl "r" AST.IntType];
     AST.body :=
       AST.Stmts
         [AST.CallStmt call_g_a_b;
          AST.Assign (AST.Id "r") (AST.CallExp call_g_a_b);
          AST.Return (Some (var "r"))] |}.

Definition prog_calls : AST.Program := program_of [] [fun_g; main_calls].

(** [fn main() -> int { let a:int; return !a; }] *)
Definition main_not : AST.FunctionDef :=
  {| AST.name := "main"; AST.params := []; AST.rettype := AST.IntType;
     AST.locals := [decl "a" AST.IntType];
     AST.body := AST.Stmts [AST.Return (Some (AST.UnOp AST.Not (Some (var "a"))))] |}.

Definition prog_not : AST.Program := program_of [] [main_not].

(** [fn main() -> int { let a:int, b:int; a = 2; b = 3; while (a < 7) { a = a + 2; }
    return a + b + -4; }] *)
Definition main_literals : AST.FunctionDef :=
  {| AST.name := "main"; AST.params := []; AST.rettype := AST.IntType;
     AST.locals := [decl "a" AST.IntType; decl "b" AST.IntType];
     AST.body :=
       AST.Stmts
         [AST.Assign (AST.Id "a") (AST.Num 2);
          AST.Assign (AST.Id "b") (AST.Num 3);
          AST.While (AST.BinOp AST.Lt (var "a") (AST.Num 7))
            (AST.Stmts [AST.Assign (AST.Id "a") (AST.BinOp AST.Add (var "a") (AST.Num 2))]);
          AST.Return
            (Some (AST.BinOp AST.Add (AST.BinOp AST.Add (var "a") (var "b"))
                     (AST.UnOp AST.Neg (Some (AST.Num 4)))))] |}.

Definition prog_literals : AST.Program := program_of [] [main_literals].

(** The lowerer in which the [FunctionDef] visitor lowers the body of the
    function named [fname]: the shell of [p] is built, the context is set
    to that function and its entry label is pushed. *)
Definition state_in (p : AST.Program) (fname : string) : Lowerer :=
  snd ((build_shell p;;
        set_context fname;;
        emit (TvLabel (fname +:+ "_entry"))) new_Lowerer).

(** The body the lowering gives to the function named [fname] of [p]. *)
Definition lowered_body (p : AST.Program) (fname : string) : gmap string LIR.BasicBlock :=
  match lower p with
  | inr (_, lir) =>
      match LIR.functions lir !! fname with
      | Some fn => LIR.body fn
      | None => ∅
      end
  | inl _ => ∅
  end.

Definition lowered_locals (p : AST.Program) (fname : string) : gmap string LIR.Ty :=
  match lower p with
  | inr (_, lir) =>
      match LIR.functions lir !! fname with
      | Some fn => LIR.locals fn
      | None => ∅
      end
  | inl _ => ∅
  end.

End Examples.

(** ** Constants in order of first use *)

(** The uses of the elements of a list that is visited from its last element
    to its first, respectively from its first to its last. *)
Definition uses_from_last {A} (uses : A → list Z) : list A → list Z :=
  fix go (l : list A) : list Z :=
    match l with
    | [] => []
    | a :: rest => go rest ++ uses a
    end.

Definition uses_from_first {A} (uses : A → list Z) : list A → list Z :=
  fix go (l : list A) : list Z :=
    match l with
    | [] => []
    | x :: rest => uses x ++ go rest
    end.

(** The integers [const_var] is called with while a node is lowered, in the
    order of the calls. *)
Fixpoint const_uses_Exp (e : AST.Exp) : list Z :=
  match e with
  | AST.Val place => const_uses_Place place
  | AST.Num value => [wrap_int value]
  | AST.NilExp => []
  | AST.Select guard tt_ ff_ =>
      const_uses_Exp guard ++ const_uses_Exp tt_ ++ const_uses_Exp ff_
  | AST.UnOp AST.Neg (Some (AST.Num value)) => [wrap_int (- wrap_int value)]
  | AST.UnOp AST.Neg (Some exp) => 0%Z :: const_uses_Exp exp
  | AST.UnOp AST.Neg None => [0%Z]
  | AST.UnOp AST.Not (Some exp) => const_uses_Exp exp ++ [0%Z]
  | AST.UnOp AST.Not None => [0%Z]
  | AST.BinOp op l r =>
      const_uses_Exp l ++ const_uses_Exp r ++
        match op with AST.And => [0%Z] | _ => [] end
  | AST.NewSingle _ => []
  | AST.NewArray _ size => const_uses_Exp size
  | AST.CallExp fun_call => const_uses_FunCall fun_call
  end
with const_uses_Place (p : AST.Place) : list Z :=
  match p with
  | AST.Id _ => []
  | AST.Deref exp => const_uses_Exp exp
  | AST.ArrayAccess array index => const_uses_Exp array ++ const_uses_Exp index
  | AST.FieldAccess ptr _ => const_uses_Exp ptr
  end
with const_uses_FunCall (fc : AST.FunCall) : list Z :=
  match fc with
  | AST.MkFunCall callee args =>
      uses_from_last const_uses_Exp args ++ const_uses_Exp callee
  end.

Fixpoint const_uses_Stmt (s : AST.Stmt) : list Z :=
  match s with
  | AST.Stmts statements =>
      uses_from_first const_uses_Stmt statements
  | AST.Assign place exp => const_uses_Place place ++ const_uses_Exp exp
  | AST.CallStmt fun_call => const_uses_FunCall fun_call
  | AST.If guard tt_ ff_ =>
      const_uses_Exp guard ++ const_uses_Stmt tt_ ++
        match ff_ with Some s => const_uses_Stmt s | None => [] end
  | AST.While guard body => const_uses_Exp guard ++ const_uses_Stmt body
  | AST.Break | AST.Continue => []
  | AST.Return (Some e) => const_uses_Exp e
  | AST.Return None => []
  end.

(** The constants that have a holder, in the order the holders were made:
    a use adds its integer at the end unless its name is already there. *)
Definition add_const (cs : list Z) (n : Z) : list Z :=
  if decide (const_name n ∈ const_name <$> cs) then cs else cs ++ [n].

Definition add_consts (cs : list Z) (uses : list Z) : list Z := foldl add_const cs uses.

Definition first_uses (uses : list Z) : list Z := add_consts [] uses.

Definition const_inst (n : Z) : LIR.Inst := LIR.Const (const_name n) n.

Definition is_const_inst (i : LIR.Inst) : bool :=
  match i with LIR.Const _ _ => true | _ => false end.

Definition is_const_item (item : TranslationItem) : bool :=
  match item with TvInst i => is_const_inst i | _ => false end.

(** Names of the form [_const_...]. *)
Definition is_const_name (x : string) : bool := String.prefix "_const_" x.

(** ** Computations that keep an invariant

    [advances m uses]: from a lowerer that satisfies the invariant for the
    constants [cs], the computation [m] either returns in a lowerer that
    satisfies it for [cs] extended by [uses], or throws an exception that
    satisfies [E]. *)
Definition advances (Inv : list Z → Lowerer → Prop) (E : Error → Prop)
    {A} (m : Lower A) (uses : list Z) : Prop :=
  ∀ cs st, Inv cs st →
    match m st with
    | (inr _, st') => Inv (add_consts cs uses) st'
    | (inl e, _) => E e
    end.

(** The trivial invariant, and the exceptions other than the one of the
    [Id] place visitor. *)
Definition any_state : list Z → Lowerer → Prop := λ _ _, True.
Definition not_id_error : Error → Prop := λ e, e ≠ IdLoweredAsPlace.

(** [m] never throws the exception of the [Id] place visitor. *)
Definition never_lowers_id {A} (m : Lower A) : Prop :=
  ∀ st, (m st).1 ≠ inl IdLoweredAsPlace.

(** ** Calls: the order of lowering *)

(** Lowering the expressions of a list one after the other, from the first
    to the last; the results are listed in that order. *)
Fixpoint lower_in_order (es : list AST.Exp) : Lower (list AST.Exp * list VarId) :=
  match es with
  | [] => mret ([], [])
  | e :: rest =>
      '(e', x) ← lower_exp e;
      '(rest', xs) ← lower_in_order rest;
      mret (e' :: rest', x :: xs)
  end.

(** The call visitors, told from right to left: the arguments are lowered
    from the last to the first, then the callee; the [Call] lists the
    results of the arguments in the order in which they were lowered. *)
Definition call_stmt_right_to_left (callee : AST.Exp) (args : list AST.Exp) : Lower AST.Stmt :=
  '(rev_args', xs) ← lower_in_order (rev args);
  '(callee', fun_) ← lower_exp callee;
  emit (TvInst (LIR.Call None fun_ xs));;
  mret (AST.CallStmt (AST.MkFunCall callee' (rev rev_args'))).

Definition call_exp_right_to_left (callee : AST.Exp) (args : list AST.Exp)
    : Lower (AST.Exp * VarId) :=
  '(rev_args', xs) ← lower_in_order (rev args);
  '(callee', fun_) ← lower_exp callee;
  fun_type ← typeof_var fun_;
  ret_type ← typeof_func_ret fun_type;
  lhs ← fresh_non_inner_var ret_type;
  emit (TvInst (LIR.Call (Some lhs) fun_ xs));;
  set_last_result_id lhs;;
  mret (AST.CallExp (AST.MkFunCall callee' (rev rev_args')), lhs).

(** ** The invariant of the constant holders

    While the function named [fname] is lowered, the translation vector is
    the entry label, then one [Const] per constant of [cs], in that order,
    then items none of which is a [Const]; [m_const_insert_pos] points just
    behind the last [Const]; and the locals named [_const_...] are exactly
    the holders of [cs], each of type [int]. *)
Definition const_invariant (fname : string) (cs : list Z) (st : Lowerer) : Prop :=
  ∃ fn rest,
    m_current_fun st = Some fname
    ∧ LIR.functions (m_lir_prog st) !! fname = Some fn
    ∧ m_tv st = TvLabel (fname +:+ "_entry") :: ((TvInst ∘ const_inst) <$> cs) ++ rest
    ∧ m_const_insert_pos st = S (length cs)
    ∧ Forall (λ item, is_const_item item = false) rest
    ∧ NoDup (const_name <$> cs)
    ∧ (∀ x : string, is_const_name x = true →
         (is_Some (LIR.locals fn !! x) ↔ x ∈ const_name <$> cs))
    ∧ (∀ n, n ∈ cs → LIR.locals fn !! const_name n = Some LIR.IntType).

Definition any_error : Error → Prop := λ _, True.

(** The exceptions other than that of an insertion past the end of the
    translation vector. *)
Definition not_past_end : Error → Prop := λ e, e ≠ invalid_iterator.

(** ** What lowering leaves alone

    Compared with the program [prog0], in which the function named [f] is
    [fn0], the lowerer's program differs at most in the locals of [f], and
    there only by names that were added or given a new type. *)
Definition only_locals_changed (f : string) (prog0 : LIR.Program) (fn0 : LIR.Function)
    (st : Lowerer) : Prop :=
  m_current_fun st = Some f
  ∧ ∃ L : gmap string LIR.Ty,
      dom (LIR.locals fn0) ⊆ dom L
      ∧ m_lir_prog st = LIR.with_functions <[f := LIR.with_locals (λ _, L) fn0]> prog0.

(** ** The block map that [build_cfg] computes

    [build_cfg] writes only the body of the current function.  [scan_body]
    is that computation on the body alone: [entry] is the label
    [m_current_fun->name + "_entry"], and [None] stands for the
    [std::out_of_range] of [body.at(entry)]. *)
Definition scan_step (entry : string) (body : gmap string LIR.BasicBlock)
    (current_bb : option string) (item : TranslationItem)
    : option (gmap string LIR.BasicBlock * option string) :=
  match item with
  | TvLabel name => Some (alter (set_label name) name (get_or_create name body), Some name)
  | TvInst i =>
      match current_bb with
      | Some bb => Some (alter (push_inst i) bb body, Some bb)
      | None =>
          match body !! entry with
          | Some _ => Some (alter (push_inst i) entry body, Some entry)
          | None => None
          end
      end
  | TvTerminal t =>
      match current_bb with
      | None => Some (body, None)
      | Some bb => Some (alter (set_term t) bb body, None)
      end
  end.

Fixpoint scan_body (entry : string) (tv : list TranslationItem)
    (body : gmap string LIR.BasicBlock) (current_bb : option string)
    : option (gmap string LIR.BasicBlock) :=
  match tv with
  | [] => Some body
  | item :: rest =>
      match scan_step entry body current_bb item with
      | Some (body', current_bb') => scan_body entry rest body' current_bb'
      | None => None
      end
  end.

(** The lowerer with the body of [fn], its function named [f], replaced. *)
Definition set_body (f : string) (fn : LIR.Function) (body : gmap string LIR.BasicBlock)
    (st : Lowerer) : Lowerer :=
  with_lir_prog (LIR.with_functions <[f := LIR.with_body (λ _, body) fn]>) st.

Definition no_const (insts : list LIR.Inst) : Prop :=
  Forall (λ i, is_const_inst i = false) insts.

(** The entry block starts with the [Const]s of [cs], in order, and holds
    no other [Const]; no other block holds any. *)
Definition consts_lead_entry (entry : string) (cs : list Z)
    (body : gmap string LIR.BasicBlock) : Prop :=
  (∃ bb others,
     body !! entry = Some bb
     ∧ LIR.insts bb = (const_inst <$> cs) ++ others
     ∧ no_const others)
  ∧ (∀ (l : string) bb, l ≠ entry → body !! l = Some bb → no_const (LIR.insts bb)).

(** ** A translation vector made of whole blocks

    The items a block stands for: its label, its instructions, its
    terminal; and the block map that holds each block under its label. *)
Definition flatten_block (bb : LIR.BasicBlock) : list TranslationItem :=
  TvLabel (LIR.label bb) :: (TvInst <$> LIR.insts bb) ++ [TvTerminal (LIR.term bb)].

Definition flatten (blocks : list LIR.BasicBlock) : list TranslationItem :=
  concat (flatten_block <$> blocks).

Definition blocks_map (blocks : list LIR.BasicBlock) : gmap string LIR.BasicBlock :=
  list_to_map ((λ bb, (LIR.label bb, bb)) <$> blocks).

(** The labels that occur in a translation vector. *)
Definition labels_of (tv : list TranslationItem) : list string :=
  omap (λ item, match item with TvLabel l => Some l | _ => None end) tv.

(** ** Where the constants are inserted

    The translation vector starts with the label [e], and the position at
    which the next [Const] is inserted lies behind that label, not before
    [p0], and within the vector. *)
Definition insert_pos_in_range (e : string) (p0 : nat) (st : Lowerer) : Prop :=
  (∃ rest, m_tv st = TvLabel e :: rest)
  ∧ 1 ≤ p0 ∧ p0 ≤ m_const_insert_pos st ≤ length (m_tv st).

(** ** What the program shell holds *)

Definition struct_of (s : AST.StructDef) : LIR.Struct :=
  {| LIR.struct_name := AST.struct_name s;
     LIR.fields := foldl add_decl ∅ (AST.fields s) |}.

Definition extern_type (x : AST.Extern) : LIR.Ty :=
  LIR.FnType (map convert_type (AST.param_types x)) (convert_type (AST.extern_rettype x)).

(** [x] is the last element of [l] that has its name: [std::map] assignment
    keeps the last one. *)
Definition last_of {A} (key : A → string) (x : A) (l : list A) : Prop :=
  ∃ l1 l2, l = l1 ++ x :: l2 ∧ key x ∉ key <$> l2.

(** ** What lowering the bodies keeps of the shell

    A function keeps its name, parameters and return type, and none of its
    locals or blocks disappears; a program keeps its structs, externs and
    function pointers, has the same functions, and each of them is kept in
    that sense. *)
Definition same_signature (fn fn' : LIR.Function) : Prop :=
  LIR.name fn' = LIR.name fn
  ∧ LIR.params fn' = LIR.params fn
  ∧ LIR.rettyp fn' = LIR.rettyp fn
  ∧ dom (LIR.locals fn) ⊆ dom (LIR.locals fn')
  ∧ dom (LIR.body fn) ⊆ dom (LIR.body fn').

Definition keeps_shell (prog prog' : LIR.Program) : Prop :=
  LIR.structs prog' = LIR.structs prog
  ∧ LIR.externs prog' = LIR.externs prog
  ∧ LIR.funptrs prog' = LIR.funptrs prog
  ∧ ∀ k : string,
      match LIR.functions prog !! k, LIR.functions prog' !! k with
      | Some fn, Some fn' => same_signature fn fn'
      | None, None => True
      | _, _ => False
      end.

(** Every block of every function is stored under its own label. *)
Definition well_labelled (prog : LIR.Program) : Prop :=
  ∀ (k : string) fn (l : string) bb,
    LIR.functions prog !! k = Some fn → LIR.body fn !! l = Some bb → LIR.label bb = l.

(** ** Loops, [break] and [continue]

    The two loop stacks hold [hdrs] and [ends]. *)
Definition stacks_are (hdrs ends : list BbId) (st : Lowerer) : Prop :=
  m_loop_hdr_stack st = hdrs ∧ m_loop_end_stack st = ends.

(** No [break] or [continue] of the statement lies outside every loop of
    the statement. *)
Fixpoint no_stray_jump (s : AST.Stmt) : bool :=
  match s with
  | AST.Stmts statements => forallb no_stray_jump statements
  | AST.If _ tt_ ff_ =>
      no_stray_jump tt_ && match ff_ with Some s => no_stray_jump s | None => true end
  | AST.While _ _ => true
  | AST.Break | AST.Continue => false
  | _ => true
  end.

(** ** The AST that comes back

    [returns m P]: whenever [m] returns, what it returns satisfies [P]. *)
Definition returns {A} (m : Lower A) (P : A → Prop) : Prop :=
  ∀ st, match m st with (inr a, _) => P a | (inl _, _) => True end.

(** The node holds no logical negation [UnOp Not]. *)
Fixpoint no_Not_Exp (e : AST.Exp) : bool :=
  match e with
  | AST.Val place => no_Not_Place place
  | AST.Num _ | AST.NilExp | AST.NewSingle _ => true
  | AST.Select guard tt_ ff_ => no_Not_Exp guard && no_Not_Exp tt_ && no_Not_Exp ff_
  | AST.UnOp AST.Not _ => false
  | AST.UnOp AST.Neg (Some exp) => no_Not_Exp exp
  | AST.UnOp AST.Neg None => true
  | AST.BinOp _ l r => no_Not_Exp l && no_Not_Exp r
  | AST.NewArray _ size => no_Not_Exp size
  | AST.CallExp fun_call => no_Not_FunCall fun_call
  end
with no_Not_Place (p : AST.Place) : bool :=
  match p with
  | AST.Id _ => true
  | AST.Deref exp => no_Not_Exp exp
  | AST.ArrayAccess array index => no_Not_Exp array && no_Not_Exp index
  | AST.FieldAccess ptr _ => no_Not_Exp ptr
  end
with no_Not_FunCall (fc : AST.FunCall) : bool :=
  match fc with
  | AST.MkFunCall callee args => no_Not_Exp callee && forallb no_Not_Exp args
  end.

Fixpoint no_Not_Stmt (s : AST.Stmt) : bool :=
  match s with
  | AST.Stmts statements => forallb no_Not_Stmt statements
  | AST.Assign place exp => no_Not_Place place && no_Not_Exp exp
  | AST.CallStmt fun_call => no_Not_FunCall fun_call
  | AST.If guard tt_ ff_ =>
      no_Not_Exp guard && no_Not_Stmt tt_
      && match ff_ with Some s => no_Not_Stmt s | None => true end
  | AST.While guard body => no_Not_Exp guard && no_Not_Stmt body
  | AST.Break | AST.Continue => true
  | AST.Return exp => match exp with Some e => no_Not_Exp e | None => true end
  end.

Definition no_Not_Program (p : AST.Program) : bool :=
  forallb (λ f, no_Not_Stmt (AST.body f)) (AST.functions p).

(** ** What has been emitted

    The items of a translation vector that are not [Const] instructions:
    these are pushed at the back and never moved. *)
Definition emitted (tv : list TranslationItem) : list TranslationItem :=
  filter (λ item, is_const_item item = false) tv.

Definition keeps_emitted (base : list TranslationItem) (st : Lowerer) : Prop :=
  ∃ new, emitted (m_tv st) = base ++ new.

(** ** Names the lowerer mints

    [_tmp...], [_inner...] and [_const_...] are the names of temporaries and
    constant holders; [keeps_declared L0 st] says that the locals of the
    current function agree with [L0] on every other name. *)
Definition is_minted_name (x : string) : bool :=
  String.prefix "_tmp" x || String.prefix "_inner" x || String.prefix "_const_" x.

Definition keeps_declared (L0 : gmap string LIR.Ty) (st : Lowerer) : Prop :=
  ∀ x : string, is_minted_name x = false → current_locals st !! x = L0 !! x.

(** The declared locals, the function pointers and the externs are as
    given. *)
Definition keeps_names (L0 fp ex : gmap string LIR.Ty) (st : Lowerer) : Prop :=
  keeps_declared L0 st
  ∧ LIR.funptrs (m_lir_prog st) = fp ∧ LIR.externs (m_lir_prog st) = ex.

(** ** The labels a lowering mints

    [new_label prefix] returns [prefix] followed by the label counter.  A
    label is described by its prefix and the counter value it was minted
    at. *)
Definition render (pk : string * Z) : string := pk.1 +:+ to_string pk.2.

Definition label_prefixes : list string :=
  ["if_true"; "if_false"; "if_end"; "loop_hdr"; "loop_body"; "loop_end";
   "and_true"; "and_false"; "and_end"; "or_false"; "or_end"].

(** The number of labels that lowering a node mints. *)
Definition count_from {A} (count : A → nat) : list A → nat :=
  fix go (l : list A) : nat :=
    match l with
    | [] => 0
    | a :: rest => count a + go rest
    end.

Fixpoint label_count_Exp (e : AST.Exp) : nat :=
  match e with
  | AST.Val place => label_count_Place place
  | AST.Num _ | AST.NilExp | AST.NewSingle _ => 0
  | AST.Select guard tt_ ff_ =>
      3 + label_count_Exp guard + label_count_Exp tt_ + label_count_Exp ff_
  | AST.UnOp _ (Some exp) => label_count_Exp exp
  | AST.UnOp _ None => 0
  | AST.BinOp op l r =>
      match op with AST.And => 3 | AST.Or => 2 | _ => 0 end
      + label_count_Exp l + label_count_Exp r
  | AST.NewArray _ size => label_count_Exp size
  | AST.CallExp fun_call => label_count_FunCall fun_call
  end
with label_count_Place (p : AST.Place) : nat :=
  match p with
  | AST.Id _ => 0
  | AST.Deref exp => label_count_Exp exp
  | AST.ArrayAccess array index => label_count_Exp array + label_count_Exp index
  | AST.FieldAccess ptr _ => label_count_Exp ptr
  end
with label_count_FunCall (fc : AST.FunCall) : nat :=
  match fc with
  | AST.MkFunCall callee args =>
      count_from label_count_Exp args + label_count_Exp callee
  end.

Fixpoint label_count_Stmt (s : AST.Stmt) : nat :=
  match s with
  | AST.Stmts statements => count_from label_count_Stmt statements
  | AST.Assign place exp => label_count_Place place + label_count_Exp exp
  | AST.CallStmt fun_call => label_count_FunCall fun_call
  | AST.If guard tt_ ff_ =>
      3 + label_count_Exp guard + label_count_Stmt tt_
      + match ff_ with Some s => label_count_Stmt s | None => 0 end
  | AST.While guard body => 3 + label_count_Exp guard + label_count_Stmt body
  | AST.Break | AST.Continue => 0
  | AST.Return exp => match exp with Some e => label_count_Exp e | None => 0 end
  end.

(** The labels that lowering a node pushes, in the order of the pushes, when
    the label counter is [c] at the start.  The arguments of a call are
    lowered from the last to the first; statements from the first to the
    last. *)
Definition keys_from_last {A} (count : A → nat) (keys : A → Z → list (string * Z))
    : list A → Z → list (string * Z) :=
  fix go (l : list A) (c : Z) : list (string * Z) :=
    match l with
    | [] => []
    | a :: rest => go rest c ++ keys a (c + Z.of_nat (count_from count rest))%Z
    end.

Definition keys_from_first {A} (count : A → nat) (keys : A → Z → list (string * Z))
    : list A → Z → list (string * Z) :=
  fix go (l : list A) (c : Z) : list (string * Z) :=
    match l with
    | [] => []
    | a :: rest => keys a c ++ go rest (c + Z.of_nat (count a))%Z
    end.

Fixpoint label_keys_Exp (e : AST.Exp) (c : Z) : list (string * Z) :=
  match e with
  | AST.Val place => label_keys_Place place c
  | AST.Num _ | AST.NilExp | AST.NewSingle _ => []
  | AST.Select guard tt_ ff_ =>
      label_keys_Exp guard (c + 3)
      ++ [("if_true", c)]
      ++ label_keys_Exp tt_ (c + 3 + Z.of_nat (label_count_Exp guard))
      ++ [("if_false", c + 1)]
      ++ label_keys_Exp ff_ (c + 3 + Z.of_nat (label_count_Exp guard) + Z.of_nat (label_count_Exp tt_))
      ++ [("if_end", c + 2)]
  | AST.UnOp _ (Some exp) => label_keys_Exp exp c
  | AST.UnOp _ None => []
  | AST.BinOp op l r =>
      match op with
      | AST.And =>
          label_keys_Exp l (c + 3)
          ++ [("and_true", c)]
          ++ label_keys_Exp r (c + 3 + Z.of_nat (label_count_Exp l))
          ++ [("and_false", c + 1); ("and_end", c + 2)]
      | AST.Or =>
          label_keys_Exp l (c + 2)
          ++ [("or_false", c)]
          ++ label_keys_Exp r (c + 2 + Z.of_nat (label_count_Exp l))
          ++ [("or_end", c + 1)]
      | _ => label_keys_Exp l c ++ label_keys_Exp r (c + Z.of_nat (label_count_Exp l))
      end
  | AST.NewArray _ size => label_keys_Exp size c
  | AST.CallExp fun_call => label_keys_FunCall fun_call c
  end%Z
with label_keys_Place (p : AST.Place) (c : Z) : list (string * Z) :=
  match p with
  | AST.Id _ => []
  | AST.Deref exp => label_keys_Exp exp c
  | AST.ArrayAccess array index =>
      label_keys_Exp array c ++ label_keys_Exp index (c + Z.of_nat (label_count_Exp array))
  | AST.FieldAccess ptr _ => label_keys_Exp ptr c
  end%Z
with label_keys_FunCall (fc : AST.FunCall) (c : Z) : list (string * Z) :=
  match fc with
  | AST.MkFunCall callee args =>
      keys_from_last label_count_Exp label_keys_Exp args c
      ++ label_keys_Exp callee (c + Z.of_nat (count_from label_count_Exp args))
  end%Z.

Fixpoint label_keys_Stmt (s : AST.Stmt) (c : Z) : list (string * Z) :=
  match s with
  | AST.Stmts statements =>
      keys_from_first label_count_Stmt label_keys_Stmt statements c
  | AST.Assign place exp =>
      label_keys_Place place c ++ label_keys_Exp exp (c + Z.of_nat (label_count_Place place))
  | AST.CallStmt fun_call => label_keys_FunCall fun_call c
  | AST.If guard tt_ ff_ =>
      label_keys_Exp guard (c + 3)
      ++ [("if_true", c)]
      ++ label_keys_Stmt tt_ (c + 3 + Z.of_nat (label_count_Exp guard))
      ++ [("if_false", c + 1)]
      ++ match ff_ with
         | Some s => label_keys_Stmt s (c + 3 + Z.of_nat (label_count_Exp guard) + Z.of_nat (label_count_Stmt tt_))
         | None => []
         end
      ++ [("if_end", c + 2)]
  | AST.While guard body =>
      [("loop_hdr", c)]
      ++ label_keys_Exp guard (c + 3)
      ++ [("loop_body", c + 1)]
      ++ label_keys_Stmt body (c + 3 + Z.of_nat (label_count_Exp guard))
      ++ [("loop_end", c + 2)]
  | AST.Break | AST.Continue => []
  | AST.Return exp => match exp with Some e => label_keys_Exp e c | None => [] end
  end%Z.

(** [labels_advance c m n ks]: run with the label counter at [c], with room
    for [n] more labels, [m] either throws or returns with the counter at
    [c + n] and with the labels of [ks] pushed, in this order, behind the
    labels the translation vector had. *)
Definition labels_advance (c : Z) {A} (m : Lower A) (n : nat) (ks : list (string * Z))
    : Prop :=
  ∀ st, m_label_counter st = c → (0 ≤ c)%Z → (c + Z.of_nat n ≤ INT_MAX)%Z →
    match m st with
    | (inr _, st') =>
        m_label_counter st' = (c + Z.of_nat n)%Z
        ∧ labels_of (m_tv st') = labels_of (m_tv st) ++ (render <$> ks)
    | (inl _, _) => True
    end.

(** The keys of [ks] are pairwise different counter values that satisfy
    [P], with prefixes that [new_label] is called with; [fresh_keys] has
    them between [lo] and [hi]. *)
Definition fresh_in (P : Z → Prop) (ks : list (string * Z)) : Prop :=
  NoDup (snd <$> ks)
  ∧ ∀ pk, pk ∈ ks → P pk.2 ∧ pk.1 ∈ label_prefixes.

Definition fresh_keys (lo hi : Z) (ks : list (string * Z)) : Prop :=
  fresh_in (λ k, lo ≤ k < hi)%Z ks.

Fixpoint last_char (s : string) : option ascii :=
  match s with
  | EmptyString => None
  | String c EmptyString => Some c
  | String _ rest => last_char rest
  end.

(** * Properties *)

(** ** Running computations *)

Lemma run_bind {A B} (m : Lower A) (k : A → Lower B) (st : Lowerer) :
  (m ≫= k) st =
    match m st with
    | (inr a, st') => k a st'
    | (inl e, st') => (inl e, st')
    end.
Proof. reflexivity. Qed.

Lemma run_ret {A} (a : A) (st : Lowerer) : (mret a : Lower A) st = (inr a, st).
Proof. reflexivity. Qed.

Lemma run_bind_ok {A B} (m : Lower A) (k : A → Lower B) st a st' :
  m st = (inr a, st') → (m ≫= k) st = k a st'.
Proof. intros H. rewrite run_bind, H. reflexivity. Qed.

Lemma run_bind_err {A B} (m : Lower A) (k : A → Lower B) st e st' :
  m st = (inl e, st') → (m ≫= k) st = (inl e, st').
Proof. intros H. rewrite run_bind, H. reflexivity. Qed.

Lemma run_emit item st : emit item st = (inr (), with_tv (λ tv, tv ++ [item]) st).
Proof. reflexivity. Qed.

(** ** Break and Continue *)

(** The top of a loop stack is its last element; it is missing exactly when
    the stack is empty. *)
Lemma last_None_empty {A} (v : list A) : last v = None ↔ v = [].
Proof.
  destruct v as [|x v] using rev_ind; [done|].
  rewrite last_snoc. split; [done|]. by destruct v.
Qed.

(** C6.  A [Break] appends exactly one [Jump] to the label on top of the
    loop-end stack and changes nothing else; on an empty stack it throws the
    break-outside-loop error and leaves the lowerer, its translation vector
    included, as it was.  [Continue] does the same with the loop-header
    stack and the continue-outside-loop error. *)
Theorem break_continue_jump_to_top (st : Lowerer) :
  lower_stmt AST.Break st =
    match last (m_loop_end_stack st) with
    | Some LOOP_END =>
        (inr AST.Break, with_tv (λ tv, tv ++ [TvTerminal (LIR.Jump LOOP_END)]) st)
    | None => (inl BreakOutsideLoop, st)
    end
  ∧ lower_stmt AST.Continue st =
    match last (m_loop_hdr_stack st) with
    | Some LOOP_HDR =>
        (inr AST.Continue, with_tv (λ tv, tv ++ [TvTerminal (LIR.Jump LOOP_HDR)]) st)
    | None => (inl ContinueOutsideLoop, st)
    end
  ∧ (last (m_loop_end_stack st) = None ↔ m_loop_end_stack st = [])
  ∧ (last (m_loop_hdr_stack st) = None ↔ m_loop_hdr_stack st = []).
Proof.
  split; [|split; [|split; apply last_None_empty]].
  - unfold lower_stmt; simpl. rewrite run_bind; simpl.
    destruct (last (m_loop_end_stack st)); reflexivity.
  - unfold lower_stmt; simpl. rewrite run_bind; simpl.
    destruct (last (m_loop_hdr_stack st)); reflexivity.
Qed.

(** ** Type lookup *)

(** C3, as the code has it.  [typeof_var] never throws and never changes the
    lowerer.  It answers from the current function's locals, else from the
    program's funptrs, else from its externs; a name found in none of them
    has type [Nil] when it is [__NULL] and type [Int] otherwise. *)
Theorem typeof_var_lookup_order (id : VarId) (st : Lowerer) :
  ∃ t, typeof_var id st = (inr t, st)
    ∧ (∀ tl, current_locals st !! id = Some tl → t = tl)
    ∧ (current_locals st !! id = None →
       ∀ tf, LIR.funptrs (m_lir_prog st) !! id = Some tf → t = tf)
    ∧ (current_locals st !! id = None →
       LIR.funptrs (m_lir_prog st) !! id = None →
       ∀ te, LIR.externs (m_lir_prog st) !! id = Some te → t = te)
    ∧ (current_locals st !! id = None →
       LIR.funptrs (m_lir_prog st) !! id = None →
       LIR.externs (m_lir_prog st) !! id = None →
       (id = "__NULL" → t = LIR.NilType) ∧ (id ≠ "__NULL" → t = LIR.IntType)).
Proof.
  exists (typeof st id). split; [reflexivity|].
  unfold typeof, current_locals.
  destruct (current_fun st) as [fn|]; simpl.
  - destruct (LIR.locals fn !! id) as [tl|] eqn:Hl;
      [repeat split; intros; simplify_eq; done|].
    destruct (LIR.funptrs (m_lir_prog st) !! id) as [tf|] eqn:Hf;
      [repeat split; intros; simplify_eq; done|].
    destruct (LIR.externs (m_lir_prog st) !! id) as [te|] eqn:He;
      [repeat split; intros; simplify_eq; done|].
    repeat split; intros; simplify_eq; try done; by case_decide.
  - rewrite lookup_empty.
    destruct (LIR.funptrs (m_lir_prog st) !! id) as [tf|] eqn:Hf;
      [repeat split; intros; simplify_eq; done|].
    destruct (LIR.externs (m_lir_prog st) !! id) as [te|] eqn:He;
      [repeat split; intros; simplify_eq; done|].
    repeat split; intros; simplify_eq; try done; by case_decide.
Qed.

(** C3, as the specification has it, fails: an identifier that is in no
    table and is not [__NULL] gets the type [Int]; nothing is thrown. *)
Lemma typeof_var_unknown_is_int :
  current_locals new_Lowerer !! "nosuch" = None
  ∧ LIR.funptrs (m_lir_prog new_Lowerer) !! "nosuch" = None
  ∧ LIR.externs (m_lir_prog new_Lowerer) !! "nosuch" = None
  ∧ "nosuch" ≠ "__NULL"
  ∧ typeof_var "nosuch" new_Lowerer = (inr LIR.IntType, new_Lowerer)
  ∧ typeof_var "nosuch" new_Lowerer ≠ (inl (UnknownIdentifier "nosuch"), new_Lowerer).
Proof. repeat split; done. Qed.

(** ** The implicit return *)

Lemma has_ret_ends_with_ret tv : has_ret tv = ends_with_ret tv.
Proof.
  unfold has_ret, ends_with_ret.
  induction tv as [|item tv IH] using rev_ind; [done|].
  rewrite rev_unit, filter_app. simpl.
  destruct item as [l|i|t]; simpl.
  - rewrite filter_cons_False, filter_nil, app_nil_r by done. exact IH.
  - rewrite filter_cons_True, filter_nil, last_snoc by done. done.
  - rewrite filter_cons_True, filter_nil, last_snoc by done. by destruct t.
Qed.

Lemma ends_with_ret_contains tv : ends_with_ret tv = true → contains_ret tv = true.
Proof.
  unfold ends_with_ret, contains_ret. intros H.
  destruct (last _) as [[| |[]]|] eqn:Hlast; try done.
  apply last_Some_elem_of, list_elem_of_filter in Hlast as [_ Hin].
  apply existsb_exists. exists (TvTerminal (LIR.Ret val)).
  split; [by apply list_elem_of_In|done].
Qed.

(** C5, as the code has it.  At the end of function lowering [Ret(none)] is
    appended exactly when the last item of the translation vector that is
    not a label is not a [Ret]; in particular it is appended whenever the
    vector holds no [Ret] at all, and nothing else is changed. *)
Theorem implicit_return_iff_not_ending_in_ret (st : Lowerer) :
  add_implicit_return st =
    (inr (), if ends_with_ret (m_tv st) then st
             else with_tv (λ tv, tv ++ [TvTerminal (LIR.Ret None)]) st)
  ∧ (contains_ret (m_tv st) = false → ends_with_ret (m_tv st) = false).
Proof.
  split.
  - unfold add_implicit_return. rewrite run_bind; simpl.
    rewrite has_ret_ends_with_ret. by destruct (ends_with_ret _).
  - intros H. destruct (ends_with_ret _) eqn:E; [|done].
    apply ends_with_ret_contains in E. congruence.
Qed.

(** C5, as the specification has it, fails: lowering
    [if (c) { return 1; } else { return 2; }] leaves a translation vector
    that holds two [Ret]s and ends in [Jump], [Label]; [Ret(none)] is
    appended all the same. *)
Lemma implicit_return_despite_ret :
  contains_ret
    (m_tv (before_implicit_return Examples.prog_if_else_return
             Examples.main_if_else_return)) = true
  ∧ m_tv (snd (add_implicit_return
                 (before_implicit_return Examples.prog_if_else_return
                    Examples.main_if_else_return)))
    = m_tv (before_implicit_return Examples.prog_if_else_return
              Examples.main_if_else_return)
        ++ [TvTerminal (LIR.Ret None)].
Proof. split; vm_compute; reflexivity. Qed.

(** ** The program shell *)

Lemma for_each_modify {A} (g : A → Lowerer → Lowerer) (f : A → Lower unit) l st :
  (∀ x st, f x st = (inr (), g x st)) →
  for_each f l st = (inr (), foldl (λ st x, g x st) st l).
Proof.
  intros Hf. revert st. induction l as [|x l IH]; intros st; [done|].
  simpl. rewrite run_bind, Hf. apply IH.
Qed.

Lemma add_function_shell_total f st : add_function_shell f st = (inr (), shell_step f st).
Proof.
  unfold shell_step, add_function_shell. rewrite !run_bind. simpl.
  by case_decide.
Qed.

Lemma shell_step_funptrs f st :
  LIR.funptrs (m_lir_prog (shell_step f st)) = add_funptr (LIR.funptrs (m_lir_prog st)) f.
Proof.
  unfold shell_step, add_function_shell, add_funptr. rewrite run_bind. simpl.
  repeat case_decide; done.
Qed.

Lemma foldl_step_funptrs fs st :
  LIR.funptrs (m_lir_prog (foldl (λ st f, shell_step f st) st fs))
  = foldl add_funptr (LIR.funptrs (m_lir_prog st)) fs.
Proof.
  revert st. induction fs as [|f fs IH]; intros st; [done|].
  simpl. rewrite IH, shell_step_funptrs. done.
Qed.

Lemma foldl_modify_funptrs {A} (g : A → Lowerer → Lowerer) l st :
  (∀ x st, LIR.funptrs (m_lir_prog (g x st)) = LIR.funptrs (m_lir_prog st)) →
  LIR.funptrs (m_lir_prog (foldl (λ st x, g x st) st l)) = LIR.funptrs (m_lir_prog st).
Proof.
  intros Hg. revert st. induction l as [|x l IH]; intros st; [done|].
  simpl. rewrite IH. apply Hg.
Qed.

Lemma add_funptr_main fs m : foldl add_funptr m fs !! "main" = m !! "main".
Proof.
  revert m. induction fs as [|f fs IH]; intros m; [done|].
  simpl. rewrite IH. unfold add_funptr. case_decide; [|done].
  by rewrite lookup_insert_ne.
Qed.

Lemma add_funptr_other fs m k :
  k ∉ map AST.name fs → foldl add_funptr m fs !! k = m !! k.
Proof.
  revert m. induction fs as [|f fs IH]; intros m Hk; [done|].
  simpl in *. apply not_elem_of_cons in Hk as [Hne Hk].
  rewrite IH by done. unfold add_funptr. case_decide; [|done].
  by rewrite lookup_insert_ne.
Qed.

Lemma add_funptr_dom fs m k :
  is_Some (foldl add_funptr m fs !! k) →
  is_Some (m !! k) ∨ (k ≠ "main" ∧ k ∈ map AST.name fs).
Proof.
  revert m. induction fs as [|f fs IH]; intros m Hk; [by left|].
  simpl in *. apply IH in Hk as [Hk|[? ?]]; [|right; split; [done|by right]].
  unfold add_funptr in Hk. case_decide; [|by left].
  destruct (decide (AST.name f = k)) as [<-|Hne].
  - right. split; [done|by left].
  - rewrite lookup_insert_ne in Hk by done. by left.
Qed.

Lemma build_shell_total p st : ∃ st', build_shell p st = (inr (), st').
Proof.
  unfold build_shell.
  rewrite run_bind, (for_each_modify (λ n, snd ∘ visit_StructDef n)) by done.
  rewrite run_bind, (for_each_modify (λ n, snd ∘ add_extern n)) by done.
  rewrite (for_each_modify shell_step) by apply add_function_shell_total.
  eauto.
Qed.

Lemma build_shell_funptrs p :
  build_shell p new_Lowerer
  = (inr (), snd (build_shell p new_Lowerer))
  ∧ LIR.funptrs (m_lir_prog (snd (build_shell p new_Lowerer)))
    = foldl add_funptr ∅ (AST.functions p).
Proof.
  unfold build_shell.
  rewrite run_bind, (for_each_modify (λ n, snd ∘ visit_StructDef n)) by done.
  rewrite run_bind, (for_each_modify (λ n, snd ∘ add_extern n)) by done.
  rewrite (for_each_modify shell_step) by apply add_function_shell_total.
  split; [done|]. simpl.
  rewrite foldl_step_funptrs, !foldl_modify_funptrs by done.
  done.
Qed.

(** C8.  Building the shell of any program succeeds.  Afterwards [funptrs]
    has no entry for [main]; under the name of every other function it holds
    [Ptr(Fn(param_types, ret_type))], where [param_types] are the converted
    types of the parameters the function declares, in their order, and
    [ret_type] is its converted return type (those of the last function of
    that name, should the program repeat a name); and it has no other
    entries. *)
Theorem funptrs_after_shell (p : AST.Program) :
  let st := snd (build_shell p new_Lowerer) in
  fst (build_shell p new_Lowerer) = inr ()
  ∧ LIR.funptrs (m_lir_prog st) !! "main" = None
  ∧ (∀ fs1 f fs2,
       AST.functions p = fs1 ++ f :: fs2 →
       AST.name f ∉ map AST.name fs2 →
       AST.name f ≠ "main" →
       LIR.funptrs (m_lir_prog st) !! AST.name f
       = Some (LIR.PtrType
                 (LIR.FnType
                    (map (λ d, convert_type (AST.decl_type d)) (AST.params f))
                    (convert_type (AST.rettype f)))))
  ∧ (∀ k, is_Some (LIR.funptrs (m_lir_prog st) !! k) →
       k ≠ "main" ∧ k ∈ map AST.name (AST.functions p)).
Proof.
  destruct (build_shell_funptrs p) as [Hrun Hfp]. simpl.
  rewrite Hfp. split; [by rewrite Hrun|]. split; [|split].
  - by rewrite add_funptr_main.
  - intros fs1 f fs2 -> Hlast Hmain.
    rewrite foldl_app. simpl. rewrite add_funptr_other by done.
    unfold add_funptr. rewrite decide_True by done.
    fold (funptr_type f). apply lookup_insert_eq.
  - intros k Hk. apply add_funptr_dom in Hk as [Hk|Hk]; [|done].
    rewrite lookup_empty in Hk. by destruct Hk.
Qed.

(** ** Unreachable blocks *)

(** C2 on a concrete program.  For
    [fn main() -> int { if (c) { return 1; } else { return 2; } }] the
    emitted body keeps the block [if_end2], which no [Jump] or [Branch]
    reachable from [main_entry] targets: [build_cfg] ends after its scan and
    deletes nothing. *)
Theorem unreachable_block_is_kept :
  is_Some (Examples.lowered_body Examples.prog_if_else_return "main" !! "if_end2")
  ∧ ¬ reachable (Examples.lowered_body Examples.prog_if_else_return "main")
        "main_entry" "if_end2".
Proof.
  split; [vm_compute; eauto|].
  assert (∀ l, reachable (Examples.lowered_body Examples.prog_if_else_return "main")
                 "main_entry" l →
               l ∈ ["main_entry"; "if_true0"; "if_false1"]) as Hinv.
  { induction 1 as [|l bb l' _ IH Hbb Hsucc]; [by left|].
    repeat (apply elem_of_cons in IH as [->|IH]);
      try (vm_compute in Hbb; injection Hbb as <-; simpl in Hsucc;
           repeat (apply elem_of_cons in Hsucc as [->|Hsucc]);
           solve [repeat constructor | inversion Hsucc]).
    inversion IH. }
  intros Hr. apply Hinv in Hr.
  repeat (apply elem_of_cons in Hr as [Hr|Hr]; [discriminate Hr|]).
  inversion Hr.
Qed.

(** ** Field access *)

(** C4 on the specification's own scenario, [s.f = 5] with [s : &S] and
    [S.f : int].  The place visitor mints two inner temporaries, [_inner0]
    of the type of [s] and [_inner1] of type [&int], and the [Gfp] it emits
    carries [_inner0], not the struct name [S], as its struct operand. *)
Theorem field_access_mints_two_inner_temporaries :
  Examples.lowered_body Examples.prog_field_store "main" !! "main_entry"
  = Some {| LIR.label := "main_entry";
            LIR.insts := [LIR.Const "_const_5" 5; LIR.Const "_const_0" 0;
                          LIR.Gfp "_inner1" "s" "_inner0" "f";
                          LIR.Store "_inner1" "_const_5"];
            LIR.term := LIR.Ret (Some "_const_0") |}
  ∧ Examples.lowered_locals Examples.prog_field_store "main" !! "_inner0"
    = Some (LIR.PtrType (LIR.StructType "S"))
  ∧ Examples.lowered_locals Examples.prog_field_store "main" !! "_inner1"
    = Some (LIR.PtrType LIR.IntType)
  ∧ (let st := Examples.state_in Examples.prog_field_store "main" in
     let r := lower_place (AST.FieldAccess (Examples.var "s") "f") st in
     r.1 = inr (AST.FieldAccess (Examples.var "s") "f", "_inner1")
     ∧ m_tv r.2 = m_tv st ++ [TvInst (LIR.Gfp "_inner1" "s" "_inner0" "f")]
     ∧ m_tmp_counter r.2 = (m_tmp_counter st + 2)%Z).
Proof. repeat split; vm_compute; reflexivity. Qed.

(** ** The AST after lowering *)

(** C9 on a concrete program.  Lowering [return !a] moves the operand out of
    the [UnOp] node: the AST that comes back differs from the one that went
    in, and lowering it a second time goes through the null operand. *)
Theorem lowering_not_empties_the_operand :
  (let st := Examples.state_in Examples.prog_not "main" in
   (lower_exp (AST.UnOp AST.Not (Some (Examples.var "a"))) st).1
   = inr (AST.UnOp AST.Not None, "_tmp0"))
  ∧ ∃ ast' lir,
      lower Examples.prog_not = inr (ast', lir)
      ∧ ast' ≠ Examples.prog_not
      ∧ lower ast' = inl null_dereference.
Proof.
  split; [vm_compute; reflexivity|].
  eexists _, _. split; [vm_compute; reflexivity|].
  split; [discriminate|vm_compute; reflexivity].
Qed.

(** ** Calls *)

(** C1, as the specification has it, fails: for the calls [g(a, b)] of the
    sample program, as a statement and as an expression, the emitted [Call]
    lists the arguments as [b, a]. *)
Lemma call_lists_arguments_in_reverse :
  (let st := Examples.state_in Examples.prog_calls "main" in
   m_tv (lower_stmt (AST.CallStmt Examples.call_g_a_b) st).2
   = m_tv st ++ [TvInst (LIR.Call None "g" ["b"; "a"])]
   ∧ m_tv (lower_exp (AST.CallExp Examples.call_g_a_b) st).2
     = m_tv st ++ [TvInst (LIR.Call (Some "_tmp0") "g" ["b"; "a"])])
  ∧ LIR.insts <$> Examples.lowered_body Examples.prog_calls "main" !! "main_entry"
    = Some [LIR.Call None "g" ["b"; "a"];
            LIR.Call (Some "_tmp0") "g" ["b"; "a"];
            LIR.Copy "r" "_tmp0"].
Proof. repeat split; vm_compute; reflexivity. Qed.

(** ** Induction over the AST, through its lists and optional children *)

Section AST_induction.
Variables (P : AST.Exp → Prop) (Q : AST.Place → Prop) (R : AST.FunCall → Prop).
Hypothesis HVal : ∀ p, Q p → P (AST.Val p).
Hypothesis HNum : ∀ v, P (AST.Num v).
Hypothesis HNilExp : P AST.NilExp.
Hypothesis HSelect : ∀ g t f, P g → P t → P f → P (AST.Select g t f).
Hypothesis HUnOp : ∀ op oe, from_option P True oe → P (AST.UnOp op oe).
Hypothesis HBinOp : ∀ op l r, P l → P r → P (AST.BinOp op l r).
Hypothesis HNewSingle : ∀ t, P (AST.NewSingle t).
Hypothesis HNewArray : ∀ t s, P s → P (AST.NewArray t s).
Hypothesis HCallExp : ∀ fc, R fc → P (AST.CallExp fc).
Hypothesis HId : ∀ x, Q (AST.Id x).
Hypothesis HDeref : ∀ e, P e → Q (AST.Deref e).
Hypothesis HArrayAccess : ∀ a i, P a → P i → Q (AST.ArrayAccess a i).
Hypothesis HFieldAccess : ∀ p f, P p → Q (AST.FieldAccess p f).
Hypothesis HMkFunCall : ∀ c args, P c → Forall P args → R (AST.MkFunCall c args).

Fixpoint Exp_nested_ind (e : AST.Exp) : P e :=
  match e with
  | AST.Val p => HVal p (Place_nested_ind p)
  | AST.Num v => HNum v
  | AST.NilExp => HNilExp
  | AST.Select g t f =>
      HSelect g t f (Exp_nested_ind g) (Exp_nested_ind t) (Exp_nested_ind f)
  | AST.UnOp op oe =>
      HUnOp op oe
        match oe return from_option P True oe with
        | Some e' => Exp_nested_ind e'
        | None => I
        end
  | AST.BinOp op l r => HBinOp op l r (Exp_nested_ind l) (Exp_nested_ind r)
  | AST.NewSingle t => HNewSingle t
  | AST.NewArray t s => HNewArray t s (Exp_nested_ind s)
  | AST.CallExp fc => HCallExp fc (FunCall_nested_ind fc)
  end
with Place_nested_ind (p : AST.Place) : Q p :=
  match p with
  | AST.Id x => HId x
  | AST.Deref e => HDeref e (Exp_nested_ind e)
  | AST.ArrayAccess a i => HArrayAccess a i (Exp_nested_ind a) (Exp_nested_ind i)
  | AST.FieldAccess e f => HFieldAccess e f (Exp_nested_ind e)
  end
with FunCall_nested_ind (fc : AST.FunCall) : R fc :=
  match fc with
  | AST.MkFunCall c args =>
      HMkFunCall c args (Exp_nested_ind c)
        ((fix go (l : list AST.Exp) : Forall P l :=
            match l with
            | [] => @List.Forall_nil _ P
            | a :: rest => @List.Forall_cons _ P a rest (Exp_nested_ind a) (go rest)
            end) args)
  end.

Lemma AST_nested_ind : (∀ e, P e) ∧ (∀ p, Q p) ∧ (∀ fc, R fc).
Proof.
  split; [exact Exp_nested_ind|]. split; [exact Place_nested_ind|exact FunCall_nested_ind].
Qed.
End AST_induction.

Section Stmt_induction.
Variable P : AST.Stmt → Prop.
Hypothesis HStmts : ∀ ss, Forall P ss → P (AST.Stmts ss).
Hypothesis HAssign : ∀ p e, P (AST.Assign p e).
Hypothesis HCallStmt : ∀ fc, P (AST.CallStmt fc).
Hypothesis HIf : ∀ g t f, P t → from_option P True f → P (AST.If g t f).
Hypothesis HWhile : ∀ g b, P b → P (AST.While g b).
Hypothesis HBreak : P AST.Break.
Hypothesis HContinue : P AST.Continue.
Hypothesis HReturn : ∀ e, P (AST.Return e).

Fixpoint Stmt_nested_ind (s : AST.Stmt) : P s :=
  match s with
  | AST.Stmts ss =>
      HStmts ss
        ((fix go (l : list AST.Stmt) : Forall P l :=
            match l with
            | [] => @List.Forall_nil _ P
            | x :: rest => @List.Forall_cons _ P x rest (Stmt_nested_ind x) (go rest)
            end) ss)
  | AST.Assign p e => HAssign p e
  | AST.CallStmt fc => HCallStmt fc
  | AST.If g t f =>
      HIf g t f (Stmt_nested_ind t)
        match f return from_option P True f with
        | Some s' => Stmt_nested_ind s'
        | None => I
        end
  | AST.While g b => HWhile g b (Stmt_nested_ind b)
  | AST.Break => HBreak
  | AST.Continue => HContinue
  | AST.Return e => HReturn e
  end.
End Stmt_induction.

(** ** Rules for [advances] *)

Lemma add_consts_app cs l1 l2 : add_consts cs (l1 ++ l2) = add_consts (add_consts cs l1) l2.
Proof. apply foldl_app. Qed.

Section Advance_rules.
Context (Inv : list Z → Lowerer → Prop) (E : Error → Prop).

Lemma advances_eq {A} (m : Lower A) l l' :
  advances Inv E m l → l = l' → advances Inv E m l'.
Proof. by intros H <-. Qed.

Lemma advances_ret {A} (a : A) : advances Inv E (mret a) [].
Proof. intros cs st H. exact H. Qed.

Lemma advances_bind {A B} (m : Lower A) (k : A → Lower B) l1 l2 :
  advances Inv E m l1 → (∀ a, advances Inv E (k a) l2) →
  advances Inv E (m ≫= k) (l1 ++ l2).
Proof.
  intros Hm Hk cs st H. rewrite run_bind.
  specialize (Hm cs st H). destruct (m st) as [[e|a] st']; [done|].
  rewrite add_consts_app. by apply Hk.
Qed.

Lemma advances_throw {A} (e : Error) l : E e → advances Inv E (throw e : Lower A) l.
Proof. by intros He cs st H. Qed.

Lemma advances_gets {A} (f : Lowerer → A) : advances Inv E (gets f) [].
Proof. intros cs st H. exact H. Qed.

Lemma advances_modify (f : Lowerer → Lowerer) :
  (∀ cs st, Inv cs st → Inv cs (f st)) → advances Inv E (modify f) [].
Proof. intros Hf cs st H. by apply Hf. Qed.

Lemma advances_release vars : advances Inv E (release vars) [].
Proof. apply advances_ret. Qed.

Lemma advances_lower_with {A} (m : Lower A) l :
  advances Inv E m l → advances Inv E (lower_with m) l.
Proof.
  intros Hm. unfold lower_with.
  eapply advances_eq.
  - eapply advances_bind; [exact Hm|]. intros a.
    eapply advances_bind; [apply advances_gets|]. intros r. apply advances_ret.
  - by rewrite app_nil_r.
Qed.

Lemma advances_typeof_var id : advances Inv E (typeof_var id) [].
Proof. apply advances_gets. Qed.
End Advance_rules.

(** ** Unfolding the visitors where they test the shape of a child *)

Lemma visit_Val_place p :
  (∀ x, p ≠ AST.Id x) →
  visit_Exp (AST.Val p) =
    ('(place', src) ← lower_place p;
     ptr_type ← typeof_var src;
     val_type ← typeof_ptr_element ptr_type;
     lhs ← fresh_non_inner_var val_type;
     emit (TvInst (LIR.Load lhs src));;
     release [src];;
     set_last_result_id lhs;;
     mret (AST.Val place')).
Proof. intros H. destruct p; [by destruct (H name)|reflexivity..]. Qed.

Lemma visit_Neg_exp e :
  (∀ v, e ≠ AST.Num v) →
  visit_Exp (AST.UnOp AST.Neg (Some e)) =
    (lhs ← fresh_non_inner_var LIR.IntType;
     zero ← const_var 0;
     '(exp', x) ← lower_ptr lower_exp (Some e);
     emit (TvInst (LIR.Arith lhs LIR.Sub zero x));;
     release [x];;
     set_last_result_id lhs;;
     mret (AST.UnOp AST.Neg exp'))
  ∧ const_uses_Exp (AST.UnOp AST.Neg (Some e)) = 0%Z :: const_uses_Exp e.
Proof. intros H. destruct e; try (split; reflexivity). by destruct (H value). Qed.

Lemma visit_Assign_place p e :
  (∀ x, p ≠ AST.Id x) →
  visit_Stmt (AST.Assign p e) =
    ('(place', x) ← lower_place p;
     '(exp', y) ← lower_exp e;
     emit (TvInst (LIR.Store x y));;
     release [x; y];;
     mret (AST.Assign place' exp')).
Proof. intros H. destruct p; [by destruct (H name)|reflexivity..]. Qed.

Lemma Place_Id_or_not (p : AST.Place) : (∃ x, p = AST.Id x) ∨ (∀ x, p ≠ AST.Id x).
Proof. destruct p; eauto. Qed.

Lemma Exp_Num_or_not (e : AST.Exp) : (∃ v, e = AST.Num v) ∨ (∀ v, e ≠ AST.Num v).
Proof. destruct e; eauto. Qed.

(** ** The lowering keeps every invariant its helpers keep

    The section assumes of an invariant only what the helper functions need:
    it survives pushing an item that is not a [Const], writing the
    bookkeeping fields, and minting temporaries, and [const_var] extends it
    by the constant it is called with.  Every exception the visitors throw
    themselves, that is every one other than that of the [Id] place visitor
    and that of an insertion past the end, is assumed acceptable. *)

Ltac list_norm :=
  simpl; repeat first [rewrite app_nil_r | rewrite <- List.app_assoc; simpl]; reflexivity.

Section Lowering_advances.
Context (Inv : list Z → Lowerer → Prop) (E : Error → Prop).
Hypothesis E_other : ∀ e, e ≠ IdLoweredAsPlace → e ≠ invalid_iterator → E e.
Hypothesis Inv_emit : ∀ cs st item,
  is_const_item item = false → Inv cs st → Inv cs (with_tv (λ tv, tv ++ [item]) st).
Hypothesis Inv_last : ∀ cs st x, Inv cs st → Inv cs (with_last_result_id x st).
Hypothesis Inv_label : ∀ cs st n, Inv cs st → Inv cs (with_label_counter n st).
Hypothesis Inv_hdr : ∀ cs st f, Inv cs st → Inv cs (with_loop_hdr_stack f st).
Hypothesis Inv_end : ∀ cs st f, Inv cs st → Inv cs (with_loop_end_stack f st).
Hypothesis adv_fresh_inner : ∀ ty, advances Inv E (fresh_inner_var ty) [].
Hypothesis adv_fresh_non_inner : ∀ ty, advances Inv E (fresh_non_inner_var ty) [].
Hypothesis adv_const_var : ∀ n, advances Inv E (const_var n) [n].

Lemma adv_emit item : is_const_item item = false → advances Inv E (emit item) [].
Proof. intros H. apply (advances_modify Inv E). intros cs st. by apply Inv_emit. Qed.

Lemma adv_set_last x : advances Inv E (set_last_result_id x) [].
Proof. apply (advances_modify Inv E). intros cs st. apply Inv_last. Qed.

Lemma adv_new_label prefix : advances Inv E (new_label prefix) [].
Proof.
  unfold new_label. eapply (advances_eq Inv E).
  - eapply (advances_bind Inv E); [apply (advances_gets Inv E)|]. intros n.
    eapply (advances_bind Inv E); [|intros; apply (advances_ret Inv E)].
    apply (advances_modify Inv E). intros cs st. apply Inv_label.
  - reflexivity.
Qed.

Lemma adv_throw {A} e l :
  e ≠ IdLoweredAsPlace → e ≠ invalid_iterator → advances Inv E (throw e : Lower A) l.
Proof. intros H H'. by apply (advances_throw Inv E), E_other. Qed.

Lemma adv_typeof_field sid fid : advances Inv E (typeof_field sid fid) [].
Proof.
  unfold typeof_field. eapply (advances_eq Inv E).
  - eapply (advances_bind Inv E); [apply (advances_gets Inv E)|]. intros prog.
    instantiate (1 := []).
    destruct (_ ≫= _); [apply (advances_ret Inv E)|by apply adv_throw].
  - reflexivity.
Qed.

Lemma adv_typeof_array_element t : advances Inv E (typeof_array_element t) [].
Proof. destruct t; simpl; first [apply (advances_ret Inv E) | by apply adv_throw]. Qed.

Lemma adv_typeof_ptr_element t : advances Inv E (typeof_ptr_element t) [].
Proof. destruct t; simpl; first [apply (advances_ret Inv E) | by apply adv_throw]. Qed.

Lemma adv_typeof_func_ret t : advances Inv E (typeof_func_ret t) [].
Proof.
  destruct t as [| | | |t'|]; simpl; try first [apply (advances_ret Inv E) | by apply adv_throw].
  destruct t'; first [apply (advances_ret Inv E) | by apply adv_throw].
Qed.

Lemma adv_convert_arith_op op : advances Inv E (convert_arith_op op) [].
Proof. destruct op; simpl; first [apply (advances_ret Inv E) | by apply adv_throw]. Qed.

Lemma adv_convert_rel_op op : advances Inv E (convert_rel_op op) [].
Proof. destruct op; simpl; first [apply (advances_ret Inv E) | by apply adv_throw]. Qed.

Lemma adv_visit_Num v : advances Inv E (visit_Num v) [wrap_int v].
Proof.
  unfold visit_Num. eapply (advances_eq Inv E).
  - eapply (advances_bind Inv E); [apply adv_const_var|]. intros r. apply adv_set_last.
  - reflexivity.
Qed.

(** One step of the proofs below: split a bind, case on a run-time test
    (whose branches use no constant), or close a helper call. *)
Ltac adv_leaf :=
  lazymatch goal with
  | |- advances _ _ (lower_with (visit_Num _)) _ =>
      apply (advances_lower_with Inv E); apply adv_visit_Num
  | |- advances _ _ (lower_with _) _ => apply (advances_lower_with Inv E); eassumption
  | |- advances _ _ (lower_exp _) _ => apply (advances_lower_with Inv E); eassumption
  | |- advances _ _ (lower_place _) _ => apply (advances_lower_with Inv E); eassumption
  | |- advances _ _ (mret _) _ => apply (advances_ret Inv E)
  | |- advances _ _ (release _) _ => apply (advances_release Inv E)
  | |- advances _ _ (gets _) _ => apply (advances_gets Inv E)
  | |- advances _ _ (typeof_var _) _ => apply (advances_typeof_var Inv E)
  | |- advances _ _ (emit _) _ => apply adv_emit; reflexivity
  | |- advances _ _ (set_last_result_id _) _ => apply adv_set_last
  | |- advances _ _ (new_label _) _ => apply adv_new_label
  | |- advances _ _ (fresh_inner_var _) _ => apply adv_fresh_inner
  | |- advances _ _ (fresh_non_inner_var _) _ => apply adv_fresh_non_inner
  | |- advances _ _ (const_var _) _ => apply adv_const_var
  | |- advances _ _ (visit_Num _) _ => apply adv_visit_Num
  | |- advances _ _ (typeof_field _ _) _ => apply adv_typeof_field
  | |- advances _ _ (typeof_struct_field _ _) _ => apply adv_typeof_field
  | |- advances _ _ (typeof_array_element _) _ => apply adv_typeof_array_element
  | |- advances _ _ (typeof_ptr_element _) _ => apply adv_typeof_ptr_element
  | |- advances _ _ (typeof_func_ret _) _ => apply adv_typeof_func_ret
  | |- advances _ _ (convert_arith_op _) _ => apply adv_convert_arith_op
  | |- advances _ _ (convert_rel_op _) _ => apply adv_convert_rel_op
  | |- advances _ _ (modify (with_loop_hdr_stack _)) _ =>
      apply (advances_modify Inv E); intros ? ?; apply Inv_hdr
  | |- advances _ _ (modify (with_loop_end_stack _)) _ =>
      apply (advances_modify Inv E); intros ? ?; apply Inv_end
  | |- advances _ _ (throw _) _ => apply adv_throw with (l := @nil Z); discriminate
  | |- _ => eassumption
  end.

Ltac adv :=
  cbv beta zeta;
  lazymatch goal with
  | |- advances _ _ (_ ≫= _) _ =>
      eapply (advances_bind Inv E); [adv | let a := fresh "a" in intros a; adv]
  | |- advances _ _ (if decide _ then _ else _) ?l =>
      unify l (@nil Z); case_decide; (eapply (advances_eq Inv E); [adv | list_norm])
  | |- advances _ _ (match ?x with _ => _ end) ?l =>
      lazymatch type of x with
      | (_ * _)%type => destruct x as [? ?]; adv
      | _ => unify l (@nil Z); destruct x; (eapply (advances_eq Inv E); [adv | list_norm])
      end
  | |- _ => adv_leaf
  end.

Ltac adv_start := eapply (advances_eq Inv E); [adv | list_norm].

Lemma adv_visit_BinOp {L R} op (ll : Lower (L * VarId)) (lr : Lower (R * VarId)) ul ur :
  advances Inv E ll ul → advances Inv E lr ur →
  advances Inv E (visit_BinOp op ll lr)
    (ul ++ ur ++ match op with AST.And => [0%Z] | _ => [] end).
Proof.
  intros Hl Hr. destruct op; unfold visit_BinOp; adv_start.
Qed.

Lemma adv_lower_args (f : AST.Exp → Lower (AST.Exp * VarId)) (uses : AST.Exp → list Z) args :
  Forall (λ a, advances Inv E (f a) (uses a)) args →
  advances Inv E (lower_args_with f args) (uses_from_last uses args).
Proof.
  induction 1 as [|a rest Ha _ IH]; simpl; [apply (advances_ret Inv E)|].
  adv_start.
Qed.

Lemma adv_visit_AST :
  (∀ e, advances Inv E (visit_Exp e) (const_uses_Exp e))
  ∧ (∀ p, (∀ x, p ≠ AST.Id x) → advances Inv E (visit_Place p) (const_uses_Place p))
  ∧ (∀ fc, advances Inv E (visit_FunCall fc) (const_uses_FunCall fc)).
Proof.
  apply AST_nested_ind.
  - (* Val *)
    intros p Hp. destruct (Place_Id_or_not p) as [[x ->]|Hne].
    + simpl. adv_start.
    + specialize (Hp Hne). rewrite visit_Val_place by done.
      change (const_uses_Exp (AST.Val p)) with (const_uses_Place p).
      adv_start.
  - (* Num *)
    intros v. simpl. adv_start.
  - (* NilExp *)
    simpl. adv_start.
  - (* Select *)
    intros g t f Hg Ht Hf. simpl. adv_start.
  - (* UnOp *)
    intros [] [e|] He; simpl in He.
    + destruct (Exp_Num_or_not e) as [[v ->]|Hne].
      * simpl. adv_start.
      * destruct (visit_Neg_exp e Hne) as [-> ->]. unfold lower_ptr. adv_start.
    + simpl. adv_start.
    + simpl. adv_start.
    + simpl. adv_start.
  - (* BinOp *)
    intros op l r Hl Hr. simpl.
    eapply (advances_eq Inv E).
    + eapply (advances_bind Inv E); [|intros [? ?]; apply (advances_ret Inv E)].
      apply adv_visit_BinOp; apply (advances_lower_with Inv E); eassumption.
    + list_norm.
  - (* NewSingle *)
    intros t. simpl. adv_start.
  - (* NewArray *)
    intros t s Hs. simpl. adv_start.
  - (* CallExp *)
    intros fc Hfc. simpl. adv_start.
  - (* Id *)
    intros x Hx. by destruct (Hx x).
  - (* Deref *)
    intros e He _. simpl. adv_start.
  - (* ArrayAccess *)
    intros a i Ha Hi _. simpl. adv_start.
  - (* FieldAccess *)
    intros p f Hp _. simpl. adv_start.
  - (* MkFunCall *)
    intros c args Hc Hargs. simpl.
    eapply (advances_eq Inv E).
    + eapply (advances_bind Inv E).
      * apply adv_lower_args with (uses := const_uses_Exp).
        eapply Forall_impl; [exact Hargs|].
        intros a Ha. by apply (advances_lower_with Inv E).
      * intros [? ?]. adv.
    + list_norm.
Qed.

Lemma adv_visit_Exp e : advances Inv E (visit_Exp e) (const_uses_Exp e).
Proof. apply adv_visit_AST. Qed.

Lemma adv_visit_Place p :
  (∀ x, p ≠ AST.Id x) → advances Inv E (visit_Place p) (const_uses_Place p).
Proof. apply adv_visit_AST. Qed.

Lemma adv_visit_FunCall fc : advances Inv E (visit_FunCall fc) (const_uses_FunCall fc).
Proof. apply adv_visit_AST. Qed.

Lemma adv_lower_exp e : advances Inv E (lower_exp e) (const_uses_Exp e).
Proof. apply (advances_lower_with Inv E), adv_visit_Exp. Qed.

Lemma adv_lower_args_all args :
  advances Inv E (lower_args args) (uses_from_last const_uses_Exp args).
Proof.
  apply adv_lower_args. apply Forall_forall. intros a _. apply adv_lower_exp.
Qed.

Lemma adv_visit_each {A} (f : A → Lower A) (uses : A → list Z) l :
  Forall (λ x, advances Inv E (f x) (uses x)) l →
  advances Inv E (visit_each f l) (uses_from_first uses l).
Proof.
  induction 1 as [|x rest Hx _ IH]; simpl; [apply (advances_ret Inv E)|].
  adv_start.
Qed.

Lemma adv_visit_Stmt s : advances Inv E (visit_Stmt s) (const_uses_Stmt s).
Proof.
  induction s as [ss IH|p e|fc|g t f Ht Hf|g b Hb| | |e] using Stmt_nested_ind.
  - (* Stmts *)
    simpl. eapply (advances_eq Inv E).
    + eapply (advances_bind Inv E); [|intros ?; apply (advances_ret Inv E)].
      apply adv_visit_each with (uses := const_uses_Stmt). exact IH.
    + list_norm.
  - (* Assign *)
    pose proof (adv_visit_Exp e) as He.
    destruct (Place_Id_or_not p) as [[x ->]|Hne].
    + simpl. adv_start.
    + pose proof (adv_visit_Place p Hne) as Hp.
      rewrite visit_Assign_place by done. simpl. adv_start.
  - (* CallStmt *)
    destruct fc as [c args].
    pose proof (adv_visit_Exp c) as Hc. simpl.
    eapply (advances_eq Inv E).
    + eapply (advances_bind Inv E); [apply adv_lower_args_all|].
      intros [? ?]. adv.
    + list_norm.
  - (* If *)
    pose proof (adv_visit_Exp g) as Hg.
    destruct f as [s|]; simpl in Hf; simpl; adv_start.
  - (* While *)
    pose proof (adv_visit_Exp g) as Hg. simpl. adv_start.
  - (* Break *)
    simpl. adv_start.
  - (* Continue *)
    simpl. adv_start.
  - (* Return *)
    destruct e as [e|]; [pose proof (adv_visit_Exp e) as He|]; simpl; adv_start.
Qed.

Lemma adv_lower_stmt s : advances Inv E (lower_stmt s) (const_uses_Stmt s).
Proof. apply adv_visit_Stmt. Qed.

End Lowering_advances.

(** ** The [Id] place visitor is never reached *)

Lemma never_lowers_id_advances {A} (m : Lower A) l :
  advances any_state not_id_error m l ↔ never_lowers_id m.
Proof.
  unfold advances, never_lowers_id, any_state, not_id_error. split.
  - intros H st. specialize (H [] st I).
    destruct (m st) as [[e|a] st']; simpl in *; congruence.
  - intros H cs st _. specialize (H st).
    destruct (m st) as [[e|a] st']; simpl in *; [intros ->; by apply H|done].
Qed.

Lemma modify_current_fun_result g st :
  (∃ st', modify_current_fun g st = (inr (), st'))
  ∨ modify_current_fun g st = (inl null_dereference, st).
Proof.
  unfold modify_current_fun.
  destruct (m_current_fun st) as [f|]; [|by right].
  destruct (LIR.functions (m_lir_prog st) !! f); [left; eauto|by right].
Qed.

Lemma get_current_fun_result st :
  (∃ fn, current_fun st = Some fn ∧ get_current_fun st = (inr fn, st))
  ∨ get_current_fun st = (inl null_dereference, st).
Proof.
  unfold get_current_fun. destruct (current_fun st); [left; eauto|by right].
Qed.

Lemma never_modify_current_fun g : never_lowers_id (modify_current_fun g).
Proof.
  intros st. destruct (modify_current_fun_result g st) as [[st' ->]| ->]; done.
Qed.

Lemma never_get_current_fun : never_lowers_id get_current_fun.
Proof.
  intros st. destruct (get_current_fun_result st) as [(fn & _ & ->)| ->]; done.
Qed.

Lemma never_bind {A B} (m : Lower A) (k : A → Lower B) :
  never_lowers_id m → (∀ a, never_lowers_id (k a)) → never_lowers_id (m ≫= k).
Proof.
  intros Hm Hk st. rewrite run_bind. specialize (Hm st).
  destruct (m st) as [[e|a] st']; [|apply Hk].
  simpl in *. intros [= ->]. by apply Hm.
Qed.

Lemma never_total {A} (m : Lower A) :
  (∀ st, ∃ a st', m st = (inr a, st')) → never_lowers_id m.
Proof. intros H st. destruct (H st) as (a & st' & ->). done. Qed.

Lemma never_throw {A} e : e ≠ IdLoweredAsPlace → never_lowers_id (throw e : Lower A).
Proof. intros H st. simpl. congruence. Qed.

Lemma never_fresh_inner_var ty : never_lowers_id (fresh_inner_var ty).
Proof.
  unfold fresh_inner_var.
  apply never_bind; [by apply never_total; eauto|intros n].
  apply never_bind; [by apply never_total; eauto|intros _].
  apply never_bind; [apply never_modify_current_fun|intros _].
  apply never_total; eauto.
Qed.

Lemma never_fresh_non_inner_var ty : never_lowers_id (fresh_non_inner_var ty).
Proof.
  unfold fresh_non_inner_var.
  apply never_bind; [by apply never_total; eauto|intros n].
  apply never_bind; [by apply never_total; eauto|intros _].
  apply never_bind; [apply never_modify_current_fun|intros _].
  apply never_total; eauto.
Qed.

Lemma never_const_var n : never_lowers_id (const_var n).
Proof.
  unfold const_var.
  apply never_bind; [apply never_get_current_fun|intros fn].
  apply never_bind; [|intros _; apply never_total; eauto].
  destruct (LIR.locals fn !! const_name n); [apply never_total; eauto|].
  apply never_bind; [apply never_modify_current_fun|intros _].
  apply never_bind; [apply never_total; eauto|intros pos].
  apply never_bind; [apply never_total; eauto|intros tv].
  apply never_bind; [|intros _; apply never_total; eauto].
  destruct (tv_insert _ _ _); [apply never_total; eauto|by apply never_throw].
Qed.

Lemma never_lower_stmt s : never_lowers_id (lower_stmt s).
Proof.
  apply (never_lowers_id_advances _ (const_uses_Stmt s)).
  apply adv_lower_stmt; try done.
  - intros ty. apply never_lowers_id_advances, never_fresh_inner_var.
  - intros ty. apply never_lowers_id_advances, never_fresh_non_inner_var.
  - intros n. apply never_lowers_id_advances, never_const_var.
Qed.

Lemma never_lower_exp e : never_lowers_id (lower_exp e).
Proof.
  apply (never_lowers_id_advances _ (const_uses_Exp e)).
  apply adv_lower_exp; try done.
  - intros ty. apply never_lowers_id_advances, never_fresh_inner_var.
  - intros ty. apply never_lowers_id_advances, never_fresh_non_inner_var.
  - intros n. apply never_lowers_id_advances, never_const_var.
Qed.

Lemma never_lower_place p : (∀ x, p ≠ AST.Id x) → never_lowers_id (lower_place p).
Proof.
  intros Hp.
  apply (never_lowers_id_advances _ (const_uses_Place p)).
  apply advances_lower_with, adv_visit_Place; try done.
  - intros ty. apply never_lowers_id_advances, never_fresh_inner_var.
  - intros ty. apply never_lowers_id_advances, never_fresh_non_inner_var.
  - intros n. apply never_lowers_id_advances, never_const_var.
Qed.

Lemma never_cfg_step current_bb item : never_lowers_id (cfg_step current_bb item).
Proof.
  destruct item as [name|i|t]; simpl.
  - apply never_bind; [apply never_modify_current_fun|intros _].
    apply never_total; eauto.
  - apply never_bind.
    + destruct current_bb; [apply never_total; eauto|].
      apply never_bind; [apply never_get_current_fun|intros fn].
      destruct (LIR.body fn !! _); [apply never_total; eauto|by apply never_throw].
    + intros bb. apply never_bind; [apply never_modify_current_fun|intros _].
      apply never_total; eauto.
  - destruct current_bb; [|apply never_total; eauto].
    apply never_bind; [apply never_modify_current_fun|intros _].
    apply never_total; eauto.
Qed.

Lemma never_cfg_scan tv current_bb : never_lowers_id (cfg_scan tv current_bb).
Proof.
  revert current_bb. induction tv as [|item tv IH]; intros current_bb; simpl.
  - apply never_total; eauto.
  - apply never_bind; [apply never_cfg_step|intros c; apply IH].
Qed.

Lemma never_build_cfg : never_lowers_id build_cfg.
Proof.
  unfold build_cfg. apply never_bind; [apply never_total; eauto|].
  intros tv. apply never_cfg_scan.
Qed.

Lemma never_set_context fname : never_lowers_id (set_context fname).
Proof.
  unfold set_context.
  apply never_bind; [apply never_total; eauto|intros prog].
  apply never_bind.
  - destruct (LIR.functions prog !! fname); [apply never_total; eauto|by apply never_throw].
  - intros _. repeat (apply never_bind; [apply never_total; eauto|intros _]).
    apply never_total; eauto.
Qed.

Lemma never_add_implicit_return : never_lowers_id add_implicit_return.
Proof.
  unfold add_implicit_return. apply never_bind; [apply never_total; eauto|intros tv].
  destruct (has_ret tv); apply never_total; eauto.
Qed.

Lemma never_visit_FunctionDef n : never_lowers_id (visit_FunctionDef n).
Proof.
  unfold visit_FunctionDef.
  apply never_bind; [apply never_set_context|intros _].
  apply never_bind; [apply never_total; eauto|intros _].
  apply never_bind; [apply never_lower_stmt|intros body'].
  apply never_bind; [apply never_add_implicit_return|intros _].
  apply never_bind; [apply never_build_cfg|intros _].
  apply never_total; eauto.
Qed.

Lemma never_visit_each {A} (f : A → Lower A) l :
  (∀ x, never_lowers_id (f x)) → never_lowers_id (visit_each f l).
Proof.
  intros Hf. induction l as [|x l IH]; simpl; [apply never_total; eauto|].
  apply never_bind; [apply Hf|intros x'].
  apply never_bind; [apply IH|intros l']. apply never_total; eauto.
Qed.

Lemma never_visit_Program n : never_lowers_id (visit_Program n).
Proof.
  unfold visit_Program.
  apply never_bind.
  - apply never_total. intros st.
    destruct (build_shell_total n st) as [st' ->]. eauto.
  - intros _. apply never_bind; [|intros fs; apply never_total; eauto].
    apply never_visit_each, never_visit_FunctionDef.
Qed.

(** C10.  The place visitor throws on every [Id] and leaves the lowerer as
    it was; no statement and no expression ever makes it do so, since their
    visitors handle an [Id] place themselves and hand only the other places
    to [lower_place]; hence lowering a whole program never ends in that
    exception. *)
Theorem id_is_never_lowered_as_place :
  (∀ x st, lower_place (AST.Id x) st = (inl IdLoweredAsPlace, st))
  ∧ (∀ p, (∀ x, p ≠ AST.Id x) → never_lowers_id (lower_place p))
  ∧ (∀ e, never_lowers_id (lower_exp e))
  ∧ (∀ s, never_lowers_id (lower_stmt s))
  ∧ (∀ prog, lower prog ≠ inl IdLoweredAsPlace).
Proof.
  split; [reflexivity|].
  split; [apply never_lower_place|].
  split; [apply never_lower_exp|].
  split; [apply never_lower_stmt|].
  intros prog. unfold lower.
  pose proof (never_visit_Program prog new_Lowerer) as H.
  destruct (visit_Program prog new_Lowerer) as [[e|ast'] st]; simpl in H; congruence.
Qed.

(** ** Calls: arguments are lowered from the last to the first *)

Lemma run_gets {A} (f : Lowerer → A) st : gets f st = (inr (f st), st).
Proof. reflexivity. Qed.

Lemma run_modify f st : modify f st = (inr (), f st).
Proof. reflexivity. Qed.

Lemma run_throw {A} e st : (throw e : Lower A) st = (inl e, st).
Proof. reflexivity. Qed.

Ltac run :=
  repeat first [rewrite run_bind | rewrite run_ret | rewrite run_gets | rewrite run_modify
               | rewrite run_emit | rewrite run_throw | progress cbv beta iota zeta].

Lemma lower_in_order_snoc es a st :
  lower_in_order (es ++ [a]) st =
    ('(es', xs) ← lower_in_order es;
     '(a', x) ← lower_exp a;
     mret (es' ++ [a'], xs ++ [x])) st.
Proof.
  revert st. induction es as [|e es IH]; intros st; simpl.
  - run. destruct (lower_exp a st) as [[err|[a' x]] st']; reflexivity.
  - run. destruct (lower_exp e st) as [[err|[e' y]] st1]; [reflexivity|].
    run. rewrite IH. run.
    destruct (lower_in_order es st1) as [[err|[es' xs]] st2]; [reflexivity|].
    run. destruct (lower_exp a st2) as [[err|[a' x]] st3]; reflexivity.
Qed.

Lemma lower_args_in_reverse args st :
  lower_args args st =
    ('(rev_args', xs) ← lower_in_order (rev args); mret (rev rev_args', xs)) st.
Proof.
  revert st. induction args as [|a args IH]; intros st; [reflexivity|].
  change (lower_args (a :: args)) with
    ('(rest', xs) ← lower_args args; '(a', x) ← lower_exp a; mret (a' :: rest', xs ++ [x])).
  simpl rev. run. rewrite IH, lower_in_order_snoc. run.
  destruct (lower_in_order (rev args) st) as [[err|[res xs]] st1]; [reflexivity|].
  run. destruct (lower_exp a st1) as [[err|[a' x]] st2]; [reflexivity|].
  run. rewrite rev_unit. reflexivity.
Qed.

Lemma lower_in_order_length es st res xs st' :
  lower_in_order es st = (inr (res, xs), st') → length xs = length es ∧ length res = length es.
Proof.
  revert st res xs st'. induction es as [|e es IH]; intros st res xs st'; simpl.
  - intros [= <- <- _]. done.
  - run. destruct (lower_exp e st) as [[err|[e' y]] st1]; [done|].
    run. destruct (lower_in_order es st1) as [[err|[es' ys]] st2] eqn:Hes; [done|].
    run. intros [= <- <- _]. apply IH in Hes as [H1 H2]. simpl. by rewrite H1, H2.
Qed.

(** C1, as the code has it.  In both call visitors the arguments are lowered
    from the last to the first (so the instructions they emit come in
    reverse source order), then the callee; the emitted [Call] lists the
    argument results in that same order of lowering, last argument first,
    one result per argument. *)
Theorem call_arguments_lowered_last_to_first
    (callee : AST.Exp) (args : list AST.Exp) (st : Lowerer) :
  lower_stmt (AST.CallStmt (AST.MkFunCall callee args)) st
  = call_stmt_right_to_left callee args st
  ∧ lower_exp (AST.CallExp (AST.MkFunCall callee args)) st
    = call_exp_right_to_left callee args st
  ∧ (∀ rev_args' xs st',
       lower_in_order (rev args) st = (inr (rev_args', xs), st') →
       length xs = length args).
Proof.
  split; [|split].
  - unfold lower_stmt, call_stmt_right_to_left. simpl.
    run. rewrite lower_args_in_reverse. run.
    destruct (lower_in_order (rev args) st) as [[err|[res xs]] st1]; [reflexivity|].
    run. destruct (lower_exp callee st1) as [[err|[c' f]] st2]; reflexivity.
  - unfold lower_exp at 1, lower_with, call_exp_right_to_left. simpl.
    change (lower_args_with (λ a, lower_with (visit_Exp a)) args) with (lower_args args).
    change (lower_with (visit_Exp callee)) with (lower_exp callee).
    run. rewrite lower_args_in_reverse. run.
    destruct (lower_in_order (rev args) st) as [[err|[res xs]] st1]; [reflexivity|].
    run. destruct (lower_exp callee st1) as [[err|[c' f]] st2]; [reflexivity|].
    run. change (typeof_var f st2) with (@inr Error _ (typeof st2 f), st2). run.
    destruct (typeof_func_ret (typeof st2 f) st2) as [[err|rt] st3]; [reflexivity|].
    run. destruct (fresh_non_inner_var rt st3) as [[err|lhs] st4]; reflexivity.
  - intros res xs st' H. apply lower_in_order_length in H as [-> _].
    apply length_rev.
Qed.

(** ** Constant holders *)

Lemma prefix_empty s : String.prefix "" s = true.
Proof. by destruct s. Qed.

Lemma is_const_name_const_name n : is_const_name (const_name n) = true.
Proof. unfold is_const_name, const_name. simpl. apply prefix_empty. Qed.

Lemma is_const_name_inner s : is_const_name ("_inner" +:+ s) = false.
Proof. reflexivity. Qed.

Lemma is_const_name_tmp s : is_const_name ("_tmp" +:+ s) = false.
Proof. reflexivity. Qed.

Lemma tv_insert_Some pos item tv tv' :
  tv_insert pos item tv = Some tv'
  ↔ pos ≤ length tv ∧ tv' = take pos tv ++ item :: drop pos tv.
Proof.
  unfold tv_insert. case_decide; [|split; [done|lia]].
  split; [by intros [= <-]|by intros [_ ->]].
Qed.

Lemma tv_insert_None pos item tv : tv_insert pos item tv = None ↔ length tv < pos.
Proof. unfold tv_insert. case_decide; split; try done; lia. Qed.

Lemma tv_insert_in_range pos item tv :
  pos ≤ length tv → tv_insert pos item tv = Some (take pos tv ++ item :: drop pos tv).
Proof. intros H. by apply tv_insert_Some. Qed.

Lemma tv_insert_after_consts (l : TranslationItem) (cs rest : list TranslationItem) item :
  tv_insert (S (length cs)) item (l :: cs ++ rest) = Some (l :: (cs ++ [item]) ++ rest).
Proof.
  rewrite tv_insert_in_range by (simpl; rewrite length_app; lia). simpl.
  rewrite take_app_length, drop_app_length, <- app_assoc. reflexivity.
Qed.

Section Const_invariant.
Variable fname : string.

Lemma const_invariant_emit cs st item :
  is_const_item item = false →
  const_invariant fname cs st →
  const_invariant fname cs (with_tv (λ tv, tv ++ [item]) st).
Proof.
  intros Hitem (fn & rest & Hcur & Hfn & Htv & Hpos & Hrest & Hnd & Hloc & Hint).
  exists fn, (rest ++ [item]). simpl. repeat split; try done.
  - rewrite Htv. simpl. by rewrite app_assoc.
  - apply Forall_app. split; [done|]. by constructor.
  - by apply Hloc.
  - by apply Hloc.
Qed.

Lemma const_invariant_fields cs st st' :
  m_lir_prog st' = m_lir_prog st →
  m_current_fun st' = m_current_fun st →
  m_tv st' = m_tv st →
  m_const_insert_pos st' = m_const_insert_pos st →
  const_invariant fname cs st → const_invariant fname cs st'.
Proof.
  intros Hp Hc Ht Hi (fn & rest & Hcur & Hfn & Htv & Hpos & H).
  exists fn, rest. rewrite Hp, Hc, Ht, Hi. done.
Qed.

(** Adding a local whose name is not of the form [_const_...]. *)
Lemma const_invariant_add_local cs st (x : string) ty :
  is_const_name x = false →
  const_invariant fname cs st →
  ∃ st', modify_current_fun (LIR.with_locals <[x := ty]>) st = (inr (), st')
         ∧ const_invariant fname cs st'.
Proof.
  intros Hx (fn & rest & Hcur & Hfn & Htv & Hpos & Hrest & Hnd & Hloc & Hint).
  exists (with_lir_prog
            (LIR.with_functions <[fname := LIR.with_locals <[x := ty]> fn]>) st).
  split; [unfold modify_current_fun; rewrite Hcur; cbv beta iota;
          unfold FuncId; by rewrite Hfn|].
  exists (LIR.with_locals <[x := ty]> fn), rest. simpl.
  rewrite lookup_insert_eq. repeat split; try done.
  - intros Hy. apply Hloc; [done|].
    rewrite lookup_insert_ne in Hy; [done|]. intros ->. congruence.
  - intros Hy. rewrite lookup_insert_ne; [by apply Hloc|]. intros ->. congruence.
  - intros n Hn. rewrite lookup_insert_ne; [by apply Hint|].
    intros ->. by rewrite is_const_name_const_name in Hx.
Qed.

Lemma const_invariant_fresh_inner ty :
  advances (const_invariant fname) any_error (fresh_inner_var ty) [].
Proof.
  intros cs st H. unfold fresh_inner_var. run. simpl.
  destruct (const_invariant_add_local cs
    (with_tmp_counter (wrap_int (m_tmp_counter st + 1)) st)
    ("_inner" +:+ to_string (m_tmp_counter st)) ty) as (st' & Hrun & H');
    [apply is_const_name_inner|by eapply const_invariant_fields; [..|exact H]|].
  rewrite Hrun. exact H'.
Qed.

Lemma const_invariant_fresh_non_inner ty :
  advances (const_invariant fname) any_error (fresh_non_inner_var ty) [].
Proof.
  intros cs st H. unfold fresh_non_inner_var. run. simpl.
  destruct (const_invariant_add_local cs
    (with_tmp_counter (wrap_int (m_tmp_counter st + 1)) st)
    ("_tmp" +:+ to_string (m_tmp_counter st)) ty) as (st' & Hrun & H');
    [apply is_const_name_tmp|by eapply const_invariant_fields; [..|exact H]|].
  rewrite Hrun. exact H'.
Qed.

Lemma const_invariant_const_var n :
  advances (const_invariant fname) any_error (const_var n) [n].
Proof.
  intros cs st (fn & rest & Hcur & Hfn & Htv & Hpos & Hrest & Hnd & Hloc & Hint).
  assert (get_current_fun st = (inr fn, st)) as Hget.
  { unfold get_current_fun, current_fun. rewrite Hcur. simpl.
    unfold FuncId. by rewrite Hfn. }
  unfold const_var. run. rewrite Hget. run.
  unfold add_consts. simpl. unfold add_const.
  destruct (LIR.locals fn !! const_name n) as [t|] eqn:Hlook.
  - run. rewrite decide_True.
    + exists fn, rest. done.
    + apply Hloc; [apply is_const_name_const_name|]. by rewrite Hlook.
  - assert (const_name n ∉ const_name <$> cs) as Hnew.
    { intros Hin. apply Hloc in Hin; [|apply is_const_name_const_name].
      rewrite Hlook in Hin. by destruct Hin. }
    rewrite decide_False by done.
    run. unfold modify_current_fun. rewrite Hcur. cbv beta iota.
    unfold FuncId. rewrite Hfn. run. simpl.
    rewrite Htv, Hpos, <- (length_fmap (TvInst ∘ const_inst) cs).
    fold (const_inst n). rewrite tv_insert_after_consts. run. simpl.
    exists (LIR.with_locals <[const_name n := LIR.IntType]> fn), rest. simpl.
    rewrite lookup_insert_eq, !length_fmap, length_app, !fmap_app. simpl.
    repeat split; try done.
    + f_equal. lia.
    + apply NoDup_app. split; [done|]. split; [|apply NoDup_singleton].
      intros x Hx Hx'. apply list_elem_of_singleton in Hx' as ->. done.
    + intros Hx. apply elem_of_app.
      destruct (decide (x = const_name n)) as [->|Hne]; [right; by left|].
      left. apply Hloc; [done|]. by rewrite lookup_insert_ne in Hx.
    + intros Hx. apply elem_of_app in Hx as [Hx|Hx].
      * destruct (decide (x = const_name n)) as [->|Hne];
          [by rewrite lookup_insert_eq|].
        rewrite lookup_insert_ne by done. by apply Hloc.
      * apply list_elem_of_singleton in Hx as ->. by rewrite lookup_insert_eq.
    + intros k Hk. apply elem_of_app in Hk as [Hk|Hk].
      * destruct (decide (const_name k = const_name n)) as [->|Hne];
          [by rewrite lookup_insert_eq|].
        rewrite lookup_insert_ne by done. by apply Hint.
      * apply list_elem_of_singleton in Hk as ->. by rewrite lookup_insert_eq.
Qed.

(** Lowering a statement keeps the invariant and extends the constants by
    the first uses the statement makes. *)
Lemma const_invariant_lower_stmt s :
  advances (const_invariant fname) any_error (lower_stmt s) (const_uses_Stmt s).
Proof.
  apply (adv_lower_stmt (const_invariant fname) any_error).
  - done.
  - intros cs st item. apply const_invariant_emit.
  - intros cs st x. by apply const_invariant_fields.
  - intros cs st n. by apply const_invariant_fields.
  - intros cs st f. by apply const_invariant_fields.
  - intros cs st f. by apply const_invariant_fields.
  - apply const_invariant_fresh_inner.
  - apply const_invariant_fresh_non_inner.
  - apply const_invariant_const_var.
Qed.
End Const_invariant.

(** ** Lowering writes nothing but locals of the current function *)

Lemma with_locals_id fn : LIR.with_locals (λ _, LIR.locals fn) fn = fn.
Proof. by destruct fn. Qed.

Lemma with_functions_insert_id (f : string) fn prog :
  LIR.functions prog !! f = Some fn → LIR.with_functions <[f := fn]> prog = prog.
Proof. intros H. destruct prog; unfold LIR.with_functions; simpl in *. by rewrite insert_id. Qed.

Section Frame.
Variables (f : string) (prog0 : LIR.Program) (fn0 : LIR.Function).

Lemma only_locals_changed_init st :
  m_current_fun st = Some f →
  m_lir_prog st = prog0 →
  LIR.functions prog0 !! f = Some fn0 →
  only_locals_changed f prog0 fn0 st.
Proof.
  intros Hcur Hprog Hfn. split; [done|]. exists (LIR.locals fn0). split; [done|].
  by rewrite with_locals_id, with_functions_insert_id.
Qed.

Lemma only_locals_changed_fields st st' :
  m_lir_prog st' = m_lir_prog st →
  m_current_fun st' = m_current_fun st →
  only_locals_changed f prog0 fn0 st → only_locals_changed f prog0 fn0 st'.
Proof. intros Hp Hc [Hcur H]. split; [congruence|]. by rewrite Hp. Qed.

Lemma only_locals_changed_current st :
  only_locals_changed f prog0 fn0 st →
  ∃ L, dom (LIR.locals fn0) ⊆ dom L
       ∧ current_fun st = Some (LIR.with_locals (λ _, L) fn0)
       ∧ m_lir_prog st = LIR.with_functions <[f := LIR.with_locals (λ _, L) fn0]> prog0.
Proof.
  intros [Hcur (L & Hdom & Hprog)]. exists L. split; [done|]. split; [|done].
  unfold current_fun. rewrite Hcur, Hprog. simpl. apply lookup_insert_eq.
Qed.

Lemma only_locals_changed_add_local st (x : string) ty :
  only_locals_changed f prog0 fn0 st →
  ∃ st', modify_current_fun (LIR.with_locals <[x := ty]>) st = (inr (), st')
         ∧ only_locals_changed f prog0 fn0 st'.
Proof.
  intros [Hcur (L & Hdom & Hprog)].
  eexists. split.
  - unfold modify_current_fun. rewrite Hcur. cbv beta iota. rewrite Hprog. simpl.
    unfold FuncId. rewrite lookup_insert_eq. reflexivity.
  - split; [done|]. exists (<[x := ty]> L). split.
    + rewrite dom_insert. set_solver.
    + simpl. rewrite Hprog. unfold LIR.with_functions, LIR.with_locals. simpl.
      by rewrite insert_insert_eq.
Qed.

Lemma frame_fresh_inner ty :
  advances (λ _, only_locals_changed f prog0 fn0) any_error (fresh_inner_var ty) [].
Proof.
  intros cs st H. unfold fresh_inner_var. run.
  destruct (only_locals_changed_add_local
    (with_tmp_counter (wrap_int (m_tmp_counter st + 1)) st)
    ("_inner" +:+ to_string (m_tmp_counter st)) ty) as (st' & Hrun & H');
    [by eapply only_locals_changed_fields; [..|exact H]|].
  rewrite Hrun. exact H'.
Qed.

Lemma frame_fresh_non_inner ty :
  advances (λ _, only_locals_changed f prog0 fn0) any_error (fresh_non_inner_var ty) [].
Proof.
  intros cs st H. unfold fresh_non_inner_var. run.
  destruct (only_locals_changed_add_local
    (with_tmp_counter (wrap_int (m_tmp_counter st + 1)) st)
    ("_tmp" +:+ to_string (m_tmp_counter st)) ty) as (st' & Hrun & H');
    [by eapply only_locals_changed_fields; [..|exact H]|].
  rewrite Hrun. exact H'.
Qed.

Lemma frame_const_var n :
  advances (λ _, only_locals_changed f prog0 fn0) any_error (const_var n) [n].
Proof.
  intros cs st H.
  destruct (only_locals_changed_current st H) as (L & Hdom & Hfn & Hprog).
  unfold const_var. run. unfold get_current_fun. rewrite Hfn. run.
  destruct (LIR.locals _ !! const_name n) as [t|]; run; [done|].
  destruct (only_locals_changed_add_local st (const_name n) LIR.IntType H)
    as (st' & Hrun & H').
  rewrite Hrun. run. destruct (tv_insert _ _ _) as [tv'|]; run; [|done].
  by eapply only_locals_changed_fields; [..|exact H'].
Qed.

Lemma frame_lower_stmt s :
  advances (λ _, only_locals_changed f prog0 fn0) any_error (lower_stmt s)
    (const_uses_Stmt s).
Proof.
  apply (adv_lower_stmt (λ _, only_locals_changed f prog0 fn0) any_error).
  - done.
  - intros cs st item _. by apply only_locals_changed_fields.
  - intros cs st x. by apply only_locals_changed_fields.
  - intros cs st n. by apply only_locals_changed_fields.
  - intros cs st g. by apply only_locals_changed_fields.
  - intros cs st g. by apply only_locals_changed_fields.
  - apply frame_fresh_inner.
  - apply frame_fresh_non_inner.
  - apply frame_const_var.
Qed.

Lemma frame_lower_exp e :
  advances (λ _, only_locals_changed f prog0 fn0) any_error (lower_exp e)
    (const_uses_Exp e).
Proof.
  apply (adv_lower_exp (λ _, only_locals_changed f prog0 fn0) any_error).
  - done.
  - intros cs st item _. by apply only_locals_changed_fields.
  - intros cs st x. by apply only_locals_changed_fields.
  - intros cs st n. by apply only_locals_changed_fields.
  - apply frame_fresh_inner.
  - apply frame_fresh_non_inner.
  - apply frame_const_var.
Qed.
End Frame.

(** ** [build_cfg] against the block map it computes *)

Lemma with_body_id fn : LIR.with_body (λ _, LIR.body fn) fn = fn.
Proof. by destruct fn. Qed.

Lemma with_lir_prog_id st : with_lir_prog (λ _, m_lir_prog st) st = st.
Proof. by destruct st. Qed.

Lemma set_body_id (f : string) fn st :
  LIR.functions (m_lir_prog st) !! f = Some fn → set_body f fn (LIR.body fn) st = st.
Proof.
  intros H. unfold set_body. rewrite with_body_id.
  rewrite <- (with_lir_prog_id st) at 2. unfold with_lir_prog. simpl.
  by rewrite (with_functions_insert_id f fn).
Qed.

Lemma set_body_set_body (f : string) fn B1 B2 st :
  set_body f (LIR.with_body (λ _, B1) fn) B2 (set_body f fn B1 st) = set_body f fn B2 st.
Proof.
  unfold set_body, with_lir_prog, LIR.with_functions, LIR.with_body. simpl.
  by rewrite insert_insert_eq.
Qed.

Lemma set_body_lookup (f : string) fn B st :
  LIR.functions (m_lir_prog (set_body f fn B st)) !! f = Some (LIR.with_body (λ _, B) fn).
Proof. simpl. apply lookup_insert_eq. Qed.

Lemma modify_current_body (f : string) fn g st :
  m_current_fun st = Some f →
  LIR.functions (m_lir_prog st) !! f = Some fn →
  modify_current_fun (LIR.with_body g) st = (inr (), set_body f fn (g (LIR.body fn)) st).
Proof.
  intros Hcur Hfn. unfold modify_current_fun. rewrite Hcur. cbv beta iota.
  unfold FuncId. rewrite Hfn. reflexivity.
Qed.

Lemma cfg_step_scan_step (f : string) fn (current_bb : option BbId) item st :
  m_current_fun st = Some f →
  LIR.functions (m_lir_prog st) !! f = Some fn →
  match scan_step (LIR.name fn +:+ "_entry") (LIR.body fn) current_bb item with
  | Some (body', current_bb') =>
      cfg_step current_bb item st = (inr current_bb', set_body f fn body' st)
  | None => cfg_step current_bb item st = (inl out_of_range, st)
  end.
Proof.
  intros Hcur Hfn.
  assert (get_current_fun st = (inr fn, st)) as Hget.
  { unfold get_current_fun, current_fun. rewrite Hcur. simpl.
    unfold FuncId. by rewrite Hfn. }
  destruct item as [name|i|t]; simpl.
  - run. by rewrite (modify_current_body f fn).
  - destruct current_bb as [bb|].
    + run. by rewrite (modify_current_body f fn).
    + run. rewrite Hget. run.
      destruct (LIR.body fn !! _); run; [|done].
      by rewrite (modify_current_body f fn).
  - destruct current_bb as [bb|]; run.
    + by rewrite (modify_current_body f fn).
    + by rewrite set_body_id.
Qed.

Lemma cfg_scan_scan_body (f : string) tv : ∀ fn (current_bb : option BbId) st,
  m_current_fun st = Some f →
  LIR.functions (m_lir_prog st) !! f = Some fn →
  match scan_body (LIR.name fn +:+ "_entry") tv (LIR.body fn) current_bb with
  | Some body' => cfg_scan tv current_bb st = (inr (), set_body f fn body' st)
  | None => ∃ st', cfg_scan tv current_bb st = (inl out_of_range, st')
  end.
Proof.
  induction tv as [|item tv IH]; intros fn current_bb st Hcur Hfn; simpl.
  - by rewrite set_body_id.
  - pose proof (cfg_step_scan_step f fn current_bb item st Hcur Hfn) as Hstep.
    destruct (scan_step _ _ _ _) as [[body1 cur1]|]; run; rewrite Hstep; run; [|eauto].
    specialize (IH (LIR.with_body (λ _, body1) fn) cur1 (set_body f fn body1 st)
                  Hcur (set_body_lookup f fn body1 st)).
    simpl in IH. destruct (scan_body _ tv body1 cur1) as [body'|].
    + by rewrite IH, set_body_set_body.
    + exact IH.
Qed.

(** ** Where the [Const] instructions end up *)

Lemma consts_lead_alter (e : string) cs (g : LIR.BasicBlock → LIR.BasicBlock)
    (l : string) body :
  (∀ bb, ∃ extra, LIR.insts (g bb) = LIR.insts bb ++ extra ∧ no_const extra) →
  consts_lead_entry e cs body → consts_lead_entry e cs (alter g l body).
Proof.
  intros Hg [(bb & others & Hbb & Hinsts & Hothers) Hrest]. split.
  - destruct (decide (l = e)) as [->|Hne].
    + destruct (Hg bb) as (extra & Hextra & Hnc).
      exists (g bb), (others ++ extra). rewrite lookup_alter_eq, Hbb. split; [done|].
      split; [by rewrite Hextra, Hinsts, app_assoc|by apply Forall_app].
    + exists bb, others. by rewrite lookup_alter_ne.
  - intros l' bb' Hl'. destruct (decide (l = l')) as [->|Hne].
    + rewrite lookup_alter_eq. destruct (body !! l') as [bb0|] eqn:Hbb0; [|done].
      intros [= <-]. destruct (Hg bb0) as (extra & -> & Hnc).
      apply Forall_app. split; [by eapply Hrest|done].
    + rewrite lookup_alter_ne by done. by apply Hrest.
Qed.

Lemma consts_lead_get_or_create (e : string) cs (name : string) body :
  consts_lead_entry e cs body → consts_lead_entry e cs (get_or_create name body).
Proof.
  intros H. unfold get_or_create, BbId.
  destruct (body !! name) eqn:Hname; [done|].
  destruct H as [(bb & others & Hbb & Hinsts & Hothers) Hrest]. split.
  - exists bb, others. rewrite lookup_insert_ne; [done|]. intros ->. congruence.
  - intros l' bb' Hl'. destruct (decide (name = l')) as [->|Hne].
    + rewrite lookup_insert_eq. intros [= <-]. constructor.
    + rewrite lookup_insert_ne by done. by apply Hrest.
Qed.

Lemma consts_lead_scan_step (e e' : string) cs body current_bb item body' current_bb' :
  is_const_item item = false →
  consts_lead_entry e cs body →
  scan_step e' body current_bb item = Some (body', current_bb') →
  consts_lead_entry e cs body'.
Proof.
  intros Hitem H. destruct item as [name|i|t]; simpl.
  - intros [= <- <-]. apply consts_lead_alter; [|by apply consts_lead_get_or_create].
    intros bb. exists []. split; [by rewrite app_nil_r|constructor].
  - assert (∀ bb, ∃ extra, LIR.insts (push_inst i bb) = LIR.insts bb ++ extra
                           ∧ no_const extra) as Hpush.
    { intros bb. exists [i]. split; [done|]. by repeat constructor. }
    destruct current_bb as [bb|].
    + intros [= <- <-]. by apply consts_lead_alter.
    + destruct (body !! e'); [|done]. intros [= <- <-]. by apply consts_lead_alter.
  - destruct current_bb as [bb|]; intros [= <- <-]; [|done].
    apply consts_lead_alter; [|done].
    intros bb0. exists []. split; [by rewrite app_nil_r|constructor].
Qed.

Lemma consts_lead_scan_body (e e' : string) cs tv : ∀ body current_bb body',
  Forall (λ item, is_const_item item = false) tv →
  consts_lead_entry e cs body →
  scan_body e' tv body current_bb = Some body' →
  consts_lead_entry e cs body'.
Proof.
  induction tv as [|item tv IH]; intros body current_bb body' Htv H; simpl.
  - by intros [= <-].
  - apply Forall_cons in Htv as [Hitem Htv].
    destruct (scan_step e' body current_bb item) as [[body1 cur1]|] eqn:Hstep; [|done].
    apply IH; [done|]. by eapply consts_lead_scan_step.
Qed.

Lemma scan_body_insts (e' : string) (l : string) insts rest : ∀ body bb,
  body !! l = Some bb →
  scan_body e' ((TvInst <$> insts) ++ rest) body (Some l)
  = scan_body e' rest
      (<[l := {| LIR.label := LIR.label bb; LIR.insts := LIR.insts bb ++ insts;
                 LIR.term := LIR.term bb |}]> body) (Some l).
Proof.
  induction insts as [|i insts IH]; intros body bb Hbb; simpl.
  - rewrite app_nil_r. f_equal. rewrite insert_id; [done|]. rewrite Hbb. by destruct bb.
  - rewrite (IH _ (push_inst i bb)); [|by rewrite lookup_alter_eq, Hbb].
    f_equal. simpl. rewrite <- app_assoc. simpl.
    apply map_eq. intros k. destruct (decide (l = k)) as [->|Hne].
    + by rewrite !lookup_insert_eq.
    + by rewrite !lookup_insert_ne, lookup_alter_ne.
Qed.

(** From an empty body, a vector that starts with the entry label and the
    [Const]s of [cs] and holds no other [Const] gives a body whose entry
    block is led by those [Const]s. *)
Lemma consts_lead_scan_from_empty (e e' : string) cs rest body' :
  Forall (λ item, is_const_item item = false) rest →
  scan_body e' (TvLabel e :: ((TvInst ∘ const_inst) <$> cs) ++ rest) ∅ None = Some body' →
  consts_lead_entry e cs body'.
Proof.
  intros Hrest. simpl. unfold get_or_create, BbId. rewrite lookup_empty.
  rewrite list_fmap_compose.
  rewrite (scan_body_insts e' e _ rest _ (set_label e LIR.empty_BasicBlock));
    [|by rewrite lookup_alter_eq, lookup_insert_eq].
  apply consts_lead_scan_body; [done|]. split.
  - eexists _, []. rewrite lookup_insert_eq. split; [done|]. simpl.
    split; [by rewrite app_nil_r|constructor].
  - intros l bb Hl. rewrite lookup_insert_ne by done.
    rewrite lookup_alter_ne by done. rewrite lookup_insert_ne by done.
    by rewrite lookup_empty.
Qed.

(** ** The constant holders of a lowered function *)

Lemma set_context_run fname st fn :
  LIR.functions (m_lir_prog st) !! fname = Some fn →
  set_context fname st
  = (inr (), with_const_insert_pos 1 (with_tmp_counter 0 (with_label_counter 0
               (with_tv (λ _, []) (with_current_fun (Some fname) st))))).
Proof.
  intros Hfn. unfold set_context. run. unfold FuncId in *. rewrite Hfn. run. reflexivity.
Qed.

Lemma const_invariant_at_entry (fname : string) st fn :
  m_current_fun st = Some fname →
  LIR.functions (m_lir_prog st) !! fname = Some fn →
  (∀ x : string, is_const_name x = true → LIR.locals fn !! x = None) →
  m_tv st = [TvLabel (fname +:+ "_entry")] →
  m_const_insert_pos st = 1 →
  const_invariant fname [] st.
Proof.
  intros Hcur Hfn Hnone Htv Hpos. exists fn, []. repeat split; try done.
  - constructor.
  - intros Hx. rewrite Hnone in Hx by done. by destruct Hx.
  - intros Hx. by apply elem_of_nil in Hx.
  - intros k Hk. by apply elem_of_nil in Hk.
Qed.

Lemma const_invariant_implicit_return (fname : string) cs st :
  const_invariant fname cs st →
  ∃ st', add_implicit_return st = (inr (), st')
         ∧ m_lir_prog st' = m_lir_prog st
         ∧ m_current_fun st' = m_current_fun st
         ∧ const_invariant fname cs st'.
Proof.
  intros H. unfold add_implicit_return. run. destruct (has_ret (m_tv st)); run.
  - by exists st.
  - eexists. split; [reflexivity|]. repeat split; [by apply const_invariant_emit].
Qed.

Lemma const_holders_in_function (n n' : AST.FunctionDef) (st st' : Lowerer)
    (fn : LIR.Function) :
  LIR.functions (m_lir_prog st) !! AST.name n = Some fn →
  (∀ x : string, is_const_name x = true → LIR.locals fn !! x = None) →
  LIR.body fn = ∅ →
  visit_FunctionDef n st = (inr n', st') →
  let cs := first_uses (const_uses_Stmt (AST.body n)) in
  ∃ fn',
    LIR.functions (m_lir_prog st') !! AST.name n = Some fn'
    ∧ consts_lead_entry (AST.name n +:+ "_entry") cs (LIR.body fn')
    ∧ NoDup (const_name <$> cs)
    ∧ (∀ x : string, is_const_name x = true →
         (is_Some (LIR.locals fn' !! x) ↔ x ∈ const_name <$> cs))
    ∧ (∀ k, k ∈ cs → LIR.locals fn' !! const_name k = Some LIR.IntType).
Proof.
  intros Hfn Hnone Hbody. unfold visit_FunctionDef. run.
  rewrite (set_context_run _ _ fn Hfn). run.
  set (st2 := with_tv (λ tv, tv ++ _) _).
  assert (const_invariant (AST.name n) [] st2) as Hci
    by (by apply (const_invariant_at_entry _ _ fn)).
  assert (only_locals_changed (AST.name n) (m_lir_prog st) fn st2) as Hfr
    by (by apply only_locals_changed_init).
  apply (const_invariant_lower_stmt _ (AST.body n)) in Hci.
  apply (frame_lower_stmt _ _ _ (AST.body n) []) in Hfr.
  destruct (lower_stmt (AST.body n) st2) as [[err|body'] st3]; [done|]. run.
  destruct (const_invariant_implicit_return _ _ _ Hci) as (st4 & -> & Hprog & Hcur & Hci4).
  run. unfold build_cfg. run.
  destruct Hfr as [Hcur3 (L & _ & Hprog3)].
  destruct Hci4 as (fn4 & rest & _ & Hfn4 & Htv & _ & Hrest & Hnd & Hloc & Hint).
  assert (fn4 = LIR.with_locals (λ _, L) fn) as Hfn4'.
  { rewrite Hprog, Hprog3 in Hfn4. simpl in Hfn4.
    rewrite lookup_insert_eq in Hfn4. congruence. }
  pose proof (cfg_scan_scan_body (AST.name n) (m_tv st4) fn4 None st4
                ltac:(congruence) Hfn4) as Hscan.
  subst fn4. simpl in Hscan. rewrite Hbody in Hscan. unfold BbId in *.
  destruct (scan_body (LIR.name fn +:+ "_entry") (m_tv st4) ∅ None) as [B|] eqn:HB.
  - rewrite Hscan. run. intros [= _ <-].
    eexists. split; [apply set_body_lookup|].
    split; [|done]. simpl. rewrite Htv in HB.
    by eapply (consts_lead_scan_from_empty _ _ _ rest).
  - destruct Hscan as [st5 ->]. run. done.
Qed.

(** ** [const_var] and the names it gives *)

Lemma wrap_int_small z : (INT_MIN ≤ z ≤ INT_MAX)%Z → wrap_int z = z.
Proof.
  unfold wrap_int, INT_MIN, INT_MAX. intros H.
  rewrite Z.mod_small by lia. lia.
Qed.

Lemma const_var_old n st fn :
  current_fun st = Some fn →
  is_Some (LIR.locals fn !! const_name n) →
  const_var n st = (inr (const_name n), st).
Proof.
  intros Hfn [t Ht]. unfold const_var. run. unfold get_current_fun. rewrite Hfn. run.
  rewrite Ht. run. reflexivity.
Qed.

Lemma const_var_new n st fn :
  current_fun st = Some fn →
  LIR.locals fn !! const_name n = None →
  m_const_insert_pos st ≤ length (m_tv st) →
  ∃ st', const_var n st = (inr (const_name n), st')
    ∧ m_tv st' = take (m_const_insert_pos st) (m_tv st)
                 ++ TvInst (const_inst n) :: drop (m_const_insert_pos st) (m_tv st)
    ∧ m_const_insert_pos st' = S (m_const_insert_pos st)
    ∧ current_locals st' = <[const_name n := LIR.IntType]> (current_locals st).
Proof.
  intros Hfn Hnone Hpos. unfold const_var. run. unfold get_current_fun. rewrite Hfn. run.
  rewrite Hnone. run.
  unfold current_locals. rewrite Hfn.
  unfold current_fun in Hfn.
  destruct (m_current_fun st) as [f|] eqn:Hcur; [|done]. simpl in Hfn.
  unfold modify_current_fun. rewrite Hcur. cbv beta iota. rewrite Hfn. run. simpl.
  rewrite tv_insert_in_range by done. run.
  eexists. split; [reflexivity|]. simpl. repeat split.
  unfold current_fun. simpl. rewrite Hcur. simpl. by rewrite lookup_insert_eq.
Qed.

Lemma const_var_past_end n st fn :
  current_fun st = Some fn →
  LIR.locals fn !! const_name n = None →
  length (m_tv st) < m_const_insert_pos st →
  (const_var n st).1 = inl invalid_iterator.
Proof.
  intros Hfn Hnone Hpos. unfold const_var. run. unfold get_current_fun. rewrite Hfn. run.
  rewrite Hnone. run.
  unfold current_fun in Hfn.
  destruct (m_current_fun st) as [f|] eqn:Hcur; [|done]. simpl in Hfn.
  unfold modify_current_fun. rewrite Hcur. cbv beta iota. rewrite Hfn. run. simpl.
  by rewrite (proj2 (tv_insert_None _ _ _) Hpos).
Qed.

(** What an insertion does to the positions of a vector. *)
Lemma lookup_inserted {A} (pos : nat) (x : A) (l : list A) :
  pos ≤ length l →
  (take pos l ++ x :: drop pos l) !! pos = Some x
  ∧ (∀ i, i < pos → (take pos l ++ x :: drop pos l) !! i = l !! i)
  ∧ (∀ i, pos ≤ i → (take pos l ++ x :: drop pos l) !! S i = l !! i).
Proof.
  intros Hpos.
  assert (length (take pos l) = pos) as Hlen by (rewrite length_take; lia).
  split; [by apply list_lookup_middle|]. split.
  - intros i Hi. rewrite lookup_app_l by lia. by apply lookup_take_lt.
  - intros i Hi. rewrite lookup_app_r by lia. rewrite Hlen.
    replace (S i - pos) with (S (i - pos)) by lia. simpl.
    rewrite lookup_drop. f_equal. lia.
Qed.

Lemma pretty_N_go_head x : ∀ s,
  (0 < x)%N → ∃ c s', pretty_N_go x s = String c s' ∧ c ≠ "n"%char ∧ c ≠ "-"%char.
Proof.
  induction (N.lt_wf_0 x) as [x _ IH]. intros s Hx.
  rewrite pretty_N_go_step by done.
  destruct (decide (x `div` 10 = 0)%N) as [->|Hne].
  - rewrite pretty_N_go_0. eexists _, _. split; [reflexivity|].
    unfold pretty_N_char. by repeat case_match.
  - apply IH; [apply N.div_lt; [done|reflexivity]|by apply N.neq_0_lt_0].
Qed.

Lemma pretty_nonneg_head (z : Z) :
  (0 ≤ z)%Z → ∃ c s', pretty z = String c s' ∧ c ≠ "n"%char ∧ c ≠ "-"%char.
Proof.
  intros Hz. destruct z as [|p|p]; [| |lia].
  - by eexists _, _.
  - exact (pretty_N_go_head (N.pos p) "" eq_refl).
Qed.

(** The name is [_const_] followed by the decimal digits of the absolute
    value, with an [n] in front of them for a negative number. *)
Lemma const_name_format n :
  (INT_MIN < n ≤ INT_MAX)%Z →
  const_name n
  = "_const_" +:+ (if bool_decide (n < 0)%Z then "n" else "") +:+ to_string (Z.abs n).
Proof.
  unfold INT_MIN, INT_MAX. intros Hn. unfold const_name. case_bool_decide.
  - rewrite wrap_int_small by (unfold INT_MIN, INT_MAX; lia).
    by rewrite Z.abs_neq by lia.
  - by rewrite Z.abs_eq by lia.
Qed.

(** Different integers get different names. *)
Lemma const_name_inj n m :
  (INT_MIN < n ≤ INT_MAX)%Z → (INT_MIN < m ≤ INT_MAX)%Z →
  const_name n = const_name m → n = m.
Proof.
  intros Hn Hm. rewrite !const_name_format by done.
  unfold INT_MIN, INT_MAX in *. simpl. intros [= H].
  unfold to_string in H. repeat case_bool_decide; simpl in H.
  - injection H as H. apply pretty_Z_inj in H. lia.
  - destruct (pretty_nonneg_head (Z.abs m)) as (c & s' & Hc & Hcn & _); [lia|].
    rewrite Hc in H. by injection H as <- _.
  - destruct (pretty_nonneg_head (Z.abs n)) as (c & s' & Hc & Hcn & _); [lia|].
    rewrite Hc in H. by injection H as -> _.
  - apply pretty_Z_inj in H. lia.
Qed.

Lemma add_const_names cs n :
  ∀ x, x ∈ const_name <$> add_const cs n ↔ x ∈ const_name <$> cs ∨ x = const_name n.
Proof.
  intros x. unfold add_const. case_decide as Hin.
  - split; [by left|]. intros [H| ->]; done.
  - rewrite fmap_app, elem_of_app. simpl. rewrite list_elem_of_singleton. done.
Qed.

Lemma add_consts_names uses : ∀ cs x,
  x ∈ const_name <$> add_consts cs uses
  ↔ x ∈ const_name <$> cs ∨ x ∈ const_name <$> uses.
Proof.
  induction uses as [|n uses IH]; intros cs x; simpl.
  - split; [by left|]. intros [H|H]; [done|by apply elem_of_nil in H].
  - unfold add_consts in *. simpl. rewrite IH, add_const_names, elem_of_cons. tauto.
Qed.

Lemma set_context_inv fname st st' :
  set_context fname st = (inr (), st') →
  m_const_insert_pos st' = 1 ∧ m_tv st' = [] ∧ m_current_fun st' = Some fname
  ∧ m_lir_prog st' = m_lir_prog st.
Proof.
  destruct (LIR.functions (m_lir_prog st) !! fname) as [fn|] eqn:Hfn.
  - rewrite (set_context_run _ _ fn Hfn). by intros [= <-].
  - unfold set_context. run. unfold FuncId in *. rewrite Hfn. run. done.
Qed.

(** ** Constant holders: what a user of the lowerer can rely on *)

(** The first use of an integer in a function registers its holder as an
    [int] local and inserts its [Const] at [m_const_insert_pos], provided
    that position lies within the translation vector: the [Const] is then
    the item at that position, the items in front of it stay where they
    were, those from it on move one place back, and the position advances
    by one.  Any later use returns the same name and leaves the lowerer as
    it is.  A first use with the position behind the end of the vector is an
    insertion past the end. *)
Theorem const_var_registers_once (n : Z) (st : Lowerer) (fn : LIR.Function) :
  current_fun st = Some fn →
  (is_Some (LIR.locals fn !! const_name n) →
   const_var n st = (inr (const_name n), st))
  ∧ (LIR.locals fn !! const_name n = None →
     m_const_insert_pos st ≤ length (m_tv st) →
     ∃ st', const_var n st = (inr (const_name n), st')
       ∧ m_tv st' !! m_const_insert_pos st = Some (TvInst (LIR.Const (const_name n) n))
       ∧ (∀ i, i < m_const_insert_pos st → m_tv st' !! i = m_tv st !! i)
       ∧ (∀ i, m_const_insert_pos st ≤ i → m_tv st' !! S i = m_tv st !! i)
       ∧ m_const_insert_pos st' = S (m_const_insert_pos st)
       ∧ current_locals st' = <[const_name n := LIR.IntType]> (current_locals st)
       ∧ const_var n st' = (inr (const_name n), st'))
  ∧ (LIR.locals fn !! const_name n = None →
     length (m_tv st) < m_const_insert_pos st →
     (const_var n st).1 = inl invalid_iterator).
Proof.
  intros Hfn. split; [by apply const_var_old|]. split; [|by apply const_var_past_end].
  intros Hnone Hpos.
  destruct (const_var_new n st fn Hfn Hnone Hpos) as (st' & H1 & H2 & H3 & H4).
  destruct (lookup_inserted (m_const_insert_pos st) (TvInst (const_inst n)) (m_tv st) Hpos)
    as (Hat & Hbefore & Hafter).
  exists st'. split; [done|]. rewrite H2. do 5 (split; [done|]).
  unfold current_locals in H4. rewrite Hfn in H4.
  destruct (current_fun st') as [fn'|] eqn:Hfn'.
  - apply (const_var_old n st' fn' Hfn'). rewrite H4, lookup_insert_eq. by eexists.
  - exfalso. apply (f_equal (λ m : gmap string LIR.Ty, m !! const_name n)) in H4.
    by rewrite lookup_insert_eq in H4.
Qed.

(** In [main] of [Examples.prog_literals], behind the entry label: the
    holder of 5 becomes the second item, and the position moves to 2. *)
Lemma const_var_registers_once_in_main_literals :
  ∃ st', const_var 5 (Examples.state_in Examples.prog_literals "main") = (inr "_const_5", st')
    ∧ m_tv st' = [TvLabel "main_entry"; TvInst (LIR.Const "_const_5" 5)]
    ∧ m_const_insert_pos st' = 2
    ∧ const_var 5 st' = (inr "_const_5", st').
Proof.
  assert (current_fun (Examples.state_in Examples.prog_literals "main")
          = Some (function_shell Examples.main_literals)) as Hfn
    by (vm_compute; reflexivity).
  assert (LIR.locals (function_shell Examples.main_literals) !! const_name 5 = None)
    as Hnone by (vm_compute; reflexivity).
  assert (m_const_insert_pos (Examples.state_in Examples.prog_literals "main")
          ≤ length (m_tv (Examples.state_in Examples.prog_literals "main"))) as Hpos
    by (vm_compute; constructor).
  destruct (proj1 (proj2 (const_var_registers_once 5 _ _ Hfn)) Hnone Hpos)
    as (st' & H1 & _ & _ & _ & H3 & _ & H5).
  exists st'. split; [exact H1|].
  split; [|split; [exact H3|exact H5]].
  assert (const_var 5 (Examples.state_in Examples.prog_literals "main")
          = (inr "_const_5",
             (const_var 5 (Examples.state_in Examples.prog_literals "main")).2)) as H
    by (vm_compute; reflexivity).
  rewrite H in H1. injection H1 as <-. vm_compute; reflexivity.
Defined.

(** Holders of different integers have different names, and the name shows
    the integer: [_const_] followed by its decimal digits, with [n] before
    them when it is negative.  ([INT_MIN] is left out: negating it
    overflows.) *)
Theorem const_names_tell_integers_apart (n m : Z) :
  (INT_MIN < n ≤ INT_MAX)%Z → (INT_MIN < m ≤ INT_MAX)%Z →
  const_name n
  = "_const_" +:+ (if bool_decide (n < 0)%Z then "n" else "") +:+ to_string (Z.abs n)
  ∧ (const_name n = const_name m → n = m).
Proof.
  intros Hn Hm. split; [by apply const_name_format|by apply const_name_inj].
Qed.

Lemma const_names_of_4_and_minus_4 :
  const_name (-4) = "_const_n4" ∧ (const_name (-4) = const_name 4 → (-4 = 4)%Z).
Proof.
  apply (const_names_tell_integers_apart (-4) 4); unfold INT_MIN, INT_MAX; lia.
Defined.

(** Lowering a function whose declared names are not of the form
    [_const_...] leaves an entry block that begins with one [Const] per
    integer of the body, in the order of first use, and holds no other
    [Const], as no other block does; the locals named [_const_...] are
    exactly these holders, each of type [int], and every integer the body
    uses has one. *)
Theorem const_holders_lead_the_entry_block (n n' : AST.FunctionDef) (st st' : Lowerer)
    (fn : LIR.Function) :
  LIR.functions (m_lir_prog st) !! AST.name n = Some fn →
  (∀ x : string, is_const_name x = true → LIR.locals fn !! x = None) →
  LIR.body fn = ∅ →
  visit_FunctionDef n st = (inr n', st') →
  ∃ fn',
    LIR.functions (m_lir_prog st') !! AST.name n = Some fn'
    ∧ consts_lead_entry (AST.name n +:+ "_entry")
        (first_uses (const_uses_Stmt (AST.body n))) (LIR.body fn')
    ∧ NoDup (const_name <$> first_uses (const_uses_Stmt (AST.body n)))
    ∧ (∀ x : string, is_const_name x = true →
         (is_Some (LIR.locals fn' !! x)
          ↔ x ∈ const_name <$> first_uses (const_uses_Stmt (AST.body n))))
    ∧ (∀ k, k ∈ first_uses (const_uses_Stmt (AST.body n)) →
         LIR.locals fn' !! const_name k = Some LIR.IntType)
    ∧ (∀ k, k ∈ const_uses_Stmt (AST.body n) →
         const_name k ∈ const_name <$> first_uses (const_uses_Stmt (AST.body n))).
Proof.
  intros Hfn Hnone Hbody Hrun.
  destruct (const_holders_in_function n n' st st' fn Hfn Hnone Hbody Hrun)
    as (fn' & H1 & H2 & H3 & H4 & H5).
  exists fn'. do 5 (split; [done|]).
  intros k Hk. apply add_consts_names. right. by apply list_elem_of_fmap_2.
Qed.

(** At [Examples.prog_literals]: the holders of 2, 3, 7 and -4 lead
    [main_entry], in this order. *)
Lemma const_holders_of_main_literals :
  ∃ n' st' fn',
    visit_FunctionDef Examples.main_literals
      (build_shell Examples.prog_literals new_Lowerer).2 = (inr n', st')
    ∧ LIR.functions (m_lir_prog st') !! "main" = Some fn'
    ∧ consts_lead_entry "main_entry" [2; 3; 7; -4]%Z (LIR.body fn')
    ∧ (∀ x : string, is_const_name x = true →
         (is_Some (LIR.locals fn' !! x)
          ↔ x ∈ ["_const_2"; "_const_3"; "_const_7"; "_const_n4"])).
Proof.
  destruct (visit_FunctionDef Examples.main_literals
              (build_shell Examples.prog_literals new_Lowerer).2)
    as [[e|n'] st'] eqn:Hrun; [by vm_compute in Hrun|].
  destruct (const_holders_lead_the_entry_block
              Examples.main_literals n'
              (build_shell Examples.prog_literals new_Lowerer).2 st'
              (function_shell Examples.main_literals))
    as (fn' & H1 & H2 & _ & H4 & _).
  - by vm_compute.
  - intros x Hx. change (LIR.locals (function_shell Examples.main_literals))
      with (<["b" := LIR.IntType]> (<["a" := LIR.IntType]> (∅ : gmap string LIR.Ty))).
    destruct (decide (x = "b")) as [->|Hb]; [done|].
    destruct (decide (x = "a")) as [->|Ha]; [done|].
    by rewrite !lookup_insert_ne.
  - done.
  - exact Hrun.
  - exists n', st', fn'. split; [done|]. split; [exact H1|]. split; [exact H2|exact H4].
Defined.

(** ** What lowering a statement leaves alone *)

(** Lowering a statement or an expression touches, of the LIR program, only
    the locals of the current function, and there it only adds names or gives
    a name a new type: structs, externs, function pointers, every other
    function, and the current function's name, parameters, return type and
    body are as before, and the current function stays the same. *)
Theorem lowering_changes_only_locals (f : string) (fn0 : LIR.Function) (st : Lowerer) :
  m_current_fun st = Some f →
  LIR.functions (m_lir_prog st) !! f = Some fn0 →
  (∀ s s' st', lower_stmt s st = (inr s', st') →
     only_locals_changed f (m_lir_prog st) fn0 st')
  ∧ (∀ e r st', lower_exp e st = (inr r, st') →
       only_locals_changed f (m_lir_prog st) fn0 st').
Proof.
  intros Hcur Hfn.
  pose proof (only_locals_changed_init f (m_lir_prog st) fn0 st Hcur eq_refl Hfn) as H0.
  split.
  - intros s s' st' Hrun.
    pose proof (frame_lower_stmt f (m_lir_prog st) fn0 s [] st H0) as H.
    by rewrite Hrun in H.
  - intros e r st' Hrun.
    pose proof (frame_lower_exp f (m_lir_prog st) fn0 e [] st H0) as H.
    by rewrite Hrun in H.
Qed.

(** For the loop of [Examples.main_literals], lowered in [main]. *)
Lemma lowering_changes_only_locals_in_main_literals :
  ∃ s' st',
    lower_stmt
      (AST.While (AST.BinOp AST.Lt (Examples.var "a") (AST.Num 7))
         (AST.Stmts [AST.Assign (AST.Id "a")
                       (AST.BinOp AST.Add (Examples.var "a") (AST.Num 2))]))
      (Examples.state_in Examples.prog_literals "main") = (inr s', st')
    ∧ only_locals_changed "main"
        (m_lir_prog (Examples.state_in Examples.prog_literals "main"))
        (function_shell Examples.main_literals) st'.
Proof.
  assert (m_current_fun (Examples.state_in Examples.prog_literals "main") = Some "main")
    as Hcur by (vm_compute; reflexivity).
  assert (LIR.functions (m_lir_prog (Examples.state_in Examples.prog_literals "main"))
            !! "main" = Some (function_shell Examples.main_literals))
    as Hfn by (vm_compute; reflexivity).
  destruct (lower_stmt _ (Examples.state_in Examples.prog_literals "main"))
    as [[e|s'] st'] eqn:Hrun; [by vm_compute in Hrun|].
  exists s', st'. split; [reflexivity|].
  exact (proj1 (lowering_changes_only_locals "main" _ _ Hcur Hfn) _ _ _ Hrun).
Defined.

(** ** The control-flow graph *)

Lemma get_or_create_fresh (l : string) (body : gmap string LIR.BasicBlock) :
  body !! l = None → get_or_create l body = <[l := LIR.empty_BasicBlock]> body.
Proof. intros H. unfold get_or_create, BbId. by rewrite H. Qed.

Lemma get_or_create_old (l : string) (body : gmap string LIR.BasicBlock) :
  is_Some (body !! l) → get_or_create l body = body.
Proof. intros [bb H]. unfold get_or_create, BbId. by rewrite H. Qed.

Lemma scan_body_flatten (e : string) blocks : ∀ body,
  NoDup (LIR.label <$> blocks) →
  (∀ bb, bb ∈ blocks → body !! LIR.label bb = None) →
  scan_body e (flatten blocks) body None = Some (blocks_map blocks ∪ body).
Proof.
  induction blocks as [|bb blocks IH]; intros body Hnd Hfresh.
  - simpl. unfold blocks_map. simpl. by rewrite (left_id_L ∅ (∪)).
  - apply NoDup_cons in Hnd as [Hnotin Hnd].
    assert (body !! LIR.label bb = None) as Hbb by (apply Hfresh; left).
    unfold flatten. simpl. rewrite (get_or_create_fresh _ _ Hbb).
    rewrite <- app_assoc.
    rewrite (scan_body_insts e (LIR.label bb) (LIR.insts bb) _ _
               (set_label (LIR.label bb) LIR.empty_BasicBlock));
      [|by rewrite lookup_alter_eq, lookup_insert_eq].
    simpl.
    match goal with
    | |- scan_body _ _ ?b None = _ => replace b with (<[LIR.label bb := bb]> body)
    end.
    2:{ apply map_eq. intros k. destruct (decide (LIR.label bb = k)) as [<-|Hne].
        - rewrite lookup_alter_eq, !lookup_insert_eq. simpl. by destruct bb.
        - by rewrite lookup_alter_ne, !lookup_insert_ne, lookup_alter_ne, lookup_insert_ne. }
    fold (flatten blocks). rewrite IH; [|done|].
    + f_equal. unfold blocks_map. simpl. fold (blocks_map blocks).
      rewrite <- insert_union_r, insert_union_l; [done|].
      apply not_elem_of_list_to_map_1. by rewrite <- list_fmap_compose.
    + intros bb' Hin. rewrite lookup_insert_ne; [apply Hfresh; by right|].
      intros Heq. apply Hnotin. rewrite Heq. by apply list_elem_of_fmap_2.
Qed.

Lemma run_build_cfg (f : string) fn st :
  m_current_fun st = Some f →
  LIR.functions (m_lir_prog st) !! f = Some fn →
  match scan_body (LIR.name fn +:+ "_entry") (m_tv st) (LIR.body fn) None with
  | Some body' => build_cfg st = (inr (), set_body f fn body' st)
  | None => ∃ st', build_cfg st = (inl out_of_range, st')
  end.
Proof.
  intros Hcur Hfn. unfold build_cfg. run.
  exact (cfg_scan_scan_body f (m_tv st) fn None st Hcur Hfn).
Qed.

Lemma get_or_create_lookup_ne (name l : string) (body : gmap string LIR.BasicBlock) :
  name ≠ l → get_or_create name body !! l = body !! l.
Proof.
  intros Hne. destruct (body !! name) as [b|] eqn:Hname.
  - rewrite get_or_create_old; [done|by eexists].
  - rewrite get_or_create_fresh by done. by rewrite lookup_insert_ne.
Qed.

Lemma get_or_create_lookup_eq (l : string) (body : gmap string LIR.BasicBlock) :
  is_Some (get_or_create l body !! l).
Proof.
  destruct (body !! l) as [b|] eqn:Hname.
  - rewrite get_or_create_old; by eexists.
  - rewrite get_or_create_fresh by done. rewrite lookup_insert_eq. by eexists.
Qed.

(** The blocks a step of the scan keeps or adds. *)
Lemma scan_step_dom (e : string) body cur item body' cur' :
  scan_step e body cur item = Some (body', cur') →
  (∀ l : string, is_Some (body' !! l)
     ↔ is_Some (body !! l) ∨ l ∈ labels_of [item]).
Proof.
  intros Hstep l. destruct item as [name|i|t]; simpl in *.
  - injection Hstep as <- <-. rewrite lookup_alter_is_Some, list_elem_of_singleton.
    destruct (decide (name = l)) as [->|Hne].
    + split; [by right|]. intros _. apply get_or_create_lookup_eq.
    + rewrite get_or_create_lookup_ne by done. split; [by left|].
      intros [H|H]; [done|congruence].
  - assert (l ∈ @nil string ↔ False) as -> by (split; [apply not_elem_of_nil|done]).
    destruct cur as [bb|]; [|destruct (body !! e)]; simplify_eq;
      rewrite ?lookup_alter_is_Some; tauto.
  - assert (l ∈ @nil string ↔ False) as -> by (split; [apply not_elem_of_nil|done]).
    destruct cur as [bb|]; simplify_eq; rewrite ?lookup_alter_is_Some; tauto.
Qed.

Lemma labels_of_cons item tv : labels_of (item :: tv) = labels_of [item] ++ labels_of tv.
Proof. unfold labels_of. simpl. by destruct item. Qed.

Lemma scan_body_dom (e : string) tv : ∀ body cur body',
  scan_body e tv body cur = Some body' →
  (∀ l : string, is_Some (body' !! l) ↔ is_Some (body !! l) ∨ l ∈ labels_of tv).
Proof.
  induction tv as [|item tv IH]; intros body cur body' Hscan l; simpl in Hscan.
  - injection Hscan as <-. split; [by left|]. intros [H|H]; [done|by apply elem_of_nil in H].
  - destruct (scan_step e body cur item) as [[body1 cur1]|] eqn:Hstep; [|done].
    rewrite (labels_of_cons item tv), elem_of_app.
    rewrite (IH _ _ _ Hscan), (scan_step_dom _ _ _ _ _ _ Hstep). tauto.
Qed.

Lemma scan_body_total (e : string) tv : ∀ body cur,
  is_Some (body !! e) → is_Some (scan_body e tv body cur).
Proof.
  induction tv as [|item tv IH]; intros body cur He; simpl; [by eexists|].
  destruct (scan_step e body cur item) as [[body1 cur1]|] eqn:Hstep.
  - apply IH. apply (scan_step_dom _ _ _ _ _ _ Hstep). by left.
  - destruct item as [name|i|t]; simpl in Hstep; [done| |by destruct cur].
    destruct cur; [done|]. destruct He as [bb He]. by rewrite He in Hstep.
Qed.

(** Blocks whose label field is their key. *)
Lemma scan_step_labelled (e : string) body cur item body' cur' (L : list string) :
  scan_step e body cur item = Some (body', cur') →
  (∀ l : string, l ∈ L → ∃ bb, body !! l = Some bb ∧ LIR.label bb = l) →
  (∀ l : string, l ∈ L ++ labels_of [item] → ∃ bb, body' !! l = Some bb ∧ LIR.label bb = l).
Proof.
  assert (∀ (g : LIR.BasicBlock → LIR.BasicBlock) (k : string)
            (b : gmap string LIR.BasicBlock),
            (∀ bb, LIR.label (g bb) = LIR.label bb) →
            (∀ l : string, l ∈ L → ∃ bb, b !! l = Some bb ∧ LIR.label bb = l) →
            ∀ l : string, l ∈ L → ∃ bb, alter g k b !! l = Some bb ∧ LIR.label bb = l) as Hkeep.
  { intros g k b Hg Hb l Hl. destruct (Hb l Hl) as (bb & Hbb & Hlab).
    destruct (decide (k = l)) as [->|Hne].
    - exists (g bb). by rewrite lookup_alter_eq, Hbb, Hg.
    - exists bb. by rewrite lookup_alter_ne. }
  intros Hstep HL l Hl. destruct item as [name|i|t]; simpl in *.
  - injection Hstep as <- <-. destruct (decide (name = l)) as [->|Hne].
    + destruct (get_or_create_lookup_eq l body) as [bb Hbb].
      exists (set_label l bb). by rewrite lookup_alter_eq, Hbb.
    + apply elem_of_app in Hl as [Hl|Hl]; [|apply list_elem_of_singleton in Hl; congruence].
      destruct (HL l Hl) as (bb & Hbb & Hlab). exists bb.
      rewrite lookup_alter_ne by done. split; [|done].
      by rewrite get_or_create_lookup_ne.
  - rewrite app_nil_r in Hl.
    destruct cur as [bb|]; [|destruct (body !! e)]; simplify_eq; by apply Hkeep.
  - rewrite app_nil_r in Hl.
    destruct cur as [bb|]; simplify_eq; [by apply Hkeep|by apply HL].
Qed.

Lemma scan_body_labelled (e : string) tv : ∀ body cur body' (L : list string),
  scan_body e tv body cur = Some body' →
  (∀ l : string, l ∈ L → ∃ bb, body !! l = Some bb ∧ LIR.label bb = l) →
  (∀ l : string, l ∈ L ++ labels_of tv → ∃ bb, body' !! l = Some bb ∧ LIR.label bb = l).
Proof.
  induction tv as [|item tv IH]; intros body cur body' L Hscan HL; simpl in Hscan.
  - injection Hscan as <-. unfold labels_of. simpl. by rewrite app_nil_r.
  - destruct (scan_step e body cur item) as [[body1 cur1]|] eqn:Hstep; [|done].
    rewrite (labels_of_cons item tv), app_assoc.
    apply (IH _ _ _ _ Hscan). by apply (scan_step_labelled _ _ _ _ _ _ _ Hstep).
Qed.

(** [build_cfg] undoes flattening: when the translation vector is a sequence
    of whole blocks (label, instructions, terminal) with pairwise different
    labels, none of them in the body yet, [build_cfg] succeeds and adds
    exactly these blocks, each under its label; nothing else in the lowerer
    changes. *)
Theorem build_cfg_rebuilds_blocks (f : string) (fn : LIR.Function)
    (blocks : list LIR.BasicBlock) (st : Lowerer) :
  m_current_fun st = Some f →
  LIR.functions (m_lir_prog st) !! f = Some fn →
  m_tv st = flatten blocks →
  NoDup (LIR.label <$> blocks) →
  (∀ bb, bb ∈ blocks → LIR.body fn !! LIR.label bb = None) →
  build_cfg st = (inr (), set_body f fn (blocks_map blocks ∪ LIR.body fn) st).
Proof.
  intros Hcur Hfn Htv Hnd Hfresh.
  pose proof (run_build_cfg f fn st Hcur Hfn) as H.
  by rewrite Htv, (scan_body_flatten _ blocks (LIR.body fn) Hnd Hfresh) in H.
Qed.

Lemma build_cfg_rebuilds_two_blocks :
  build_cfg
    (with_tv (λ _, [TvLabel "main_entry"; TvInst (LIR.Copy "c" "c");
                    TvTerminal (LIR.Jump "exit"); TvLabel "exit";
                    TvTerminal (LIR.Ret None)])
       (Examples.state_in Examples.prog_if_else_return "main"))
  = (inr (),
     set_body "main" (function_shell Examples.main_if_else_return)
       (blocks_map
          [{| LIR.label := "main_entry"; LIR.insts := [LIR.Copy "c" "c"];
              LIR.term := LIR.Jump "exit" |};
           {| LIR.label := "exit"; LIR.insts := []; LIR.term := LIR.Ret None |}]
        ∪ LIR.body (function_shell Examples.main_if_else_return))
       (with_tv (λ _, [TvLabel "main_entry"; TvInst (LIR.Copy "c" "c");
                       TvTerminal (LIR.Jump "exit"); TvLabel "exit";
                       TvTerminal (LIR.Ret None)])
          (Examples.state_in Examples.prog_if_else_return "main"))).
Proof.
  apply (build_cfg_rebuilds_blocks "main" (function_shell Examples.main_if_else_return)
           [{| LIR.label := "main_entry"; LIR.insts := [LIR.Copy "c" "c"];
               LIR.term := LIR.Jump "exit" |};
            {| LIR.label := "exit"; LIR.insts := []; LIR.term := LIR.Ret None |}]).
  - vm_compute; reflexivity.
  - vm_compute; reflexivity.
  - vm_compute; reflexivity.
  - simpl. apply NoDup_cons. split.
    + intros H. apply list_elem_of_singleton in H. discriminate.
    + apply NoDup_singleton.
  - intros bb Hbb. simpl. apply lookup_empty.
Defined.

Lemma build_cfg_total (f : string) (fn : LIR.Function) (st : Lowerer) :
  m_current_fun st = Some f →
  LIR.functions (m_lir_prog st) !! f = Some fn →
  is_Some (LIR.body fn !! (LIR.name fn +:+ "_entry"))
  ∨ (∃ rest, m_tv st = TvLabel (LIR.name fn +:+ "_entry") :: rest) →
  ∃ body',
    scan_body (LIR.name fn +:+ "_entry") (m_tv st) (LIR.body fn) None = Some body'
    ∧ build_cfg st = (inr (), set_body f fn body' st).
Proof.
  intros Hcur Hfn Hentry.
  pose proof (run_build_cfg f fn st Hcur Hfn) as H.
  assert (is_Some (scan_body (LIR.name fn +:+ "_entry") (m_tv st) (LIR.body fn) None))
    as [body' Hscan].
  { destruct Hentry as [He|[rest ->]]; [by apply scan_body_total|].
    simpl. apply scan_body_total. rewrite lookup_alter_is_Some.
    apply get_or_create_lookup_eq. }
  rewrite Hscan in H. by exists body'.
Qed.

(** [build_cfg] succeeds whenever the entry block of the current function
    exists or the translation vector starts with its label, as the one the
    [FunctionDef] visitor builds does.  It changes only the body of the
    current function; there it keeps every block, adds a block for each
    label of the vector and for nothing else, and each block named by a
    label of the vector has that label in its [label] field. *)
Theorem build_cfg_makes_a_block_per_label (f : string) (fn : LIR.Function) (st : Lowerer) :
  m_current_fun st = Some f →
  LIR.functions (m_lir_prog st) !! f = Some fn →
  is_Some (LIR.body fn !! (LIR.name fn +:+ "_entry"))
  ∨ (∃ rest, m_tv st = TvLabel (LIR.name fn +:+ "_entry") :: rest) →
  ∃ body',
    build_cfg st = (inr (), set_body f fn body' st)
    ∧ (∀ l : string, is_Some (body' !! l)
         ↔ is_Some (LIR.body fn !! l) ∨ l ∈ labels_of (m_tv st))
    ∧ (∀ l : string, l ∈ labels_of (m_tv st) →
         ∃ bb, body' !! l = Some bb ∧ LIR.label bb = l).
Proof.
  intros Hcur Hfn Hentry.
  destruct (build_cfg_total f fn st Hcur Hfn Hentry) as (body' & Hscan & H).
  exists body'. split; [done|]. split.
  - by apply (scan_body_dom _ _ _ _ _ Hscan).
  - intros l Hl. apply (scan_body_labelled _ _ _ _ _ [] Hscan); [|done].
    intros l' Hl'. by apply elem_of_nil in Hl'.
Qed.

(** For the whole translation vector of [Examples.main_if_else_return], as
    it stands when [build_cfg] is called. *)
Lemma build_cfg_blocks_of_if_else_return :
  ∃ fn body',
    build_cfg (add_implicit_return
                 (before_implicit_return Examples.prog_if_else_return
                    Examples.main_if_else_return)).2
    = (inr (),
       set_body "main" fn body'
         (add_implicit_return
            (before_implicit_return Examples.prog_if_else_return
               Examples.main_if_else_return)).2)
    ∧ ∃ bb, body' !! "if_end2" = Some bb ∧ LIR.label bb = "if_end2".
Proof.
  destruct (LIR.functions
              (m_lir_prog
                 (add_implicit_return
                    (before_implicit_return Examples.prog_if_else_return
                       Examples.main_if_else_return)).2) !! "main")
    as [fn|] eqn:Hfn; [|by vm_compute in Hfn].
  assert (LIR.name fn = "main" ∧ LIR.body fn = ∅) as [Hname Hbody].
  { vm_compute in Hfn. by injection Hfn as <-. }
  destruct (build_cfg_makes_a_block_per_label "main" fn
              (add_implicit_return
                 (before_implicit_return Examples.prog_if_else_return
                    Examples.main_if_else_return)).2)
    as (body' & H1 & _ & H3).
  - vm_compute; reflexivity.
  - exact Hfn.
  - right. rewrite Hname. eexists. vm_compute; reflexivity.
  - exists fn, body'. split; [exact H1|]. apply H3.
    apply (bool_decide_unpack _). vm_compute; reflexivity.
Defined.

(** ** The insertion position of the constants *)

Lemma modify_current_fun_fields g st st' :
  modify_current_fun g st = (inr (), st') →
  m_tv st' = m_tv st ∧ m_const_insert_pos st' = m_const_insert_pos st
  ∧ m_current_fun st' = m_current_fun st
  ∧ m_loop_hdr_stack st' = m_loop_hdr_stack st
  ∧ m_loop_end_stack st' = m_loop_end_stack st
  ∧ m_tmp_counter st' = m_tmp_counter st
  ∧ m_label_counter st' = m_label_counter st.
Proof.
  unfold modify_current_fun. destruct (m_current_fun st) as [f|] eqn:Hcur; [|done].
  destruct (LIR.functions (m_lir_prog st) !! f); [|done].
  intros [= <-]. by repeat split.
Qed.

Lemma modify_current_fun_error g st e st' :
  modify_current_fun g st = (inl e, st') → e = null_dereference.
Proof.
  destruct (modify_current_fun_result g st) as [[st1 ->]| ->]; [done|by intros [= <-]].
Qed.

Section Insert_pos.
Variables (e : string) (p0 : nat).

Lemma insert_pos_fields st st' :
  m_tv st' = m_tv st → m_const_insert_pos st' = m_const_insert_pos st →
  insert_pos_in_range e p0 st → insert_pos_in_range e p0 st'.
Proof. unfold insert_pos_in_range. by intros -> ->. Qed.

Lemma insert_pos_emit st item :
  insert_pos_in_range e p0 st → insert_pos_in_range e p0 (with_tv (λ tv, tv ++ [item]) st).
Proof.
  intros [[rest Htv] Hpos]. split; simpl.
  - exists (rest ++ [item]). by rewrite Htv.
  - rewrite length_app. simpl. lia.
Qed.

Lemma insert_pos_add_local g :
  advances (λ _, insert_pos_in_range e p0) not_past_end (modify_current_fun g) [].
Proof.
  intros cs st H. destruct (modify_current_fun g st) as [[err|[]] st'] eqn:Hrun.
  - by apply modify_current_fun_error in Hrun as ->.
  - apply modify_current_fun_fields in Hrun as (Htv & Hpos & _).
    by apply (insert_pos_fields st).
Qed.

Lemma insert_pos_fresh_inner ty :
  advances (λ _, insert_pos_in_range e p0) not_past_end (fresh_inner_var ty) [].
Proof.
  intros cs st H. unfold fresh_inner_var. run.
  pose proof (insert_pos_add_local
                (LIR.with_locals <["_inner" +:+ to_string (m_tmp_counter st) := ty]>) cs
                (with_tmp_counter (wrap_int (m_tmp_counter st + 1)) st)) as H'.
  destruct (modify_current_fun _ _) as [[err|[]] st']; run;
    apply H'; by apply (insert_pos_fields st).
Qed.

Lemma insert_pos_fresh_non_inner ty :
  advances (λ _, insert_pos_in_range e p0) not_past_end (fresh_non_inner_var ty) [].
Proof.
  intros cs st H. unfold fresh_non_inner_var. run.
  pose proof (insert_pos_add_local
                (LIR.with_locals <["_tmp" +:+ to_string (m_tmp_counter st) := ty]>) cs
                (with_tmp_counter (wrap_int (m_tmp_counter st + 1)) st)) as H'.
  destruct (modify_current_fun _ _) as [[err|[]] st']; run;
    apply H'; by apply (insert_pos_fields st).
Qed.

(** Within the range the insertion of [const_var] is defined, and it keeps
    the range: the vector grows by one as the position advances by one. *)
Lemma insert_pos_const_var n :
  advances (λ _, insert_pos_in_range e p0) not_past_end (const_var n) [n].
Proof.
  intros cs st H. unfold const_var. run.
  destruct (get_current_fun_result st) as [(fn & _ & ->)| ->]; run; [|done].
  destruct (LIR.locals fn !! const_name n) as [t|]; run; [done|].
  destruct (modify_current_fun _ st) as [[err|[]] st'] eqn:Hrun; run.
  { by apply modify_current_fun_error in Hrun as ->. }
  apply modify_current_fun_fields in Hrun as (Htv & Hpos & _).
  destruct H as [[rest Hrest] Hrange].
  rewrite tv_insert_in_range by (rewrite Htv, Hpos; lia). run.
  split; simpl.
  - rewrite Htv, Hpos, Hrest.
    destruct (m_const_insert_pos st) as [|p]; [lia|]. simpl. eauto.
  - rewrite Htv, Hpos, length_app, length_take. simpl. rewrite length_drop. lia.
Qed.

Lemma insert_pos_lower_stmt s :
  advances (λ _, insert_pos_in_range e p0) not_past_end (lower_stmt s) (const_uses_Stmt s).
Proof.
  apply (adv_lower_stmt (λ _, insert_pos_in_range e p0) not_past_end).
  - done.
  - intros cs st item _. apply insert_pos_emit.
  - intros cs st x. by apply insert_pos_fields.
  - intros cs st n. by apply insert_pos_fields.
  - intros cs st g. by apply insert_pos_fields.
  - intros cs st g. by apply insert_pos_fields.
  - apply insert_pos_fresh_inner.
  - apply insert_pos_fresh_non_inner.
  - apply insert_pos_const_var.
Qed.

Lemma insert_pos_lower_exp x :
  advances (λ _, insert_pos_in_range e p0) not_past_end (lower_exp x) (const_uses_Exp x).
Proof.
  apply (adv_lower_exp (λ _, insert_pos_in_range e p0) not_past_end).
  - done.
  - intros cs st item _. apply insert_pos_emit.
  - intros cs st y. by apply insert_pos_fields.
  - intros cs st n. by apply insert_pos_fields.
  - apply insert_pos_fresh_inner.
  - apply insert_pos_fresh_non_inner.
  - apply insert_pos_const_var.
Qed.
End Insert_pos.

Lemma add_implicit_return_run st :
  ∃ st', add_implicit_return st = (inr (), st')
    ∧ m_lir_prog st' = m_lir_prog st
    ∧ m_current_fun st' = m_current_fun st
    ∧ (m_tv st' = m_tv st ∨ m_tv st' = m_tv st ++ [TvTerminal (LIR.Ret None)])
    ∧ has_ret (m_tv st') = true.
Proof.
  unfold add_implicit_return. run. destruct (has_ret (m_tv st)) eqn:Hret; run.
  - exists st. repeat split; by try left.
  - eexists. split; [reflexivity|]. simpl. repeat split; [by right|].
    unfold has_ret. by rewrite rev_unit.
Qed.

(** The [FunctionDef] visitor pushes the entry label before it lowers the
    body, with the insertion position just behind it. *)
Lemma visit_FunctionDef_in_range n st : (visit_FunctionDef n st).1 ≠ inl invalid_iterator.
Proof.
  destruct (LIR.functions (m_lir_prog st) !! AST.name n) as [fn|] eqn:Hfn.
  2:{ unfold visit_FunctionDef, set_context. run. unfold FuncId in *. rewrite Hfn.
      run. done. }
  unfold visit_FunctionDef. run. rewrite (set_context_run _ _ fn Hfn). run.
  set (st2 := with_tv (λ tv, tv ++ _) _).
  assert (only_locals_changed (AST.name n) (m_lir_prog st) fn st2) as Hfr
    by (by apply only_locals_changed_init).
  assert (insert_pos_in_range (AST.name n +:+ "_entry") 1 st2) as Hpos.
  { split; [by eexists|]. simpl. lia. }
  apply (frame_lower_stmt _ _ _ (AST.body n) []) in Hfr.
  apply (insert_pos_lower_stmt _ _ (AST.body n) []) in Hpos.
  destruct (lower_stmt (AST.body n) st2) as [[err|body'] st3]; run;
    [simpl; by intros [= ->]|].
  destruct (add_implicit_return_run st3) as (st4 & -> & Hprog & Hcur & _). run.
  destruct Hfr as [Hcur3 (L & _ & Hprog3)].
  assert (LIR.functions (m_lir_prog st4) !! AST.name n
          = Some (LIR.with_locals (λ _, L) fn)) as Hfn4.
  { rewrite Hprog, Hprog3. simpl. apply lookup_insert_eq. }
  pose proof (run_build_cfg (AST.name n) _ st4 ltac:(congruence) Hfn4) as Hcfg.
  destruct (scan_body _ (m_tv st4) _ None) as [B|].
  - rewrite Hcfg. run. done.
  - destruct Hcfg as [st5 ->]. run. done.
Qed.

Lemma visit_each_in_range {A} (f : A → Lower A) l :
  (∀ x st, (f x st).1 ≠ inl invalid_iterator) →
  ∀ st, (visit_each f l st).1 ≠ inl invalid_iterator.
Proof.
  intros Hf. induction l as [|x l IH]; intros st; simpl; [done|].
  run. specialize (Hf x st). destruct (f x st) as [[err|x'] st1]; run;
    [simpl in *; intros [= ->]; by apply Hf|].
  specialize (IH st1). destruct (visit_each f l st1) as [[err|l'] st2]; run; done.
Qed.

(** The insertion position of the constants is always valid.  From a
    lowerer whose translation vector starts with a label and whose insertion
    position lies behind that label and within the vector, which is how the
    [FunctionDef] visitor starts on a body, lowering a statement or an
    expression never inserts past the end of the vector, whether it returns
    or throws; when a statement returns, the label is still the first item,
    and the position has not moved back and lies within the vector.  Hence
    lowering a program never inserts past the end. *)
Theorem const_insert_position_stays_in_range :
  (∀ (e : string) (st : Lowerer),
     (∃ rest, m_tv st = TvLabel e :: rest) →
     1 ≤ m_const_insert_pos st ≤ length (m_tv st) →
     (∀ s, (lower_stmt s st).1 ≠ inl invalid_iterator)
     ∧ (∀ x, (lower_exp x st).1 ≠ inl invalid_iterator)
     ∧ (∀ s s' st', lower_stmt s st = (inr s', st') →
          (∃ rest', m_tv st' = TvLabel e :: rest')
          ∧ m_const_insert_pos st ≤ m_const_insert_pos st' ≤ length (m_tv st')))
  ∧ (∀ p : AST.Program, lower p ≠ inl invalid_iterator).
Proof.
  split.
  - intros e st Hhead Hpos.
    assert (insert_pos_in_range e (m_const_insert_pos st) st) as H0
      by (split; [done|lia]).
    split; [|split].
    + intros s. pose proof (insert_pos_lower_stmt e _ s [] st H0) as H.
      destruct (lower_stmt s st) as [[err|s'] st']; simpl; [by intros [= ->]|done].
    + intros x. pose proof (insert_pos_lower_exp e _ x [] st H0) as H.
      destruct (lower_exp x st) as [[err|r] st']; simpl; [by intros [= ->]|done].
    + intros s s' st' Hrun. pose proof (insert_pos_lower_stmt e _ s [] st H0) as H.
      rewrite Hrun in H. destruct H as [H1 H2]. split; [done|lia].
  - intros p. unfold lower, visit_Program. run.
    destruct (build_shell_total p new_Lowerer) as [st1 ->]. run.
    pose proof (visit_each_in_range visit_FunctionDef (AST.functions p)
                  visit_FunctionDef_in_range st1) as H.
    destruct (visit_each visit_FunctionDef (AST.functions p) st1) as [[err|fs] st2];
      run; [simpl in H; congruence|done].
Qed.

(** For the body of [main] of [Examples.prog_literals], in the lowerer in
    which the visitor lowers it. *)
Lemma const_insert_position_in_main_literals :
  (lower_stmt (AST.body Examples.main_literals)
     (Examples.state_in Examples.prog_literals "main")).1 ≠ inl invalid_iterator
  ∧ ∃ s' st',
      lower_stmt (AST.body Examples.main_literals)
        (Examples.state_in Examples.prog_literals "main") = (inr s', st')
      ∧ (∃ rest', m_tv st' = TvLabel "main_entry" :: rest')
      ∧ 1 ≤ m_const_insert_pos st' ≤ length (m_tv st').
Proof.
  assert (∃ rest, m_tv (Examples.state_in Examples.prog_literals "main")
                  = TvLabel "main_entry" :: rest) as Hhead
    by (eexists; vm_compute; reflexivity).
  assert (1 ≤ m_const_insert_pos (Examples.state_in Examples.prog_literals "main")
          ≤ length (m_tv (Examples.state_in Examples.prog_literals "main")))
    as Hpos by (vm_compute; split; repeat constructor).
  destruct (proj1 const_insert_position_stays_in_range "main_entry" _ Hhead Hpos)
    as (Hstmt & _ & Hkeep).
  split; [apply Hstmt|].
  destruct (lower_stmt (AST.body Examples.main_literals)
              (Examples.state_in Examples.prog_literals "main"))
    as [[err|s'] st'] eqn:Hrun; [by vm_compute in Hrun|].
  exists s', st'. split; [reflexivity|].
  destruct (Hkeep _ _ _ Hrun) as [H1 H2].
  split; [exact H1|]. split; [|apply H2].
  transitivity (m_const_insert_pos (Examples.state_in Examples.prog_literals "main"));
    [apply Hpos|apply H2].
Defined.

(** ** Where the function visitor can fail *)

(** Once the function is in the program shell under its own name, the
    [FunctionDef] visitor fails exactly when lowering the body fails, and
    with the same exception: setting the context, pushing the entry label,
    adding the implicit return and building the control-flow graph never
    throw. *)
Theorem function_visitor_fails_only_in_its_body (n : AST.FunctionDef) (st : Lowerer)
    (fn : LIR.Function) (e : Error) :
  LIR.functions (m_lir_prog st) !! AST.name n = Some fn →
  LIR.name fn = AST.name n →
  (visit_FunctionDef n st).1 = inl e
  ↔ (lower_stmt (AST.body n)
       ((set_context (AST.name n);; emit (TvLabel (AST.name n +:+ "_entry"))) st).2).1
    = inl e.
Proof.
  intros Hfn Hname. unfold visit_FunctionDef. run.
  rewrite (set_context_run _ _ fn Hfn). run. simpl.
  set (st2 := with_tv (λ tv, tv ++ _) _).
  assert (only_locals_changed (AST.name n) (m_lir_prog st) fn st2) as Hfr
    by (by apply only_locals_changed_init).
  assert (insert_pos_in_range (AST.name n +:+ "_entry") 1 st2) as Hpos.
  { split; [by eexists|]. simpl. lia. }
  apply (frame_lower_stmt _ _ _ (AST.body n) []) in Hfr.
  apply (insert_pos_lower_stmt _ _ (AST.body n) []) in Hpos.
  destruct (lower_stmt (AST.body n) st2) as [[err|body'] st3]; run;
    [simpl; split; by intros [= ->]|].
  destruct (add_implicit_return_run st3) as (st4 & -> & Hprog & Hcur & Htv & _). run.
  destruct Hfr as [Hcur3 (L & _ & Hprog3)].
  destruct (build_cfg_total (AST.name n) (LIR.with_locals (λ _, L) fn) st4)
    as (body4 & _ & ->).
  - congruence.
  - rewrite Hprog, Hprog3. simpl. apply lookup_insert_eq.
  - right. simpl. rewrite Hname. destruct Hpos as [[rest Hrest] _].
    destruct Htv as [-> | ->]; rewrite Hrest; simpl; eauto.
  - run. simpl. done.
Qed.

(** A [break] outside any loop, as the body of [main]. *)
Lemma function_visitor_fails_on_stray_break :
  (visit_FunctionDef
     {| AST.name := "main"; AST.params := []; AST.rettype := AST.IntType;
        AST.locals := []; AST.body := AST.Stmts [AST.Break] |}
     (build_shell Examples.prog_literals new_Lowerer).2).1 = inl BreakOutsideLoop.
Proof.
  apply (function_visitor_fails_only_in_its_body
           {| AST.name := "main"; AST.params := []; AST.rettype := AST.IntType;
              AST.locals := []; AST.body := AST.Stmts [AST.Break] |}
           (build_shell Examples.prog_literals new_Lowerer).2
           (function_shell Examples.main_literals)).
  - vm_compute; reflexivity.
  - reflexivity.
  - vm_compute; reflexivity.
Defined.

(** ** What the program shell holds *)

Lemma foldl_insert_other {A V} (key : A → string) (val : A → V) l :
  ∀ (m : gmap string V) (k : string),
  k ∉ key <$> l → foldl (λ m a, <[key a := val a]> m) m l !! k = m !! k.
Proof.
  induction l as [|a l IH]; intros m k Hk; [done|].
  simpl in *. apply not_elem_of_cons in Hk as [Hne Hk].
  rewrite IH by done. by rewrite lookup_insert_ne.
Qed.

Lemma foldl_insert_last {A V} (key : A → string) (val : A → V) x l
    (m : gmap string V) :
  last_of key x l → foldl (λ m a, <[key a := val a]> m) m l !! key x = Some (val x).
Proof.
  intros (l1 & l2 & -> & Hlast). rewrite foldl_app. simpl.
  rewrite foldl_insert_other by done. apply lookup_insert_eq.
Qed.

Lemma foldl_insert_dom {A V} (key : A → string) (val : A → V) l :
  ∀ (m : gmap string V) (k : string),
  is_Some (foldl (λ m a, <[key a := val a]> m) m l !! k) →
  is_Some (m !! k) ∨ k ∈ key <$> l.
Proof.
  induction l as [|a l IH]; intros m k Hk; [by left|].
  simpl in *. apply IH in Hk as [Hk|Hk]; [|right; by right].
  destruct (decide (key a = k)) as [<-|Hne]; [right; by left|].
  rewrite lookup_insert_ne in Hk by done. by left.
Qed.

Lemma last_of_exists {A} (key : A → string) l (k : string) :
  k ∈ key <$> l → ∃ x, key x = k ∧ last_of key x l.
Proof.
  induction l as [|a l IH]; intros Hk; [by apply elem_of_nil in Hk|].
  destruct (decide (k ∈ key <$> l)) as [Hin|Hnotin].
  - destruct (IH Hin) as (x & Hx & l1 & l2 & -> & Hlast).
    exists x. split; [done|]. by exists (a :: l1), l2.
  - simpl in Hk. apply elem_of_cons in Hk as [->|Hk]; [|done].
    exists a. split; [done|]. by exists [], l.
Qed.

Lemma foldl_proj {A M} (proj : Lowerer → M) (g : A → Lowerer → Lowerer)
    (h : A → M → M) l :
  (∀ x st, proj (g x st) = h x (proj st)) →
  ∀ st, proj (foldl (λ st x, g x st) st l) = foldl (λ m x, h x m) (proj st) l.
Proof.
  intros Hg. induction l as [|x l IH]; intros st; [done|].
  simpl. by rewrite IH, Hg.
Qed.

Lemma foldl_const {A M} (l : list A) (m : M) : foldl (λ m _, m) m l = m.
Proof. by induction l. Qed.

Lemma build_shell_tables p :
  LIR.structs (m_lir_prog (build_shell p new_Lowerer).2)
  = foldl (λ m s, <[AST.struct_name s := struct_of s]> m) ∅ (AST.structs p)
  ∧ LIR.externs (m_lir_prog (build_shell p new_Lowerer).2)
    = foldl (λ m x, <[AST.extern_name x := extern_type x]> m) ∅ (AST.externs p)
  ∧ LIR.functions (m_lir_prog (build_shell p new_Lowerer).2)
    = foldl (λ m f, <[AST.name f := function_shell f]> m) ∅ (AST.functions p).
Proof.
  unfold build_shell.
  rewrite run_bind, (for_each_modify (λ n, snd ∘ visit_StructDef n)) by done.
  rewrite run_bind, (for_each_modify (λ n, snd ∘ add_extern n)) by done.
  rewrite (for_each_modify shell_step) by apply add_function_shell_total.
  simpl. split; [|split].
  - rewrite (foldl_proj (λ st, LIR.structs (m_lir_prog st)) shell_step (λ _ m, m)).
    2:{ intros f st. unfold shell_step, add_function_shell. rewrite run_bind. simpl.
        by case_decide. }
    rewrite foldl_const.
    rewrite (foldl_proj (λ st, LIR.structs (m_lir_prog st)) _ (λ _ m, m)) by done.
    rewrite foldl_const.
    by rewrite (foldl_proj (λ st, LIR.structs (m_lir_prog st)) _
                  (λ s m, <[AST.struct_name s := struct_of s]> m)).
  - rewrite (foldl_proj (λ st, LIR.externs (m_lir_prog st)) shell_step (λ _ m, m)).
    2:{ intros f st. unfold shell_step, add_function_shell. rewrite run_bind. simpl.
        by case_decide. }
    rewrite foldl_const.
    rewrite (foldl_proj (λ st, LIR.externs (m_lir_prog st)) _
               (λ x m, <[AST.extern_name x := extern_type x]> m)) by done.
    f_equal.
    by rewrite (foldl_proj (λ st, LIR.externs (m_lir_prog st)) _ (λ _ m, m)), foldl_const.
  - rewrite (foldl_proj (λ st, LIR.functions (m_lir_prog st)) shell_step
               (λ f m, <[AST.name f := function_shell f]> m)).
    2:{ intros f st. unfold shell_step, add_function_shell. rewrite run_bind. simpl.
        by case_decide. }
    f_equal.
    rewrite (foldl_proj (λ st, LIR.functions (m_lir_prog st)) _ (λ _ m, m)) by done.
    rewrite foldl_const.
    by rewrite (foldl_proj (λ st, LIR.functions (m_lir_prog st)) _ (λ _ m, m)), foldl_const.
Qed.

Lemma function_shell_locals (f : AST.FunctionDef) :
  LIR.locals (function_shell f)
  = foldl (λ m d, <[AST.decl_name d := convert_type (AST.decl_type d)]> m) ∅
      (AST.params f ++ AST.locals f).
Proof. simpl. by rewrite foldl_app. Qed.

Lemma foldl_insert_empty_dom {A V} (key : A → string) (val : A → V) l (k : string) :
  is_Some (foldl (λ m a, <[key a := val a]> m) (∅ : gmap string V) l !! k) → k ∈ key <$> l.
Proof.
  intros Hk. apply foldl_insert_dom in Hk as [Hk|Hk]; [|done].
  rewrite lookup_empty in Hk. by destruct Hk.
Qed.

(** After the shell of a program is built, [structs], [externs] and
    [functions] have an entry under each name the program declares and
    under no other name, made from the last declaration of that name.  A
    struct has the declared name and, for each field it declares, the
    converted type of the field, and no other field.  An extern has the
    function type of its converted parameter and return types.  A function
    has the declared name, its parameters with their converted types in the
    declared order, its converted return type, no block yet, and as locals
    its parameters and declared locals with their converted types (of two
    declarations of a name the last counts) and nothing else. *)
Theorem program_shell_tables (p : AST.Program) :
  let prog := m_lir_prog (build_shell p new_Lowerer).2 in
  (∀ s, last_of AST.struct_name s (AST.structs p) →
     ∃ s', LIR.structs prog !! AST.struct_name s = Some s'
       ∧ LIR.struct_name s' = AST.struct_name s
       ∧ (∀ d, last_of AST.decl_name d (AST.fields s) →
            LIR.fields s' !! AST.decl_name d = Some (convert_type (AST.decl_type d)))
       ∧ (∀ x : string, is_Some (LIR.fields s' !! x) →
            x ∈ AST.decl_name <$> AST.fields s))
  ∧ (∀ k : string, is_Some (LIR.structs prog !! k) →
       k ∈ AST.struct_name <$> AST.structs p)
  ∧ (∀ x, last_of AST.extern_name x (AST.externs p) →
       LIR.externs prog !! AST.extern_name x
       = Some (LIR.FnType (map convert_type (AST.param_types x))
                 (convert_type (AST.extern_rettype x))))
  ∧ (∀ k : string, is_Some (LIR.externs prog !! k) →
       k ∈ AST.extern_name <$> AST.externs p)
  ∧ (∀ f, last_of AST.name f (AST.functions p) →
       ∃ fn, LIR.functions prog !! AST.name f = Some fn
         ∧ LIR.name fn = AST.name f
         ∧ LIR.params fn
           = map (λ d, (AST.decl_name d, convert_type (AST.decl_type d))) (AST.params f)
         ∧ LIR.rettyp fn = convert_type (AST.rettype f)
         ∧ LIR.body fn = ∅
         ∧ (∀ d, last_of AST.decl_name d (AST.params f ++ AST.locals f) →
              LIR.locals fn !! AST.decl_name d = Some (convert_type (AST.decl_type d)))
         ∧ (∀ x : string, is_Some (LIR.locals fn !! x) →
              x ∈ AST.decl_name <$> (AST.params f ++ AST.locals f)))
  ∧ (∀ k : string, is_Some (LIR.functions prog !! k) →
       k ∈ AST.name <$> AST.functions p).
Proof.
  cbv zeta. destruct (build_shell_tables p) as (-> & -> & ->).
  split; [|split; [|split; [|split; [|split]]]].
  - intros s Hs. exists (struct_of s).
    split; [by apply (foldl_insert_last AST.struct_name struct_of)|].
    split; [done|]. split.
    + intros d Hd.
      by apply (foldl_insert_last AST.decl_name (λ d, convert_type (AST.decl_type d))).
    + intros x.
      apply (foldl_insert_empty_dom AST.decl_name (λ d, convert_type (AST.decl_type d))).
  - intros k. apply foldl_insert_empty_dom.
  - intros x Hx. by apply (foldl_insert_last AST.extern_name extern_type).
  - intros k. apply foldl_insert_empty_dom.
  - intros f Hf. exists (function_shell f).
    split; [by apply (foldl_insert_last AST.name function_shell)|].
    do 4 (split; [done|]). rewrite function_shell_locals. split.
    + intros d Hd.
      by apply (foldl_insert_last AST.decl_name (λ d, convert_type (AST.decl_type d))).
    + intros x.
      apply (foldl_insert_empty_dom AST.decl_name (λ d, convert_type (AST.decl_type d))).
  - intros k. apply foldl_insert_empty_dom.
Qed.

(** The types the lowering looks up are the declared ones.  After the shell
    is built, [typeof_field] gives the converted type of a declared field
    and throws for a name that is not a field of the struct; and with the
    context set to a function, [typeof_var] gives the converted type of its
    parameters and locals (a local hides a parameter of the same name, and
    of two declarations of a name the last counts). *)
Theorem declared_types_are_found (p : AST.Program) :
  (∀ s d,
     last_of AST.struct_name s (AST.structs p) →
     last_of AST.decl_name d (AST.fields s) →
     typeof_field (AST.struct_name s) (AST.decl_name d) (build_shell p new_Lowerer).2
     = (inr (convert_type (AST.decl_type d)), (build_shell p new_Lowerer).2))
  ∧ (∀ s (fid : string),
       last_of AST.struct_name s (AST.structs p) →
       fid ∉ AST.decl_name <$> AST.fields s →
       typeof_field (AST.struct_name s) fid (build_shell p new_Lowerer).2
       = (inl (runtime_error
                 ("Could not find field " +:+ fid +:+ " in struct " +:+ AST.struct_name s)),
          (build_shell p new_Lowerer).2))
  ∧ (∀ f d,
       last_of AST.name f (AST.functions p) →
       last_of AST.decl_name d (AST.params f ++ AST.locals f) →
       ∃ st', set_context (AST.name f) (build_shell p new_Lowerer).2 = (inr (), st')
         ∧ typeof_var (AST.decl_name d) st' = (inr (convert_type (AST.decl_type d)), st')).
Proof.
  destruct (build_shell_tables p) as (Hs & _ & Hf).
  split; [|split].
  - intros s d Hlast Hd. unfold typeof_field. run. rewrite Hs.
    unfold StructId. rewrite (foldl_insert_last AST.struct_name struct_of) by done.
    simpl. unfold FieldId.
    by rewrite (foldl_insert_last AST.decl_name (λ d, convert_type (AST.decl_type d))).
  - intros s fid Hlast Hfid. unfold typeof_field. run. rewrite Hs.
    unfold StructId. rewrite (foldl_insert_last AST.struct_name struct_of) by done.
    simpl. unfold FieldId.
    by rewrite (foldl_insert_other AST.decl_name (λ d, convert_type (AST.decl_type d))).
  - intros f d Hlast Hd.
    assert (LIR.functions (m_lir_prog (build_shell p new_Lowerer).2) !! AST.name f
            = Some (function_shell f)) as Hfn
      by (rewrite Hf; by apply foldl_insert_last).
    eexists. split; [by apply (set_context_run _ _ (function_shell f))|].
    unfold typeof_var. run. f_equal. unfold typeof, current_fun. simpl.
    unfold FuncId. rewrite Hfn.
    pose proof (foldl_insert_last AST.decl_name (λ d, convert_type (AST.decl_type d))
                  d (AST.params f ++ AST.locals f) ∅ Hd) as Hlook.
    rewrite <- function_shell_locals in Hlook. simpl in *.
    unfold VarId. by rewrite Hlook.
Qed.

Lemma declared_types_in_field_store :
  typeof_field "S" "f" (build_shell Examples.prog_field_store new_Lowerer).2
  = (inr LIR.IntType, (build_shell Examples.prog_field_store new_Lowerer).2).
Proof.
  apply (proj1 (declared_types_are_found Examples.prog_field_store)
           Examples.struct_S (Examples.decl "f" AST.IntType)).
  - exists [], []. split; [reflexivity|apply not_elem_of_nil].
  - exists [], []. split; [reflexivity|apply not_elem_of_nil].
Defined.

(** ** The lowered program and the shell *)

Lemma same_signature_refl fn : same_signature fn fn.
Proof. by repeat split. Qed.

Lemma same_signature_trans fn1 fn2 fn3 :
  same_signature fn1 fn2 → same_signature fn2 fn3 → same_signature fn1 fn3.
Proof.
  intros (? & ? & ? & ? & ?) (? & ? & ? & ? & ?).
  repeat split; try congruence; set_solver.
Qed.

Lemma keeps_shell_refl prog : keeps_shell prog prog.
Proof.
  repeat split. intros k. destruct (LIR.functions prog !! k); [|done].
  apply same_signature_refl.
Qed.

Lemma keeps_shell_trans p1 p2 p3 :
  keeps_shell p1 p2 → keeps_shell p2 p3 → keeps_shell p1 p3.
Proof.
  intros (? & ? & ? & H12) (? & ? & ? & H23). repeat split; try congruence.
  intros k. specialize (H12 k). specialize (H23 k).
  destruct (LIR.functions p1 !! k), (LIR.functions p2 !! k), (LIR.functions p3 !! k);
    try done.
  by eapply same_signature_trans.
Qed.

Lemma keeps_shell_function (f : string) fn L B prog :
  LIR.functions prog !! f = Some fn →
  dom (LIR.locals fn) ⊆ dom L →
  dom (LIR.body fn) ⊆ dom B →
  keeps_shell prog
    (LIR.with_functions <[f := LIR.with_body (λ _, B) (LIR.with_locals (λ _, L) fn)]> prog).
Proof.
  intros Hfn Hdom HB. repeat split. intros k. simpl.
  destruct (decide (f = k)) as [<-|Hne].
  - rewrite lookup_insert_eq, Hfn. by repeat split.
  - rewrite lookup_insert_ne by done.
    destruct (LIR.functions prog !! k); [apply same_signature_refl|done].
Qed.

Lemma scan_step_well_labelled (e : string) body cur item body' cur' :
  scan_step e body cur item = Some (body', cur') →
  (∀ (l : string) bb, body !! l = Some bb → LIR.label bb = l) →
  (∀ (l : string) bb, body' !! l = Some bb → LIR.label bb = l).
Proof.
  assert (∀ (g : LIR.BasicBlock → LIR.BasicBlock) (k : string)
            (b : gmap string LIR.BasicBlock),
            (∀ bb, LIR.label (g bb) = LIR.label bb) →
            (∀ (l : string) bb, b !! l = Some bb → LIR.label bb = l) →
            ∀ (l : string) bb, alter g k b !! l = Some bb → LIR.label bb = l) as Hkeep.
  { intros g k b Hg Hb l bb. destruct (decide (k = l)) as [->|Hne].
    - rewrite lookup_alter_eq. destruct (b !! l) as [bb0|] eqn:Hl; [|done].
      intros [= <-]. rewrite Hg. by apply Hb.
    - rewrite lookup_alter_ne by done. apply Hb. }
  intros Hstep Hb l bb. destruct item as [name|i|t]; simpl in *.
  - injection Hstep as <- <-. destruct (decide (name = l)) as [->|Hne].
    + rewrite lookup_alter_eq. destruct (get_or_create l body !! l); [|done].
      by intros [= <-].
    + rewrite lookup_alter_ne, get_or_create_lookup_ne by done. apply Hb.
  - destruct cur as [c|]; [|destruct (body !! e)]; simplify_eq; by apply Hkeep.
  - destruct cur as [c|]; simplify_eq; [by apply Hkeep|apply Hb].
Qed.

Lemma scan_body_well_labelled (e : string) tv : ∀ body cur body',
  scan_body e tv body cur = Some body' →
  (∀ (l : string) bb, body !! l = Some bb → LIR.label bb = l) →
  (∀ (l : string) bb, body' !! l = Some bb → LIR.label bb = l).
Proof.
  induction tv as [|item tv IH]; intros body cur body' Hscan Hb; simpl in Hscan.
  - by injection Hscan as <-.
  - destruct (scan_step e body cur item) as [[body1 cur1]|] eqn:Hstep; [|done].
    apply (IH _ _ _ Hscan). by apply (scan_step_well_labelled _ _ _ _ _ _ Hstep).
Qed.

(** What one successful run of the [FunctionDef] visitor does to the
    program. *)
Lemma visit_FunctionDef_program n n' st st' :
  visit_FunctionDef n st = (inr n', st') →
  keeps_shell (m_lir_prog st) (m_lir_prog st')
  ∧ (∃ fn', LIR.functions (m_lir_prog st') !! AST.name n = Some fn'
       ∧ is_Some (LIR.body fn' !! (AST.name n +:+ "_entry")))
  ∧ (well_labelled (m_lir_prog st) → well_labelled (m_lir_prog st')).
Proof.
  destruct (LIR.functions (m_lir_prog st) !! AST.name n) as [fn|] eqn:Hfn.
  2:{ unfold visit_FunctionDef, set_context. run. unfold FuncId in *. rewrite Hfn.
      run. done. }
  unfold visit_FunctionDef. run. rewrite (set_context_run _ _ fn Hfn). run.
  set (st2 := with_tv (λ tv, tv ++ _) _).
  assert (only_locals_changed (AST.name n) (m_lir_prog st) fn st2) as Hfr
    by (by apply only_locals_changed_init).
  assert (insert_pos_in_range (AST.name n +:+ "_entry") 1 st2) as Hpos.
  { split; [by eexists|]. simpl. lia. }
  apply (frame_lower_stmt _ _ _ (AST.body n) []) in Hfr.
  apply (insert_pos_lower_stmt _ _ (AST.body n) []) in Hpos.
  destruct (lower_stmt (AST.body n) st2) as [[err|body'] st3]; run; [done|].
  destruct (add_implicit_return_run st3) as (st4 & -> & Hprog & Hcur & Htv & _). run.
  destruct Hfr as [Hcur3 (L & Hdom & Hprog3)].
  assert (LIR.functions (m_lir_prog st4) !! AST.name n
          = Some (LIR.with_locals (λ _, L) fn)) as Hfn4.
  { rewrite Hprog, Hprog3. simpl. apply lookup_insert_eq. }
  pose proof (run_build_cfg (AST.name n) _ st4 ltac:(congruence) Hfn4) as Hcfg.
  destruct (scan_body _ (m_tv st4) _ None) as [B|] eqn:HB.
  2:{ destruct Hcfg as [st5 ->]. run. done. }
  rewrite Hcfg. run. intros [= _ <-]. unfold set_body. simpl.
  rewrite Hprog, Hprog3. unfold LIR.with_functions. simpl.
  rewrite insert_insert_eq.
  pose proof (scan_body_dom _ _ _ _ _ HB) as HdomB. simpl in HdomB.
  split; [|split].
  - apply (keeps_shell_function (AST.name n) fn L B (m_lir_prog st)); [done..|].
    intros l Hl. apply elem_of_dom. apply HdomB. left. by apply elem_of_dom.
  - eexists. rewrite lookup_insert_eq. split; [reflexivity|]. simpl.
    apply HdomB. right. destruct Hpos as [[rest Hrest] _].
    destruct Htv as [-> | ->]; rewrite Hrest; simpl; by left.
  - intros Hwl k fn' l bb. simpl. destruct (decide (AST.name n = k)) as [<-|Hne].
    + rewrite lookup_insert_eq. intros [= <-]. simpl.
      apply (scan_body_well_labelled _ _ _ _ _ HB). simpl.
      intros l0 bb0. by apply (Hwl (AST.name n) fn).
    + rewrite lookup_insert_ne by done. apply Hwl.
Qed.

Lemma visit_each_program fs : ∀ fs' st st',
  visit_each visit_FunctionDef fs st = (inr fs', st') →
  keeps_shell (m_lir_prog st) (m_lir_prog st')
  ∧ (∀ f, f ∈ fs →
       ∃ fn', LIR.functions (m_lir_prog st') !! AST.name f = Some fn'
         ∧ is_Some (LIR.body fn' !! (AST.name f +:+ "_entry")))
  ∧ (well_labelled (m_lir_prog st) → well_labelled (m_lir_prog st')).
Proof.
  induction fs as [|f fs IH]; intros fs' st st'; simpl.
  - intros [= _ <-]. split; [apply keeps_shell_refl|]. split; [|done].
    intros f Hf. by apply elem_of_nil in Hf.
  - run. destruct (visit_FunctionDef f st) as [[err|f'] st1] eqn:Hf; run; [done|].
    destruct (visit_each visit_FunctionDef fs st1) as [[err|fs1] st2] eqn:Hfs; run; [done|].
    intros [= _ <-].
    destruct (visit_FunctionDef_program _ _ _ _ Hf) as (Hk1 & (fn1 & Hfn1 & Hentry1) & Hwl1).
    destruct (IH _ _ _ Hfs) as (Hk2 & Hentries & Hwl2).
    split; [by eapply keeps_shell_trans|]. split; [|tauto].
    intros g Hg. apply elem_of_cons in Hg as [->|Hg]; [|by apply Hentries].
    destruct Hk2 as (_ & _ & _ & Hk2). specialize (Hk2 (AST.name f)).
    rewrite Hfn1 in Hk2. destruct (LIR.functions (m_lir_prog st2) !! AST.name f) as [fn2|];
      [|done].
    exists fn2. split; [done|]. destruct Hk2 as (_ & _ & _ & _ & Hbody).
    apply elem_of_dom, Hbody, elem_of_dom, Hentry1.
Qed.

Lemma foldl_insert_lookup {A V} (key : A → string) (val : A → V) l :
  ∀ (m : gmap string V) (k : string) v,
  foldl (λ m a, <[key a := val a]> m) m l !! k = Some v →
  m !! k = Some v ∨ ∃ a, a ∈ l ∧ v = val a.
Proof.
  induction l as [|a l IH]; intros m k v Hk; [by left|].
  simpl in Hk. apply IH in Hk as [Hk|(b & Hb & ->)].
  - destruct (decide (key a = k)) as [<-|Hne].
    + rewrite lookup_insert_eq in Hk. injection Hk as <-. right. exists a. split; [by left|done].
    + rewrite lookup_insert_ne in Hk by done. by left.
  - right. exists b. split; [by right|done].
Qed.

Lemma shell_well_labelled p : well_labelled (m_lir_prog (build_shell p new_Lowerer).2).
Proof.
  destruct (build_shell_tables p) as (_ & _ & Hf). intros k fn l bb. rewrite Hf.
  intros Hk. apply foldl_insert_lookup in Hk as [Hk|(f & _ & ->)]; [done|].
  simpl. by rewrite lookup_empty.
Qed.

Lemma lower_run (p ast' : AST.Program) (lir : LIR.Program) :
  lower p = inr (ast', lir) →
  ∃ fs' st',
    visit_each visit_FunctionDef (AST.functions p) (build_shell p new_Lowerer).2
    = (inr fs', st')
    ∧ lir = m_lir_prog st'.
Proof.
  unfold lower, visit_Program. run.
  destruct (build_shell_total p new_Lowerer) as [st1 Hshell]. rewrite Hshell. run.
  simpl.
  destruct (visit_each visit_FunctionDef (AST.functions p) st1) as [[err|fs'] st2] eqn:Hfs;
    run; [done|].
  intros [= _ <-]. by exists fs', st2.
Qed.

(** Lowering the function bodies keeps the program shell: the lowered
    program has the structs, externs and function pointers of the shell and
    the same functions, each with the name, parameters and return type the
    shell gave it and with at least the shell's locals. *)
Theorem lowered_program_keeps_the_shell (p ast' : AST.Program) (lir : LIR.Program) :
  lower p = inr (ast', lir) →
  keeps_shell (m_lir_prog (build_shell p new_Lowerer).2) lir.
Proof.
  intros Hrun. destruct (lower_run _ _ _ Hrun) as (fs' & st' & Hfs & ->).
  by apply (visit_each_program _ _ _ _ Hfs).
Qed.

Lemma lowered_literals_keeps_the_shell :
  ∃ ast' lir,
    lower Examples.prog_literals = inr (ast', lir)
    ∧ keeps_shell (m_lir_prog (build_shell Examples.prog_literals new_Lowerer).2) lir.
Proof.
  destruct (lower Examples.prog_literals) as [err|[ast' lir]] eqn:Hrun;
    [by vm_compute in Hrun|].
  exists ast', lir. split; [reflexivity|].
  exact (lowered_program_keeps_the_shell _ _ _ Hrun).
Defined.

(** In a lowered program every function of the source has a block under
    its entry label [<name>_entry], and every block of every function is
    stored under the label it carries. *)
Theorem lowered_functions_have_entry_blocks (p ast' : AST.Program) (lir : LIR.Program) :
  lower p = inr (ast', lir) →
  (∀ f, f ∈ AST.functions p →
     ∃ fn bb, LIR.functions lir !! AST.name f = Some fn
       ∧ LIR.body fn !! (AST.name f +:+ "_entry") = Some bb
       ∧ LIR.label bb = AST.name f +:+ "_entry")
  ∧ well_labelled lir.
Proof.
  intros Hrun. destruct (lower_run _ _ _ Hrun) as (fs' & st' & Hfs & ->).
  destruct (visit_each_program _ _ _ _ Hfs) as (_ & Hentries & Hwl).
  specialize (Hwl (shell_well_labelled p)). split; [|done].
  intros f Hf. destruct (Hentries f Hf) as (fn & Hfn & [bb Hbb]).
  exists fn, bb. split; [done|]. split; [done|]. by apply (Hwl (AST.name f) fn).
Qed.

Lemma lowered_calls_have_entry_blocks :
  ∃ ast' lir fn bb,
    lower Examples.prog_calls = inr (ast', lir)
    ∧ LIR.functions lir !! "g" = Some fn
    ∧ LIR.body fn !! "g_entry" = Some bb
    ∧ LIR.label bb = "g_entry".
Proof.
  destruct (lower Examples.prog_calls) as [err|[ast' lir]] eqn:Hrun;
    [by vm_compute in Hrun|].
  destruct (proj1 (lowered_functions_have_entry_blocks _ _ _ Hrun) Examples.fun_g)
    as (fn & bb & H1 & H2 & H3); [apply list_elem_of_here|].
  exists ast', lir, fn, bb. split; [reflexivity|]. split; [exact H1|].
  split; [exact H2|exact H3].
Defined.

(** ** The loop stacks *)

Section Loop_stacks.
Variables (hdrs ends : list BbId).

Lemma stacks_fields st st' :
  m_loop_hdr_stack st' = m_loop_hdr_stack st →
  m_loop_end_stack st' = m_loop_end_stack st →
  stacks_are hdrs ends st → stacks_are hdrs ends st'.
Proof. unfold stacks_are. by intros -> ->. Qed.

Lemma stacks_add_local g :
  advances (λ _, stacks_are hdrs ends) any_error (modify_current_fun g) [].
Proof.
  intros cs st H. destruct (modify_current_fun g st) as [[err|[]] st'] eqn:Hrun; [done|].
  apply modify_current_fun_fields in Hrun as (_ & _ & _ & Hh & He & _).
  by apply (stacks_fields st).
Qed.

Lemma stacks_fresh_inner ty :
  advances (λ _, stacks_are hdrs ends) any_error (fresh_inner_var ty) [].
Proof.
  intros cs st H. unfold fresh_inner_var. run.
  pose proof (stacks_add_local
                (LIR.with_locals <["_inner" +:+ to_string (m_tmp_counter st) := ty]>) cs
                (with_tmp_counter (wrap_int (m_tmp_counter st + 1)) st)) as H'.
  destruct (modify_current_fun _ _) as [[err|[]] st']; run; [done|].
  apply H'. by apply (stacks_fields st).
Qed.

Lemma stacks_fresh_non_inner ty :
  advances (λ _, stacks_are hdrs ends) any_error (fresh_non_inner_var ty) [].
Proof.
  intros cs st H. unfold fresh_non_inner_var. run.
  pose proof (stacks_add_local
                (LIR.with_locals <["_tmp" +:+ to_string (m_tmp_counter st) := ty]>) cs
                (with_tmp_counter (wrap_int (m_tmp_counter st + 1)) st)) as H'.
  destruct (modify_current_fun _ _) as [[err|[]] st']; run; [done|].
  apply H'. by apply (stacks_fields st).
Qed.

Lemma stacks_const_var n :
  advances (λ _, stacks_are hdrs ends) any_error (const_var n) [n].
Proof.
  intros cs st H. unfold const_var. run.
  destruct (get_current_fun_result st) as [(fn & _ & ->)| ->]; run; [|done].
  destruct (LIR.locals fn !! const_name n) as [t|]; run; [done|].
  destruct (modify_current_fun _ st) as [[err|[]] st'] eqn:Hrun; run; [done|].
  destruct (tv_insert _ _ _) as [tv'|]; run; [|done].
  apply modify_current_fun_fields in Hrun as (_ & _ & _ & Hh & He & _).
  by apply (stacks_fields st).
Qed.

Lemma stacks_lower_exp e :
  advances (λ _, stacks_are hdrs ends) any_error (lower_exp e) (const_uses_Exp e).
Proof.
  apply (adv_lower_exp (λ _, stacks_are hdrs ends) any_error).
  - done.
  - intros cs st item _. by apply stacks_fields.
  - intros cs st x. by apply stacks_fields.
  - intros cs st n. by apply stacks_fields.
  - apply stacks_fresh_inner.
  - apply stacks_fresh_non_inner.
  - apply stacks_const_var.
Qed.

Lemma stacks_lower_place p :
  (∀ x, p ≠ AST.Id x) →
  advances (λ _, stacks_are hdrs ends) any_error (lower_place p) (const_uses_Place p).
Proof.
  intros Hne. unfold lower_place.
  apply (advances_lower_with (λ _, stacks_are hdrs ends) any_error).
  apply (adv_visit_Place (λ _, stacks_are hdrs ends) any_error); [done| | | | | | |done].
  - intros cs st item _. by apply stacks_fields.
  - intros cs st x. by apply stacks_fields.
  - intros cs st n. by apply stacks_fields.
  - apply stacks_fresh_inner.
  - apply stacks_fresh_non_inner.
  - apply stacks_const_var.
Qed.

Lemma stacks_lower_args args :
  advances (λ _, stacks_are hdrs ends) any_error (lower_args args)
    (uses_from_last const_uses_Exp args).
Proof.
  apply (adv_lower_args_all (λ _, stacks_are hdrs ends) any_error).
  - done.
  - intros cs st item _. by apply stacks_fields.
  - intros cs st x. by apply stacks_fields.
  - intros cs st n. by apply stacks_fields.
  - apply stacks_fresh_inner.
  - apply stacks_fresh_non_inner.
  - apply stacks_const_var.
Qed.
End Loop_stacks.

Lemma stacks_exp_run e st :
  match lower_exp e st with
  | (inr _, st') =>
      m_loop_hdr_stack st' = m_loop_hdr_stack st
      ∧ m_loop_end_stack st' = m_loop_end_stack st
  | (inl _, _) => True
  end.
Proof.
  pose proof (stacks_lower_exp _ _ e [] st (conj eq_refl eq_refl)) as H.
  by destruct (lower_exp e st) as [[err|r] st'].
Qed.

Lemma stacks_place_run p st :
  (∀ x, p ≠ AST.Id x) →
  match lower_place p st with
  | (inr _, st') =>
      m_loop_hdr_stack st' = m_loop_hdr_stack st
      ∧ m_loop_end_stack st' = m_loop_end_stack st
  | (inl _, _) => True
  end.
Proof.
  intros Hne.
  pose proof (stacks_lower_place _ _ p Hne [] st (conj eq_refl eq_refl)) as H.
  by destruct (lower_place p st) as [[err|r] st'].
Qed.

Lemma stacks_args_run args st :
  match lower_args args st with
  | (inr _, st') =>
      m_loop_hdr_stack st' = m_loop_hdr_stack st
      ∧ m_loop_end_stack st' = m_loop_end_stack st
  | (inl _, _) => True
  end.
Proof.
  pose proof (stacks_lower_args _ _ args [] st (conj eq_refl eq_refl)) as H.
  by destruct (lower_args args st) as [[err|r] st'].
Qed.

Lemma stacks_visit_Stmt s : ∀ st,
  match visit_Stmt s st with
  | (inr _, st') =>
      m_loop_hdr_stack st' = m_loop_hdr_stack st
      ∧ m_loop_end_stack st' = m_loop_end_stack st
      ∧ (m_loop_hdr_stack st = [] → m_loop_end_stack st = [] → no_stray_jump s = true)
  | (inl _, _) => True
  end.
Proof.
  induction s as [ss IH|p e|fc|g t f Ht Hf|g b Hb| | |e] using Stmt_nested_ind; intros st.
  - (* Stmts *)
    simpl. run.
    assert (∀ st, match visit_each visit_Stmt ss st with
                  | (inr _, st') =>
                      m_loop_hdr_stack st' = m_loop_hdr_stack st
                      ∧ m_loop_end_stack st' = m_loop_end_stack st
                      ∧ (m_loop_hdr_stack st = [] → m_loop_end_stack st = [] →
                         forallb no_stray_jump ss = true)
                  | (inl _, _) => True
                  end) as Hall.
    { clear st. induction IH as [|s ss Hs _ IHss]; intros st; simpl; [done|].
      run. specialize (Hs st).
      destruct (visit_Stmt s st) as [[err|s'] st1]; run; [done|].
      specialize (IHss st1).
      destruct (visit_each visit_Stmt ss st1) as [[err|ss'] st2]; run; [done|].
      destruct Hs as (Hh1 & He1 & Hok1), IHss as (Hh2 & He2 & Hok2).
      split; [congruence|]. split; [congruence|].
      intros Hh He. rewrite Hok1 by done. simpl. apply Hok2; congruence. }
    specialize (Hall st).
    destruct (visit_each visit_Stmt ss st) as [[err|ss'] st1]; run; done.
  - (* Assign *)
    destruct (Place_Id_or_not p) as [[x ->]|Hne].
    + simpl. run. pose proof (stacks_exp_run e st) as He.
      destruct (lower_exp e st) as [[err|[e' y]] st1]; run; [done|].
      unfold release. run. simpl. tauto.
    + rewrite visit_Assign_place by done. run.
      pose proof (stacks_place_run p st Hne) as Hp.
      destruct (lower_place p st) as [[err|[p' x]] st1]; run; [done|].
      pose proof (stacks_exp_run e st1) as He.
      destruct (lower_exp e st1) as [[err|[e' y]] st2]; run; [done|].
      unfold release. run. simpl. destruct Hp, He. repeat split; congruence.
  - (* CallStmt *)
    destruct fc as [c args]. simpl. run.
    pose proof (stacks_args_run args st) as Ha.
    destruct (lower_args args st) as [[err|[args' xs]] st1]; run; [done|].
    pose proof (stacks_exp_run c st1) as Hc.
    destruct (lower_exp c st1) as [[err|[c' x]] st2]; run; [done|].
    unfold release. run. simpl. destruct Ha, Hc. repeat split; congruence.
  - (* If *)
    simpl. unfold new_label. run.
    match goal with |- context [lower_exp g ?s] => pose proof (stacks_exp_run g s) as Hg;
      destruct (lower_exp g s) as [[err|[g' x]] st1] end; run; [done|].
    unfold release. run.
    match goal with |- context [visit_Stmt t ?s] => specialize (Ht s);
      destruct (visit_Stmt t s) as [[err|t'] st2] end; run; [done|].
    simpl in Hg, Ht. destruct Hg as [Hg1 Hg2], Ht as (Ht1 & Ht2 & Ht3).
    destruct f as [s|]; simpl in Hf; run.
    + match goal with |- context [visit_Stmt s ?s0] => specialize (Hf s0);
        destruct (visit_Stmt s s0) as [[err|s'] st3] end; run; [done|].
      simpl in Hf. destruct Hf as (Hf1 & Hf2 & Hf3). simpl.
      split; [congruence|]. split; [congruence|]. intros Hh He.
      rewrite Ht3 by congruence. rewrite Hf3 by congruence. done.
    + simpl. split; [congruence|]. split; [congruence|]. intros Hh He.
      rewrite Ht3 by congruence. done.
  - (* While *)
    simpl. unfold new_label. run.
    match goal with |- context [lower_exp g ?s] => pose proof (stacks_exp_run g s) as Hg;
      destruct (lower_exp g s) as [[err|[g' x]] st1] end; run; [done|].
    unfold release. run.
    match goal with |- context [visit_Stmt b ?s] => specialize (Hb s);
      destruct (visit_Stmt b s) as [[err|b'] st2] end; run; [done|].
    simpl in Hg, Hb. destruct Hg as [Hg1 Hg2], Hb as (Hb1 & Hb2 & _). simpl.
    rewrite Hb1, Hb2, Hg1, Hg2. unfold pop_back, push_back.
    by rewrite !removelast_last.
  - (* Break *)
    simpl. run. destruct (last (m_loop_end_stack st)) eqn:Hlast; run; [|done].
    simpl. repeat split. intros _ He. by rewrite He in Hlast.
  - (* Continue *)
    simpl. run. destruct (last (m_loop_hdr_stack st)) eqn:Hlast; run; [|done].
    simpl. repeat split. intros Hh _. by rewrite Hh in Hlast.
  - (* Return *)
    destruct e as [e|]; simpl; run.
    + pose proof (stacks_exp_run e st) as He.
      destruct (lower_exp e st) as [[err|[e' x]] st1]; run; [done|].
      unfold release. run. simpl. tauto.
    + simpl. done.
Qed.

(** Lowering a statement leaves both loop stacks as it found them: every
    label a loop pushes is popped when the loop has been lowered, so a
    [break] or [continue] that follows a loop refers to the enclosing
    loop again. *)
Theorem loop_stacks_are_restored (s s' : AST.Stmt) (st st' : Lowerer) :
  lower_stmt s st = (inr s', st') →
  m_loop_hdr_stack st' = m_loop_hdr_stack st
  ∧ m_loop_end_stack st' = m_loop_end_stack st.
Proof.
  intros Hrun. pose proof (stacks_visit_Stmt s st) as H.
  unfold lower_stmt in Hrun. rewrite Hrun in H. tauto.
Qed.

Lemma loop_stacks_after_the_loop_of_main_literals :
  ∃ s' st',
    lower_stmt
      (AST.While (AST.BinOp AST.Lt (Examples.var "a") (AST.Num 7))
         (AST.Stmts [AST.Assign (AST.Id "a")
                       (AST.BinOp AST.Add (Examples.var "a") (AST.Num 2))]))
      (with_loop_end_stack (λ _, ["outer_end"])
         (with_loop_hdr_stack (λ _, ["outer_hdr"])
            (Examples.state_in Examples.prog_literals "main"))) = (inr s', st')
    ∧ m_loop_hdr_stack st' = ["outer_hdr"]
    ∧ m_loop_end_stack st' = ["outer_end"].
Proof.
  destruct (lower_stmt _ (with_loop_end_stack (λ _, ["outer_end"])
                            (with_loop_hdr_stack (λ _, ["outer_hdr"])
                               (Examples.state_in Examples.prog_literals "main"))))
    as [[err|s'] st'] eqn:Hrun; [by vm_compute in Hrun|].
  exists s', st'. split; [reflexivity|].
  exact (loop_stacks_are_restored _ _ _ _ Hrun).
Defined.

Lemma cfg_step_stacks cur item st cur' st' :
  cfg_step cur item st = (inr cur', st') →
  m_loop_hdr_stack st' = m_loop_hdr_stack st
  ∧ m_loop_end_stack st' = m_loop_end_stack st.
Proof.
  assert (∀ g (k : option BbId) st0,
            (modify_current_fun g ≫= λ _, mret k) st0 = (inr cur', st') →
            m_loop_hdr_stack st' = m_loop_hdr_stack st0
            ∧ m_loop_end_stack st' = m_loop_end_stack st0) as Hmod.
  { intros g k st0. run.
    destruct (modify_current_fun g st0) as [[err|[]] st1] eqn:Hrun; run; [done|].
    intros [= _ <-]. apply modify_current_fun_fields in Hrun. tauto. }
  destruct item as [name|i|t]; simpl.
  - apply Hmod.
  - destruct cur as [bb|]; run; [apply Hmod|].
    destruct (get_current_fun_result st) as [(fn & _ & ->)| ->]; run; [|done].
    destruct (LIR.body fn !! _); run; [apply Hmod|done].
  - destruct cur as [bb|]; [apply Hmod|]. by intros [= _ <-].
Qed.

Lemma cfg_scan_stacks tv : ∀ cur st st',
  cfg_scan tv cur st = (inr (), st') →
  m_loop_hdr_stack st' = m_loop_hdr_stack st
  ∧ m_loop_end_stack st' = m_loop_end_stack st.
Proof.
  induction tv as [|item tv IH]; intros cur st st'; simpl.
  - by intros [= <-].
  - run. destruct (cfg_step cur item st) as [[err|cur1] st1] eqn:Hstep; run; [done|].
    intros Hscan. apply cfg_step_stacks in Hstep. apply IH in Hscan.
    split; destruct Hstep, Hscan; congruence.
Qed.

Lemma add_implicit_return_stacks st st' :
  add_implicit_return st = (inr (), st') →
  m_loop_hdr_stack st' = m_loop_hdr_stack st
  ∧ m_loop_end_stack st' = m_loop_end_stack st.
Proof.
  unfold add_implicit_return. run. destruct (has_ret (m_tv st)); run; by intros [= <-].
Qed.

Lemma visit_FunctionDef_stacks n n' st st' :
  visit_FunctionDef n st = (inr n', st') →
  m_loop_hdr_stack st' = m_loop_hdr_stack st
  ∧ m_loop_end_stack st' = m_loop_end_stack st
  ∧ (m_loop_hdr_stack st = [] → m_loop_end_stack st = [] →
     no_stray_jump (AST.body n) = true).
Proof.
  destruct (LIR.functions (m_lir_prog st) !! AST.name n) as [fn|] eqn:Hfn.
  2:{ unfold visit_FunctionDef, set_context. run. unfold FuncId in *. rewrite Hfn.
      run. done. }
  unfold visit_FunctionDef. run. rewrite (set_context_run _ _ fn Hfn). run.
  set (st2 := with_tv (λ tv, tv ++ _) _).
  pose proof (stacks_visit_Stmt (AST.body n) st2) as Hst. unfold lower_stmt.
  destruct (visit_Stmt (AST.body n) st2) as [[err|body'] st3]; run; [done|].
  destruct (add_implicit_return_run st3) as (st4 & Hret & _). rewrite Hret. run.
  apply add_implicit_return_stacks in Hret as [Hh4 He4].
  unfold build_cfg. run.
  destruct (cfg_scan (m_tv st4) None st4) as [[err|[]] st5] eqn:Hscan; run; [done|].
  intros [= _ <-]. apply cfg_scan_stacks in Hscan as [Hh5 He5].
  simpl in Hst. destruct Hst as (H1 & H2 & H3).
  split; [congruence|]. split; [congruence|]. exact H3.
Qed.

Lemma visit_each_stacks fs : ∀ fs' st st',
  visit_each visit_FunctionDef fs st = (inr fs', st') →
  m_loop_hdr_stack st = [] → m_loop_end_stack st = [] →
  ∀ f, f ∈ fs → no_stray_jump (AST.body f) = true.
Proof.
  induction fs as [|f fs IH]; intros fs' st st'; simpl.
  - intros _ _ _ f Hf. by apply elem_of_nil in Hf.
  - run. destruct (visit_FunctionDef f st) as [[err|f'] st1] eqn:Hf; run; [done|].
    destruct (visit_each visit_FunctionDef fs st1) as [[err|fs1] st2] eqn:Hfs; run; [done|].
    intros _ Hh He g Hg.
    apply visit_FunctionDef_stacks in Hf as (Hh1 & He1 & Hok).
    apply elem_of_cons in Hg as [->|Hg]; [by apply Hok|].
    apply (IH _ _ _ Hfs); [congruence|congruence|done].
Qed.

Lemma build_shell_stacks p :
  m_loop_hdr_stack (build_shell p new_Lowerer).2 = []
  ∧ m_loop_end_stack (build_shell p new_Lowerer).2 = [].
Proof.
  unfold build_shell.
  rewrite run_bind, (for_each_modify (λ n, snd ∘ visit_StructDef n)) by done.
  rewrite run_bind, (for_each_modify (λ n, snd ∘ add_extern n)) by done.
  rewrite (for_each_modify shell_step) by apply add_function_shell_total.
  simpl. split.
  - rewrite (foldl_proj m_loop_hdr_stack shell_step (λ _ m, m)).
    2:{ intros f st. unfold shell_step, add_function_shell. rewrite run_bind. simpl.
        by case_decide. }
    rewrite foldl_const.
    rewrite (foldl_proj m_loop_hdr_stack _ (λ _ m, m)) by done. rewrite foldl_const.
    by rewrite (foldl_proj m_loop_hdr_stack _ (λ _ m, m)), foldl_const.
  - rewrite (foldl_proj m_loop_end_stack shell_step (λ _ m, m)).
    2:{ intros f st. unfold shell_step, add_function_shell. rewrite run_bind. simpl.
        by case_decide. }
    rewrite foldl_const.
    rewrite (foldl_proj m_loop_end_stack _ (λ _ m, m)) by done. rewrite foldl_const.
    by rewrite (foldl_proj m_loop_end_stack _ (λ _ m, m)), foldl_const.
Qed.

(** A program is lowered successfully only if no function body has a
    [break] or [continue] outside every loop: whichever function holds it,
    and whatever was lowered before, the stray jump finds the loop stacks
    empty and the lowering throws. *)
Theorem stray_jumps_are_rejected (p ast' : AST.Program) (lir : LIR.Program) :
  lower p = inr (ast', lir) →
  ∀ f, f ∈ AST.functions p → no_stray_jump (AST.body f) = true.
Proof.
  intros Hrun. destruct (lower_run _ _ _ Hrun) as (fs' & st' & Hfs & _).
  destruct (build_shell_stacks p) as [Hh He].
  by apply (visit_each_stacks _ _ _ _ Hfs).
Qed.

Lemma no_stray_jump_in_main_literals :
  no_stray_jump (AST.body Examples.main_literals) = true.
Proof.
  destruct (lower Examples.prog_literals) as [err|[ast' lir]] eqn:Hrun;
    [by vm_compute in Hrun|].
  apply (stray_jumps_are_rejected _ _ _ Hrun). apply list_elem_of_here.
Defined.

(** ** Lowering without [Not] hands the AST back *)

Lemma returns_ret {A} (a : A) (P : A → Prop) : P a → returns (mret a) P.
Proof. intros H st. exact H. Qed.

Lemma returns_throw {A} e (P : A → Prop) : returns (throw e : Lower A) P.
Proof. intros st. exact I. Qed.

Lemma returns_bind {A B} (m : Lower A) (k : A → Lower B) (Q : A → Prop) (P : B → Prop) :
  returns m Q → (∀ a, Q a → returns (k a) P) → returns (m ≫= k) P.
Proof.
  intros Hm Hk st. rewrite run_bind. specialize (Hm st).
  destruct (m st) as [[err|a] st1]; [done|]. by apply Hk.
Qed.

Lemma returns_skip {A B} (m : Lower A) (k : A → Lower B) (P : B → Prop) :
  (∀ a, returns (k a) P) → returns (m ≫= k) P.
Proof.
  intros Hk. apply (returns_bind m k (λ _, True)); [|by intros a _].
  intros st. by destruct (m st) as [[err|a] st1].
Qed.

Lemma returns_lower_with {A} (m : Lower A) (Q : A → Prop) :
  returns m Q → returns (lower_with m) (λ p, Q p.1).
Proof.
  intros Hm. unfold lower_with. apply (returns_bind _ _ Q); [done|].
  intros a Ha. apply returns_skip. intros r. by apply returns_ret.
Qed.

Lemma returns_run {A} (m : Lower A) (P : A → Prop) st a st' :
  returns m P → m st = (inr a, st') → P a.
Proof. intros H Hrun. specialize (H st). by rewrite Hrun in H. Qed.

Lemma returns_throw_bind {A B} e (k : A → Lower B) (P : B → Prop) :
  returns (throw e ≫= k) P.
Proof. intros st. exact I. Qed.

Ltac ret_step :=
  lazymatch goal with
  | |- returns (mret _) _ => apply returns_ret; try done
  | |- returns (throw _) _ => apply returns_throw
  | |- returns (throw _ ≫= _) _ => apply returns_throw_bind
  | |- returns (lower_with ?m ≫= _) _ =>
      first [ match goal with
              | H : returns m _ |- _ =>
                  apply (returns_bind _ _ _ _ (returns_lower_with _ _ H));
                  intros [? ?] ?; simpl in *; subst
              end
            | apply returns_skip; intros ? ]
  | |- returns (?m ≫= _) _ =>
      first [ match goal with
              | H : returns m _ |- _ =>
                  apply (returns_bind _ _ _ _ H); intros ? ?; simpl in *; subst
              end
            | apply returns_skip; intros ? ]
  | |- returns (let '(_, _) := ?p in _) _ => destruct p; simpl in *; subst
  | |- returns (if ?c then _ else _) _ => destruct c
  | |- returns (match ?x with _ => _ end) _ => destruct x
  end.

Lemma returns_visit_BinOp {L R} op (lower_left : Lower (L * VarId))
    (lower_right : Lower (R * VarId)) (l : L) (r : R) :
  returns lower_left (λ p, p.1 = l) →
  returns lower_right (λ p, p.1 = r) →
  returns (visit_BinOp op lower_left lower_right) (λ p, p = (l, r)).
Proof. intros Hl Hr. destruct op; simpl; repeat ret_step. Qed.

Lemma returns_lower_ptr {A} (lower : A → Lower (A * VarId)) (e : A) :
  returns (lower e) (λ p, p.1 = e) →
  returns (lower_ptr lower (Some e)) (λ p, p.1 = Some e).
Proof. intros H. simpl. repeat ret_step. Qed.

Lemma returns_lower_args_with (lower : AST.Exp → Lower (AST.Exp * VarId)) args :
  Forall (λ a, returns (lower a) (λ p, p.1 = a)) args →
  returns (lower_args_with lower args) (λ p, p.1 = args).
Proof.
  induction 1 as [|a args Ha _ IH]; simpl; repeat ret_step.
Qed.

Lemma returns_visit_AST :
  (∀ e, no_Not_Exp e = true → returns (visit_Exp e) (λ e', e' = e))
  ∧ (∀ p, no_Not_Place p = true → returns (visit_Place p) (λ p', p' = p))
  ∧ (∀ fc, no_Not_FunCall fc = true → returns (visit_FunCall fc) (λ fc', fc' = fc)).
Proof.
  apply AST_nested_ind.
  - (* Val *)
    intros p IHp Hnn. simpl in Hnn. specialize (IHp Hnn).
    destruct (Place_Id_or_not p) as [[x ->]|Hne].
    + simpl. repeat ret_step.
    + rewrite visit_Val_place by done. unfold lower_place. repeat ret_step.
  - (* Num *)
    intros v _. simpl. repeat ret_step.
  - (* NilExp *)
    intros _. simpl. repeat ret_step.
  - (* Select *)
    intros g t f IHg IHt IHf Hnn. simpl in Hnn.
    apply andb_prop in Hnn as [Hnn Hf]. apply andb_prop in Hnn as [Hg Ht].
    specialize (IHg Hg). specialize (IHt Ht). specialize (IHf Hf).
    simpl. repeat ret_step.
  - (* UnOp *)
    intros op oe IH Hnn. destruct op; [|done].
    destruct oe as [e|]; [|simpl; repeat ret_step].
    simpl in IH, Hnn.
    destruct (Exp_Num_or_not e) as [[v ->]|Hne]; [simpl; repeat ret_step|].
    assert (no_Not_Exp e = true) as He by (by destruct e).
    specialize (IH He).
    pose proof (returns_lower_ptr lower_exp e (returns_lower_with _ _ IH)) as Hptr.
    rewrite (proj1 (visit_Neg_exp e Hne)). repeat ret_step.
  - (* BinOp *)
    intros op l r IHl IHr Hnn. simpl in Hnn. apply andb_prop in Hnn as [Hl Hr].
    pose proof (returns_visit_BinOp op _ _ l r
                  (returns_lower_with _ _ (IHl Hl)) (returns_lower_with _ _ (IHr Hr))) as H.
    simpl. repeat ret_step.
  - (* NewSingle *)
    intros t _. simpl. repeat ret_step.
  - (* NewArray *)
    intros t sz IH Hnn. simpl in Hnn. specialize (IH Hnn). simpl. repeat ret_step.
  - (* CallExp *)
    intros fc IH Hnn. simpl in Hnn. specialize (IH Hnn). simpl. repeat ret_step.
  - (* Id *)
    intros x _. simpl. repeat ret_step.
  - (* Deref *)
    intros e IH Hnn. simpl in Hnn. specialize (IH Hnn). simpl. repeat ret_step.
  - (* ArrayAccess *)
    intros a i IHa IHi Hnn. simpl in Hnn. apply andb_prop in Hnn as [Ha Hi].
    specialize (IHa Ha). specialize (IHi Hi). simpl. repeat ret_step.
  - (* FieldAccess *)
    intros e f IH Hnn. simpl in Hnn. specialize (IH Hnn). simpl. repeat ret_step.
  - (* MkFunCall *)
    intros c args IHc IHargs Hnn. simpl in Hnn. apply andb_prop in Hnn as [Hc Hargs].
    specialize (IHc Hc).
    assert (returns (lower_args_with (λ a, lower_with (visit_Exp a)) args)
              (λ p, p.1 = args)) as Hall.
    { apply returns_lower_args_with. clear IHc Hc.
      induction IHargs as [|a args Ha _ IH]; [constructor|].
      simpl in Hargs. apply andb_prop in Hargs as [Ha' Hargs'].
      constructor; [exact (returns_lower_with _ _ (Ha Ha'))|by apply IH]. }
    simpl. repeat ret_step.
Qed.

Lemma returns_visit_each {A} (f : A → Lower A) l :
  Forall (λ x, returns (f x) (λ x', x' = x)) l →
  returns (visit_each f l) (λ l', l' = l).
Proof. induction 1 as [|x l Hx _ IH]; simpl; repeat ret_step. Qed.

Lemma returns_lower_exp e :
  no_Not_Exp e = true → returns (lower_exp e) (λ p, p.1 = e).
Proof.
  intros H. exact (returns_lower_with _ _ (proj1 returns_visit_AST e H)).
Qed.

Lemma returns_lower_place p :
  no_Not_Place p = true → returns (lower_place p) (λ r, r.1 = p).
Proof.
  intros H. exact (returns_lower_with _ _ (proj1 (proj2 returns_visit_AST) p H)).
Qed.

Lemma returns_lower_args args :
  forallb no_Not_Exp args = true → returns (lower_args args) (λ p, p.1 = args).
Proof.
  intros H. apply returns_lower_args_with.
  induction args as [|a args IH]; [constructor|].
  simpl in H. apply andb_prop in H as [Ha Hargs].
  constructor; [by apply returns_lower_exp|by apply IH].
Qed.

Lemma returns_visit_Stmt s :
  no_Not_Stmt s = true → returns (visit_Stmt s) (λ s', s' = s).
Proof.
  induction s as [ss IH|p e|fc|g t f Ht Hf|g b Hb| | |e] using Stmt_nested_ind;
    intros Hnn; simpl in Hnn.
  - (* Stmts *)
    assert (returns (visit_each visit_Stmt ss) (λ l', l' = ss)) as Hall.
    { apply returns_visit_each.
      induction IH as [|s ss Hs _ IHss]; [constructor|].
      simpl in Hnn. apply andb_prop in Hnn as [Hs' Hss'].
      constructor; [by apply Hs|by apply IHss]. }
    simpl. repeat ret_step.
  - (* Assign *)
    apply andb_prop in Hnn as [Hp He].
    pose proof (returns_lower_exp e He) as He'.
    destruct (Place_Id_or_not p) as [[x ->]|Hne].
    + simpl. repeat ret_step.
    + pose proof (returns_lower_place p Hp) as Hp'.
      rewrite visit_Assign_place by done. repeat ret_step.
  - (* CallStmt *)
    destruct fc as [c args]. simpl in Hnn. apply andb_prop in Hnn as [Hc Hargs].
    pose proof (returns_lower_exp c Hc) as Hc'.
    pose proof (returns_lower_args args Hargs) as Hargs'.
    simpl. repeat ret_step.
  - (* If *)
    apply andb_prop in Hnn as [Hnn Hf']. apply andb_prop in Hnn as [Hg Ht'].
    pose proof (returns_lower_exp g Hg) as Hg'. specialize (Ht Ht').
    destruct f as [s|]; simpl in Hf.
    + specialize (Hf Hf').
      assert (returns (s' ← visit_Stmt s; mret (Some s')) (λ o, o = Some s)) as Hff
        by repeat ret_step.
      simpl. repeat ret_step.
    + assert (returns (mret None : Lower (option AST.Stmt)) (λ o, o = None)) as Hff
        by repeat ret_step.
      simpl. repeat ret_step.
  - (* While *)
    apply andb_prop in Hnn as [Hg Hb'].
    pose proof (returns_lower_exp g Hg) as Hg'. specialize (Hb Hb').
    simpl. repeat ret_step.
  - (* Break *)
    simpl. repeat ret_step.
  - (* Continue *)
    simpl. repeat ret_step.
  - (* Return *)
    destruct e as [e|]; [pose proof (returns_lower_exp e Hnn) as He|];
      simpl; repeat ret_step.
Qed.

Lemma returns_visit_FunctionDef n :
  no_Not_Stmt (AST.body n) = true → returns (visit_FunctionDef n) (λ n', n' = n).
Proof.
  intros Hnn.
  assert (returns (lower_stmt (AST.body n)) (λ s', s' = AST.body n)) as Hbody
    by (by apply returns_visit_Stmt).
  unfold visit_FunctionDef. repeat ret_step. by destruct n.
Qed.

Lemma returns_visit_Program p :
  no_Not_Program p = true → returns (visit_Program p) (λ p', p' = p).
Proof.
  intros Hnn.
  assert (returns (visit_each visit_FunctionDef (AST.functions p))
            (λ l', l' = AST.functions p)) as Hall.
  { apply returns_visit_each. unfold no_Not_Program in Hnn.
    induction (AST.functions p) as [|f fs IH]; [constructor|].
    simpl in Hnn. apply andb_prop in Hnn as [Hf Hfs].
    constructor; [by apply returns_visit_FunctionDef|by apply IH]. }
  unfold visit_Program. repeat ret_step. by destruct p.
Qed.

(** Lowering hands the AST back as it was unless the AST holds a logical
    negation: for a program, and for a statement, without [UnOp Not], the
    tree after a successful lowering equals the tree before.  The [Not]
    visitor is the only one that writes to a node. *)
Theorem lowering_without_Not_keeps_the_AST :
  (∀ p ast' lir, no_Not_Program p = true → lower p = inr (ast', lir) → ast' = p)
  ∧ (∀ s s' st st', no_Not_Stmt s = true → lower_stmt s st = (inr s', st') → s' = s).
Proof.
  split.
  - intros p ast' lir Hnn. unfold lower.
    pose proof (returns_visit_Program p Hnn new_Lowerer) as H.
    destruct (visit_Program p new_Lowerer) as [[err|a] st]; [done|].
    by intros [= <- _].
  - intros s s' st st' Hnn Hrun.
    by apply (returns_run _ _ _ _ _ (returns_visit_Stmt s Hnn) Hrun).
Qed.

Lemma lowering_calls_keeps_the_AST :
  ∃ lir, lower Examples.prog_calls = inr (Examples.prog_calls, lir).
Proof.
  destruct (lower Examples.prog_calls) as [err|[ast' lir]] eqn:Hrun;
    [by vm_compute in Hrun|].
  assert (no_Not_Program Examples.prog_calls = true) as Hnn by reflexivity.
  exists lir. f_equal. f_equal.
  exact (proj1 lowering_without_Not_keeps_the_AST Examples.prog_calls ast' lir Hnn Hrun).
Defined.

(** ** Type conversion *)

Section Ty_induction.
Variable P : AST.Ty → Prop.
Hypothesis HInt : P AST.IntType.
Hypothesis HNil : P AST.NilType.
Hypothesis HStruct : ∀ name, P (AST.StructType name).
Hypothesis HPtr : ∀ t, P t → P (AST.PtrType t).
Hypothesis HArray : ∀ t, P t → P (AST.ArrayType t).
Hypothesis HFn : ∀ ps r, Forall P ps → P r → P (AST.FnType ps r).

Fixpoint Ty_nested_ind (t : AST.Ty) : P t :=
  match t with
  | AST.IntType => HInt
  | AST.NilType => HNil
  | AST.StructType name => HStruct name
  | AST.PtrType p => HPtr p (Ty_nested_ind p)
  | AST.ArrayType a => HArray a (Ty_nested_ind a)
  | AST.FnType ps r =>
      HFn ps r
        ((fix go (l : list AST.Ty) : Forall P l :=
            match l with
            | [] => @List.Forall_nil _ P
            | x :: rest => @List.Forall_cons _ P x rest (Ty_nested_ind x) (go rest)
            end) ps)
        (Ty_nested_ind r)
  end.
End Ty_induction.

(** Type conversion loses nothing: AST types that convert to the same LIR
    type are the same type, so different declared types stay different in
    the lowered program. *)
Theorem convert_type_is_injective (a b : AST.Ty) :
  convert_type a = convert_type b → a = b.
Proof.
  revert b.
  induction a as [| |name|t IH|t IH|ps r IHps IHr] using Ty_nested_ind;
    intros b Heq; destruct b; simpl in Heq; try discriminate; try done.
  - by injection Heq as ->.
  - injection Heq as Heq. f_equal. by apply IH.
  - injection Heq as Heq. f_equal. by apply IH.
  - injection Heq as Hps Hr. f_equal; [|by apply IHr].
    clear IHr Hr. revert paramTypes Hps.
    induction IHps as [|p ps Hp _ IH]; intros [|q qs] Hps; simpl in Hps;
      try discriminate; [done|].
    injection Hps as Hq Hqs. f_equal; [by apply Hp|by apply IH].
Qed.

Lemma convert_type_of_function_pointers :
  convert_type (AST.PtrType (AST.FnType [AST.IntType; AST.NilType] AST.IntType))
  = LIR.PtrType (LIR.FnType [LIR.IntType; LIR.NilType] LIR.IntType)
  ∧ AST.PtrType (AST.FnType [AST.IntType; AST.NilType] AST.IntType)
    = AST.PtrType (AST.FnType [AST.IntType; AST.NilType] AST.IntType).
Proof.
  split; [reflexivity|].
  exact (convert_type_is_injective
           (AST.PtrType (AST.FnType [AST.IntType; AST.NilType] AST.IntType))
           (AST.PtrType (AST.FnType [AST.IntType; AST.NilType] AST.IntType)) eq_refl).
Defined.

(** ** Emitted items stay where they are *)

Lemma emitted_app tv1 tv2 : emitted (tv1 ++ tv2) = emitted tv1 ++ emitted tv2.
Proof. unfold emitted. apply filter_app. Qed.

Lemma emitted_tv_insert pos n tv tv' :
  tv_insert pos (TvInst (const_inst n)) tv = Some tv' → emitted tv' = emitted tv.
Proof.
  intros [_ ->]%tv_insert_Some. rewrite <- (take_drop pos tv) at 3.
  rewrite !emitted_app. f_equal.
Qed.

Section Keeps_emitted.
Variable base : list TranslationItem.

Lemma keeps_emitted_fields st st' :
  m_tv st' = m_tv st → keeps_emitted base st → keeps_emitted base st'.
Proof. unfold keeps_emitted. by intros ->. Qed.

Lemma keeps_emitted_emit st item :
  keeps_emitted base st → keeps_emitted base (with_tv (λ tv, tv ++ [item]) st).
Proof.
  intros [new Hnew]. unfold keeps_emitted. simpl. rewrite emitted_app, Hnew.
  exists (new ++ emitted [item]). by rewrite app_assoc.
Qed.

Lemma keeps_emitted_add_local g :
  advances (λ _, keeps_emitted base) any_error (modify_current_fun g) [].
Proof.
  intros cs st H. destruct (modify_current_fun g st) as [[err|[]] st'] eqn:Hrun; [done|].
  apply modify_current_fun_fields in Hrun as (Htv & _).
  by apply (keeps_emitted_fields st).
Qed.

Lemma keeps_emitted_fresh_inner ty :
  advances (λ _, keeps_emitted base) any_error (fresh_inner_var ty) [].
Proof.
  intros cs st H. unfold fresh_inner_var. run.
  pose proof (keeps_emitted_add_local
                (LIR.with_locals <["_inner" +:+ to_string (m_tmp_counter st) := ty]>) cs
                (with_tmp_counter (wrap_int (m_tmp_counter st + 1)) st)) as H'.
  destruct (modify_current_fun _ _) as [[err|[]] st']; run; [done|].
  apply H'. by apply (keeps_emitted_fields st).
Qed.

Lemma keeps_emitted_fresh_non_inner ty :
  advances (λ _, keeps_emitted base) any_error (fresh_non_inner_var ty) [].
Proof.
  intros cs st H. unfold fresh_non_inner_var. run.
  pose proof (keeps_emitted_add_local
                (LIR.with_locals <["_tmp" +:+ to_string (m_tmp_counter st) := ty]>) cs
                (with_tmp_counter (wrap_int (m_tmp_counter st + 1)) st)) as H'.
  destruct (modify_current_fun _ _) as [[err|[]] st']; run; [done|].
  apply H'. by apply (keeps_emitted_fields st).
Qed.

Lemma keeps_emitted_const_var n :
  advances (λ _, keeps_emitted base) any_error (const_var n) [n].
Proof.
  intros cs st H. unfold const_var. run.
  destruct (get_current_fun_result st) as [(fn & _ & ->)| ->]; run; [|done].
  destruct (LIR.locals fn !! const_name n) as [t|]; run; [done|].
  destruct (modify_current_fun _ st) as [[err|[]] st'] eqn:Hrun; run; [done|].
  fold (const_inst n).
  destruct (tv_insert _ _ _) as [tv'|] eqn:Hins; run; [|done].
  apply modify_current_fun_fields in Hrun as (Htv & _).
  destruct H as [new Hnew]. exists new. simpl.
  by rewrite (emitted_tv_insert _ _ _ _ Hins), Htv.
Qed.

Lemma keeps_emitted_lower_stmt s :
  advances (λ _, keeps_emitted base) any_error (lower_stmt s) (const_uses_Stmt s).
Proof.
  apply (adv_lower_stmt (λ _, keeps_emitted base) any_error).
  - done.
  - intros cs st item _. apply keeps_emitted_emit.
  - intros cs st x. by apply keeps_emitted_fields.
  - intros cs st n. by apply keeps_emitted_fields.
  - intros cs st g. by apply keeps_emitted_fields.
  - intros cs st g. by apply keeps_emitted_fields.
  - apply keeps_emitted_fresh_inner.
  - apply keeps_emitted_fresh_non_inner.
  - apply keeps_emitted_const_var.
Qed.
End Keeps_emitted.

(** Lowering a statement never removes or reorders what has been emitted:
    apart from the [Const] instructions, which are inserted near the front,
    the translation vector after the lowering is the vector before it with
    new items appended. *)
Theorem emitted_items_are_kept (s s' : AST.Stmt) (st st' : Lowerer) :
  lower_stmt s st = (inr s', st') →
  ∃ new, emitted (m_tv st') = emitted (m_tv st) ++ new.
Proof.
  intros Hrun.
  pose proof (keeps_emitted_lower_stmt (emitted (m_tv st)) s [] st) as H.
  rewrite Hrun in H. apply H. exists []. by rewrite app_nil_r.
Qed.

Lemma emitted_items_of_main_literals :
  ∃ s' st' new,
    lower_stmt (AST.body Examples.main_literals)
      (Examples.state_in Examples.prog_literals "main")
    = (inr s', st')
    ∧ emitted (m_tv st') = [TvLabel "main_entry"] ++ new.
Proof.
  destruct (lower_stmt (AST.body Examples.main_literals)
              (Examples.state_in Examples.prog_literals "main"))
    as [[err|s'] st'] eqn:Hrun; [by vm_compute in Hrun|].
  destruct (emitted_items_are_kept _ _ _ _ Hrun) as [new Hnew].
  exists s', st', new. split; [reflexivity|exact Hnew].
Defined.

(** ** Fresh temporaries *)

Lemma typeof_after_add_local (x : string) ty st st' :
  modify_current_fun (LIR.with_locals <[x := ty]>) st = (inr (), st') →
  typeof st' x = ty ∧ (∀ z : string, z ≠ x → typeof st' z = typeof st z).
Proof.
  unfold modify_current_fun.
  destruct (m_current_fun st) as [f|] eqn:Hcur; [|done].
  destruct (LIR.functions (m_lir_prog st) !! f) as [fn|] eqn:Hfn; [|done].
  intros [= <-]. unfold typeof, current_fun. simpl. rewrite Hcur. simpl.
  unfold FuncId in *. rewrite lookup_insert_eq, Hfn. simpl. split.
  - unfold VarId. by rewrite lookup_insert_eq.
  - intros z Hz. unfold VarId. by rewrite lookup_insert_ne.
Qed.

Lemma append_to_string_inj (prefix : string) (n m : Z) :
  prefix +:+ to_string n = prefix +:+ to_string m → n = m.
Proof.
  intros H. apply (inj (String.app prefix)) in H. unfold to_string in H.
  by apply pretty_Z_inj in H.
Qed.

(** A fresh temporary is named after the counter, [_tmp<n>] or [_inner<n>],
    is never a constant holder, has the requested type afterwards, and
    leaves the type of every other name as it was; the counter advances by
    one, and names minted at different counter values differ. *)
Theorem fresh_variables_are_typed_and_new (ty : LIR.Ty) (st : Lowerer) :
  (∀ x st', fresh_non_inner_var ty st = (inr x, st') →
     x = "_tmp" +:+ to_string (m_tmp_counter st)
     ∧ m_tmp_counter st' = wrap_int (m_tmp_counter st + 1)
     ∧ is_const_name x = false
     ∧ typeof st' x = ty
     ∧ (∀ z : string, z ≠ x → typeof st' z = typeof st z))
  ∧ (∀ x st', fresh_inner_var ty st = (inr x, st') →
       x = "_inner" +:+ to_string (m_tmp_counter st)
       ∧ m_tmp_counter st' = wrap_int (m_tmp_counter st + 1)
       ∧ is_const_name x = false
       ∧ typeof st' x = ty
       ∧ (∀ z : string, z ≠ x → typeof st' z = typeof st z))
  ∧ (∀ n m : Z, "_tmp" +:+ to_string n = "_tmp" +:+ to_string m → n = m)
  ∧ (∀ n m : Z, "_inner" +:+ to_string n = "_inner" +:+ to_string m → n = m)
  ∧ (∀ n m : Z, "_tmp" +:+ to_string n ≠ "_inner" +:+ to_string m).
Proof.
  split; [|split; [|split; [|split]]].
  - intros x st'. unfold fresh_non_inner_var. run.
    destruct (modify_current_fun _ _) as [[err|[]] st1] eqn:Hrun; run; [done|].
    intros [= <- <-]. split; [done|].
    pose proof (modify_current_fun_fields _ _ _ Hrun) as (_ & _ & _ & _ & _ & Hc & _).
    split; [by rewrite Hc|]. split; [apply is_const_name_tmp|].
    apply typeof_after_add_local in Hrun as [H1 H2]. split; [done|].
    intros z Hz. by rewrite H2.
  - intros x st'. unfold fresh_inner_var. run.
    destruct (modify_current_fun _ _) as [[err|[]] st1] eqn:Hrun; run; [done|].
    intros [= <- <-]. split; [done|].
    pose proof (modify_current_fun_fields _ _ _ Hrun) as (_ & _ & _ & _ & _ & Hc & _).
    split; [by rewrite Hc|]. split; [apply is_const_name_inner|].
    apply typeof_after_add_local in Hrun as [H1 H2]. split; [done|].
    intros z Hz. by rewrite H2.
  - intros n m. apply append_to_string_inj.
  - intros n m. apply append_to_string_inj.
  - intros n m. simpl. discriminate.
Qed.

(** ** Declared names keep their types *)

Lemma current_locals_add_local (x : string) ty st st' :
  modify_current_fun (LIR.with_locals <[x := ty]>) st = (inr (), st') →
  current_locals st' = <[x := ty]> (current_locals st)
  ∧ LIR.funptrs (m_lir_prog st') = LIR.funptrs (m_lir_prog st)
  ∧ LIR.externs (m_lir_prog st') = LIR.externs (m_lir_prog st).
Proof.
  unfold modify_current_fun.
  destruct (m_current_fun st) as [f|] eqn:Hcur; [|done].
  destruct (LIR.functions (m_lir_prog st) !! f) as [fn|] eqn:Hfn; [|done].
  intros [= <-]. unfold current_locals, current_fun. simpl. rewrite Hcur. simpl.
  unfold FuncId in *. by rewrite lookup_insert_eq, Hfn.
Qed.

Lemma is_minted_name_tmp s : is_minted_name ("_tmp" +:+ s) = true.
Proof. unfold is_minted_name. simpl. by rewrite prefix_empty. Qed.

Lemma is_minted_name_inner s : is_minted_name ("_inner" +:+ s) = true.
Proof. unfold is_minted_name. simpl. rewrite prefix_empty. by rewrite ?orb_true_r. Qed.

Lemma is_minted_name_const n : is_minted_name (const_name n) = true.
Proof.
  unfold is_minted_name, const_name. simpl. rewrite prefix_empty. by rewrite ?orb_true_r.
Qed.

Section Keeps_declared.
Variables (L0 : gmap string LIR.Ty) (fp ex : gmap string LIR.Ty).

Lemma keeps_declared_fields st st' :
  m_lir_prog st' = m_lir_prog st → m_current_fun st' = m_current_fun st →
  keeps_names L0 fp ex st → keeps_names L0 fp ex st'.
Proof.
  unfold keeps_names, keeps_declared, current_locals, current_fun. by intros -> ->.
Qed.

Lemma keeps_declared_add_local (x : string) ty :
  is_minted_name x = true →
  advances (λ _, keeps_names L0 fp ex) any_error (modify_current_fun (LIR.with_locals <[x := ty]>)) [].
Proof.
  intros Hx cs st (H & Hfp & Hex).
  destruct (modify_current_fun _ st) as [[err|[]] st'] eqn:Hrun; [done|].
  apply current_locals_add_local in Hrun as (Hloc & Hfp' & Hex').
  split; [|split; congruence].
  intros z Hz. rewrite Hloc, lookup_insert_ne; [by apply H|]. intros ->. congruence.
Qed.

Lemma keeps_declared_fresh_inner ty :
  advances (λ _, keeps_names L0 fp ex) any_error (fresh_inner_var ty) [].
Proof.
  intros cs st H. unfold fresh_inner_var. run.
  pose proof (keeps_declared_add_local ("_inner" +:+ to_string (m_tmp_counter st)) ty
                (is_minted_name_inner _) cs
                (with_tmp_counter (wrap_int (m_tmp_counter st + 1)) st)) as H'.
  destruct (modify_current_fun _ _) as [[err|[]] st']; run; [done|].
  apply H'. by apply (keeps_declared_fields st).
Qed.

Lemma keeps_declared_fresh_non_inner ty :
  advances (λ _, keeps_names L0 fp ex) any_error (fresh_non_inner_var ty) [].
Proof.
  intros cs st H. unfold fresh_non_inner_var. run.
  pose proof (keeps_declared_add_local ("_tmp" +:+ to_string (m_tmp_counter st)) ty
                (is_minted_name_tmp _) cs
                (with_tmp_counter (wrap_int (m_tmp_counter st + 1)) st)) as H'.
  destruct (modify_current_fun _ _) as [[err|[]] st']; run; [done|].
  apply H'. by apply (keeps_declared_fields st).
Qed.

Lemma keeps_declared_const_var n :
  advances (λ _, keeps_names L0 fp ex) any_error (const_var n) [n].
Proof.
  intros cs st H. unfold const_var. run.
  destruct (get_current_fun_result st) as [(fn & _ & ->)| ->]; run; [|done].
  destruct (LIR.locals fn !! const_name n) as [t|]; run; [done|].
  pose proof (keeps_declared_add_local (const_name n) LIR.IntType
                (is_minted_name_const n) cs st H) as H'.
  destruct (modify_current_fun _ st) as [[err|[]] st'] eqn:Hrun; run; [done|].
  destruct (tv_insert _ _ _) as [tv'|]; run; [|done].
  by apply (keeps_declared_fields st').
Qed.

Lemma keeps_declared_lower_stmt s :
  advances (λ _, keeps_names L0 fp ex) any_error (lower_stmt s) (const_uses_Stmt s).
Proof.
  apply (adv_lower_stmt (λ _, keeps_names L0 fp ex) any_error).
  - done.
  - intros cs st item _. by apply keeps_declared_fields.
  - intros cs st x. by apply keeps_declared_fields.
  - intros cs st n. by apply keeps_declared_fields.
  - intros cs st g. by apply keeps_declared_fields.
  - intros cs st g. by apply keeps_declared_fields.
  - apply keeps_declared_fresh_inner.
  - apply keeps_declared_fresh_non_inner.
  - apply keeps_declared_const_var.
Qed.

Lemma keeps_declared_lower_exp e :
  advances (λ _, keeps_names L0 fp ex) any_error (lower_exp e) (const_uses_Exp e).
Proof.
  apply (adv_lower_exp (λ _, keeps_names L0 fp ex) any_error).
  - done.
  - intros cs st item _. by apply keeps_declared_fields.
  - intros cs st x. by apply keeps_declared_fields.
  - intros cs st n. by apply keeps_declared_fields.
  - apply keeps_declared_fresh_inner.
  - apply keeps_declared_fresh_non_inner.
  - apply keeps_declared_const_var.
Qed.

Lemma keeps_declared_lower_args args :
  advances (λ _, keeps_names L0 fp ex) any_error (lower_args args) (uses_from_last const_uses_Exp args).
Proof.
  apply (adv_lower_args_all (λ _, keeps_names L0 fp ex) any_error).
  - done.
  - intros cs st item _. by apply keeps_declared_fields.
  - intros cs st x. by apply keeps_declared_fields.
  - intros cs st n. by apply keeps_declared_fields.
  - apply keeps_declared_fresh_inner.
  - apply keeps_declared_fresh_non_inner.
  - apply keeps_declared_const_var.
Qed.

Lemma keeps_declared_typeof st st' (x : string) :
  is_minted_name x = false →
  keeps_declared (current_locals st) st' →
  LIR.funptrs (m_lir_prog st') = LIR.funptrs (m_lir_prog st) →
  LIR.externs (m_lir_prog st') = LIR.externs (m_lir_prog st) →
  typeof st' x = typeof st x.
Proof.
  intros Hx Hk Hfp Hex. specialize (Hk x Hx).
  unfold typeof. rewrite Hfp, Hex. unfold current_locals in Hk.
  destruct (current_fun st') as [fn'|], (current_fun st) as [fn|]; simpl in *;
    unfold VarId; rewrite ?Hk, ?lookup_empty; try done.
  by rewrite <- Hk, lookup_empty.
Qed.
End Keeps_declared.

(** Lowering a statement or an expression leaves the type of every name
    that is not a temporary or a constant holder ([_tmp...], [_inner...],
    [_const_...]) as it was: [typeof_var] answers the same for the
    variables, functions and externs of the program before and after. *)
Theorem declared_names_keep_their_types (st : Lowerer) (x : string) :
  is_minted_name x = false →
  (∀ s s' st', lower_stmt s st = (inr s', st') → typeof st' x = typeof st x)
  ∧ (∀ e r st', lower_exp e st = (inr r, st') → typeof st' x = typeof st x).
Proof.
  intros Hx.
  assert (keeps_names (current_locals st) (LIR.funptrs (m_lir_prog st))
            (LIR.externs (m_lir_prog st)) st) as H0 by (by repeat split).
  split.
  - intros s s' st' Hrun.
    pose proof (keeps_declared_lower_stmt _ _ _ s [] st H0) as H.
    rewrite Hrun in H. destruct H as (H1 & H2 & H3). by apply keeps_declared_typeof.
  - intros e r st' Hrun.
    pose proof (keeps_declared_lower_exp _ _ _ e [] st H0) as H.
    rewrite Hrun in H. destruct H as (H1 & H2 & H3). by apply keeps_declared_typeof.
Qed.

Lemma declared_names_in_main_literals :
  ∃ s' st',
    lower_stmt (AST.body Examples.main_literals)
      (Examples.state_in Examples.prog_literals "main") = (inr s', st')
    ∧ typeof st' "a" = LIR.IntType.
Proof.
  destruct (lower_stmt (AST.body Examples.main_literals)
              (Examples.state_in Examples.prog_literals "main"))
    as [[err|s'] st'] eqn:Hrun; [by vm_compute in Hrun|].
  exists s', st'. split; [reflexivity|].
  assert (is_minted_name "a" = false) as Ha by reflexivity.
  rewrite (proj1 (declared_names_keep_their_types _ "a" Ha) _ _ _ Hrun).
  vm_compute; reflexivity.
Defined.

(** A call of a function by its name gets the function's return type.  The
    callee is an identifier that is not of a form the lowerer mints
    ([_tmp...], [_inner...], [_const_...]; lowering the arguments may give
    such a name a new type) and whose type is [Fn(_, r)] or [Ptr(Fn(_, r))]
    before the call is lowered.  Then the lowered call expression ends with
    a [Call] of that name into a fresh temporary, the result of the
    expression, and the temporary has type [r], whatever the arguments
    are. *)
Theorem call_result_has_the_return_type (g : string) (args : list AST.Exp)
    (ps : list LIR.Ty) (r : LIR.Ty) (st st' : Lowerer) (e' : AST.Exp) (lhs : string) :
  is_minted_name g = false →
  typeof st g = LIR.FnType ps r ∨ typeof st g = LIR.PtrType (LIR.FnType ps r) →
  lower_exp (AST.CallExp (AST.MkFunCall (AST.Val (AST.Id g)) args)) st
  = (inr (e', lhs), st') →
  typeof st' lhs = r
  ∧ ∃ xs, last (m_tv st') = Some (TvInst (LIR.Call (Some lhs) g xs)).
Proof.
  intros Hg Hty.
  assert (keeps_names (current_locals st) (LIR.funptrs (m_lir_prog st))
            (LIR.externs (m_lir_prog st)) st) as H0 by (by repeat split).
  pose proof (keeps_declared_lower_args _ _ _ args [] st H0) as Hargs.
  unfold lower_exp, lower_with. simpl. run.
  change (lower_args_with (λ a, lower_with (visit_Exp a)) args st)
    with (lower_args args st).
  destruct (lower_args args st) as [[err|[args' xs]] st1]; run; [done|].
  destruct Hargs as (H1 & H2 & H3).
  unfold lower_with, set_last_result_id, typeof_var. run.
  assert (typeof (with_last_result_id g st1) g = typeof st g) as Hsame
    by (by apply (keeps_declared_typeof st st1)).
  cbn [m_last_result_id with_last_result_id]. rewrite Hsame.
  assert (typeof_func_ret (typeof st g) (with_last_result_id g st1)
          = (inr r, with_last_result_id g st1)) as ->
    by (by destruct Hty as [-> | ->]).
  run. unfold fresh_non_inner_var. run.
  destruct (modify_current_fun _ _) as [[err|[]] st2] eqn:Hrun; run; [done|].
  unfold release. run. intros [= _ <- <-]. simpl.
  apply typeof_after_add_local in Hrun as [Hlhs _].
  split; [exact Hlhs|]. exists xs. by rewrite last_snoc.
Qed.

Lemma call_result_of_g_is_int :
  ∃ e' lhs st',
    lower_exp (AST.CallExp Examples.call_g_a_b)
      (Examples.state_in Examples.prog_calls "main") = (inr (e', lhs), st')
    ∧ typeof st' lhs = LIR.IntType.
Proof.
  destruct (lower_exp (AST.CallExp Examples.call_g_a_b)
              (Examples.state_in Examples.prog_calls "main"))
    as [[err|[e' lhs]] st'] eqn:Hrun; [by vm_compute in Hrun|].
  exists e', lhs, st'. split; [reflexivity|].
  assert (is_minted_name "g" = false) as Hg by reflexivity.
  assert (typeof (Examples.state_in Examples.prog_calls "main") "g"
          = LIR.PtrType (LIR.FnType [LIR.IntType; LIR.IntType] LIR.IntType)) as Hty
    by (vm_compute; reflexivity).
  exact (proj1 (call_result_has_the_return_type "g" _ _ _ _ _ _ _ Hg (or_intror Hty) Hrun)).
Defined.

(** ** The labels of a lowering *)

Lemma labels_of_app tv1 tv2 : labels_of (tv1 ++ tv2) = labels_of tv1 ++ labels_of tv2.
Proof. unfold labels_of. apply omap_app. Qed.

Lemma labels_of_tv_insert pos i tv tv' :
  tv_insert pos (TvInst i) tv = Some tv' → labels_of tv' = labels_of tv.
Proof.
  intros [_ ->]%tv_insert_Some. rewrite <- (take_drop pos tv) at 3.
  by rewrite !labels_of_app.
Qed.

Lemma la_eq c {A} (m : Lower A) n n' ks ks' :
  labels_advance c m n ks → n = n' → ks = ks' → labels_advance c m n' ks'.
Proof. by intros H <- <-. Qed.

Lemma la_keep c {A} (m : Lower A) :
  (∀ st, match m st with
         | (inr _, st') => m_label_counter st' = m_label_counter st ∧ m_tv st' = m_tv st
         | (inl _, _) => True
         end) →
  labels_advance c m 0 [].
Proof.
  intros H st Hc _ _. specialize (H st). destruct (m st) as [[err|a] st']; [done|].
  destruct H as [-> ->]. simpl. rewrite app_nil_r. split; [lia|done].
Qed.

Lemma la_ret c {A} (a : A) : labels_advance c (mret a) 0 [].
Proof. by apply la_keep. Qed.

Lemma la_throw c {A} e n ks : labels_advance c (throw e : Lower A) n ks.
Proof. by intros st _ _ _. Qed.

Lemma la_gets c {A} (f : Lowerer → A) : labels_advance c (gets f) 0 [].
Proof. by apply la_keep. Qed.

Lemma la_release c vars : labels_advance c (release vars) 0 [].
Proof. by apply la_keep. Qed.

Lemma la_set_last c x : labels_advance c (set_last_result_id x) 0 [].
Proof. by apply la_keep. Qed.

Lemma la_modify_hdr c f : labels_advance c (modify (with_loop_hdr_stack f)) 0 [].
Proof. by apply la_keep. Qed.

Lemma la_modify_end c f : labels_advance c (modify (with_loop_end_stack f)) 0 [].
Proof. by apply la_keep. Qed.

Lemma la_typeof_var c id : labels_advance c (typeof_var id) 0 [].
Proof. by apply la_keep. Qed.

Lemma la_typeof_field c sid fid : labels_advance c (typeof_field sid fid) 0 [].
Proof.
  apply la_keep. intros st. unfold typeof_field. run. by destruct (_ ≫= _).
Qed.

Lemma la_typeof_array_element c t : labels_advance c (typeof_array_element t) 0 [].
Proof. apply la_keep. intros st. by destruct t. Qed.

Lemma la_typeof_ptr_element c t : labels_advance c (typeof_ptr_element t) 0 [].
Proof. apply la_keep. intros st. by destruct t. Qed.

Lemma la_typeof_func_ret c t : labels_advance c (typeof_func_ret t) 0 [].
Proof.
  apply la_keep. intros st. destruct t as [| | | |t'|]; try done. by destruct t'.
Qed.

Lemma la_convert_arith_op c op : labels_advance c (convert_arith_op op) 0 [].
Proof. apply la_keep. intros st. by destruct op. Qed.

Lemma la_convert_rel_op c op : labels_advance c (convert_rel_op op) 0 [].
Proof. apply la_keep. intros st. by destruct op. Qed.

Lemma la_emit_other c item :
  is_label item = false → labels_advance c (emit item) 0 [].
Proof.
  intros Hitem st Hc _ _. rewrite run_emit. simpl. split; [lia|].
  rewrite labels_of_app, app_nil_r. destruct item; [done|..]; by rewrite app_nil_r.
Qed.

Lemma la_emit_label c (p : string) (k : Z) :
  labels_advance c (emit (TvLabel (p +:+ to_string k))) 0 [(p, k)].
Proof.
  intros st Hc _ _. rewrite run_emit. simpl. split; [lia|]. by rewrite labels_of_app.
Qed.

Lemma la_add_local c g : labels_advance c (modify_current_fun g) 0 [].
Proof.
  apply la_keep. intros st.
  destruct (modify_current_fun g st) as [[err|[]] st'] eqn:Hrun; [done|].
  apply modify_current_fun_fields in Hrun. tauto.
Qed.

Lemma la_fresh_inner c ty : labels_advance c (fresh_inner_var ty) 0 [].
Proof.
  apply la_keep. intros st. unfold fresh_inner_var. run.
  destruct (modify_current_fun _ _) as [[err|[]] st'] eqn:Hrun; run; [done|].
  apply modify_current_fun_fields in Hrun. tauto.
Qed.

Lemma la_fresh_non_inner c ty : labels_advance c (fresh_non_inner_var ty) 0 [].
Proof.
  apply la_keep. intros st. unfold fresh_non_inner_var. run.
  destruct (modify_current_fun _ _) as [[err|[]] st'] eqn:Hrun; run; [done|].
  apply modify_current_fun_fields in Hrun. tauto.
Qed.

Lemma la_const_var c n : labels_advance c (const_var n) 0 [].
Proof.
  intros st Hc _ _. unfold const_var. run.
  destruct (get_current_fun_result st) as [(fn & _ & ->)| ->]; run; [|done].
  destruct (LIR.locals fn !! const_name n) as [t|]; run.
  - simpl. rewrite app_nil_r. split; [lia|done].
  - destruct (modify_current_fun _ st) as [[err|[]] st'] eqn:Hrun; run; [done|].
    destruct (tv_insert _ _ _) as [tv'|] eqn:Hins; run; [|done].
    apply modify_current_fun_fields in Hrun as (Htv & _ & _ & _ & _ & _ & Hl).
    simpl. rewrite (labels_of_tv_insert _ _ _ _ Hins), Htv, Hl, app_nil_r. split; [lia|done].
Qed.

Lemma la_bind c {A B} (m : Lower A) (k : A → Lower B) n1 n2 k1 k2 :
  labels_advance c m n1 k1 →
  (∀ a, labels_advance (c + Z.of_nat n1) (k a) n2 k2) →
  labels_advance c (m ≫= k) (n1 + n2) (k1 ++ k2).
Proof.
  intros Hm Hk st Hc H0 Hmax. rewrite run_bind.
  specialize (Hm st Hc H0 ltac:(lia)).
  destruct (m st) as [[err|a] st1]; [done|]. destruct Hm as [Hc1 Htv1].
  specialize (Hk a st1 Hc1 ltac:(lia) ltac:(lia)).
  destruct (k a st1) as [[err|b] st2]; [done|]. destruct Hk as [Hc2 Htv2].
  split; [lia|]. by rewrite Htv2, Htv1, fmap_app, app_assoc.
Qed.

Lemma la_bind_new_label c {B} (p : string) (k : BbId → Lower B) n ks :
  labels_advance (c + 1) (k (p +:+ to_string c)) n ks →
  labels_advance c (new_label p ≫= k) (S n) ks.
Proof.
  intros Hk st Hc H0 Hmax. unfold new_label. run. rewrite Hc.
  assert (wrap_int (c + 1) = (c + 1)%Z) as Hwrap.
  { apply wrap_int_small. unfold INT_MIN, INT_MAX in *. lia. }
  specialize (Hk (with_label_counter (wrap_int (c + 1)) st)).
  simpl in Hk. rewrite Hwrap in *.
  specialize (Hk eq_refl ltac:(lia) ltac:(lia)).
  destruct (k _ _) as [[err|b] st2]; [done|]. destruct Hk as [Hc2 Htv2].
  split; [lia|done].
Qed.

Lemma la_visit_Num c v : labels_advance c (visit_Num v) 0 [].
Proof.
  unfold visit_Num.
  apply (la_eq c _ (0 + 0) 0 ([] ++ []) []); [|done..].
  apply la_bind; [apply la_const_var|]. intros r. apply la_set_last.
Qed.

Lemma la_lower_with c {A} (m : Lower A) n ks :
  labels_advance c m n ks → labels_advance c (lower_with m) n ks.
Proof.
  intros Hm. unfold lower_with.
  apply (la_eq c _ (n + (0 + 0)) n (ks ++ ([] ++ [])) ks);
    [|lia|by rewrite !app_nil_r].
  apply la_bind; [done|]. intros a.
  apply la_bind; [apply la_gets|]. intros r. apply la_ret.
Qed.

Lemma la_lower_ptr c {A} (lower : A → Lower (A * VarId)) (e : A) n ks :
  labels_advance c (lower e) n ks → labels_advance c (lower_ptr lower (Some e)) n ks.
Proof.
  intros H. simpl.
  apply (la_eq c _ (n + 0) n (ks ++ []) ks); [|lia|by rewrite app_nil_r].
  apply la_bind; [done|]. intros [e' r]. apply la_ret.
Qed.

Ltac la_hyp m :=
  match goal with
  | H : ∀ c, labels_advance c m _ _ |- _ => apply H
  | H : labels_advance _ m _ _ |- _ => exact H
  end.

Ltac la_leaf :=
  lazymatch goal with
  | |- labels_advance _ (lower_with (visit_Num _)) _ _ => apply la_lower_with, la_visit_Num
  | |- labels_advance _ (lower_with ?m) _ _ => apply la_lower_with; la_hyp m
  | |- labels_advance _ (lower_exp ?e) _ _ => apply la_lower_with; la_hyp (visit_Exp e)
  | |- labels_advance _ (lower_place ?p) _ _ => apply la_lower_with; la_hyp (visit_Place p)
  | |- labels_advance _ (mret _) _ _ => apply la_ret
  | |- labels_advance _ (release _) _ _ => apply la_release
  | |- labels_advance _ (gets _) _ _ => apply la_gets
  | |- labels_advance _ (typeof_var _) _ _ => apply la_typeof_var
  | |- labels_advance _ (emit (TvLabel _)) _ _ => apply la_emit_label
  | |- labels_advance _ (emit _) _ _ => apply la_emit_other; reflexivity
  | |- labels_advance _ (set_last_result_id _) _ _ => apply la_set_last
  | |- labels_advance _ (fresh_inner_var _) _ _ => apply la_fresh_inner
  | |- labels_advance _ (fresh_non_inner_var _) _ _ => apply la_fresh_non_inner
  | |- labels_advance _ (const_var _) _ _ => apply la_const_var
  | |- labels_advance _ (visit_Num _) _ _ => apply la_visit_Num
  | |- labels_advance _ (typeof_field _ _) _ _ => apply la_typeof_field
  | |- labels_advance _ (typeof_struct_field _ _) _ _ => apply la_typeof_field
  | |- labels_advance _ (typeof_array_element _) _ _ => apply la_typeof_array_element
  | |- labels_advance _ (typeof_ptr_element _) _ _ => apply la_typeof_ptr_element
  | |- labels_advance _ (typeof_func_ret _) _ _ => apply la_typeof_func_ret
  | |- labels_advance _ (convert_arith_op _) _ _ => apply la_convert_arith_op
  | |- labels_advance _ (convert_rel_op _) _ _ => apply la_convert_rel_op
  | |- labels_advance _ (modify (with_loop_hdr_stack _)) _ _ => apply la_modify_hdr
  | |- labels_advance _ (modify (with_loop_end_stack _)) _ _ => apply la_modify_end
  | |- labels_advance _ (throw _) _ _ =>
      apply la_throw with (n := 0) (ks := @nil (string * Z))
  | |- labels_advance _ ?m _ _ => la_hyp m
  end.

Ltac la_nil := simpl; rewrite ?app_nil_r; reflexivity.

Ltac la :=
  cbv beta zeta;
  lazymatch goal with
  | |- labels_advance _ (new_label _ ≫= _) _ _ => eapply la_bind_new_label; la
  | |- labels_advance _ (_ ≫= _) _ _ =>
      eapply la_bind; [la | let a := fresh "a" in intros a; la]
  | |- labels_advance _ (if decide _ then _ else _) ?n ?ks =>
      unify n 0; unify ks (@nil (string * Z)); case_decide;
      (eapply la_eq; [la | la_nil | la_nil])
  | |- labels_advance _ (match ?x with _ => _ end) ?n ?ks =>
      lazymatch type of x with
      | (_ * _)%type => destruct x as [? ?]; la
      | _ => unify n 0; unify ks (@nil (string * Z)); destruct x;
             (eapply la_eq; [la | la_nil | la_nil])
      end
  | |- _ => la_leaf
  end.

Ltac la_keys :=
  simpl; rewrite ?app_nil_r, <- ?List.app_assoc; simpl;
  repeat first [reflexivity | lia | f_equal].

Ltac la_start := eapply la_eq; [la | simpl; lia | la_keys].

Lemma la_visit_BinOp {L R} op (ll : Lower (L * VarId)) (lr : Lower (R * VarId))
    (nl nr : nat) (kl kr : Z → list (string * Z)) c :
  (∀ c, labels_advance c ll nl (kl c)) →
  (∀ c, labels_advance c lr nr (kr c)) →
  labels_advance c (visit_BinOp op ll lr)
    (match op with AST.And => 3 | AST.Or => 2 | _ => 0 end + nl + nr)
    (match op with
     | AST.And =>
         kl (c + 3) ++ [("and_true", c)] ++ kr (c + 3 + Z.of_nat nl)
         ++ [("and_false", c + 1); ("and_end", c + 2)]
     | AST.Or =>
         kl (c + 2) ++ [("or_false", c)] ++ kr (c + 2 + Z.of_nat nl)
         ++ [("or_end", c + 1)]
     | _ => kl c ++ kr (c + Z.of_nat nl)
     end)%Z.
Proof.
  intros Hl Hr. destruct op; unfold visit_BinOp; la_start.
Qed.

Lemma la_lower_args_with (lower : AST.Exp → Lower (AST.Exp * VarId))
    (count : AST.Exp → nat) (keys : AST.Exp → Z → list (string * Z)) args :
  Forall (λ a, ∀ c, labels_advance c (lower a) (count a) (keys a c)) args →
  ∀ c, labels_advance c (lower_args_with lower args) (count_from count args)
         (keys_from_last count keys args c).
Proof.
  induction 1 as [|a args Ha _ IH]; intros c; simpl; [apply la_ret|].
  la_start.
Qed.

Lemma la_visit_AST :
  (∀ e c, labels_advance c (visit_Exp e) (label_count_Exp e) (label_keys_Exp e c))
  ∧ (∀ p, (∀ x, p ≠ AST.Id x) →
       ∀ c, labels_advance c (visit_Place p) (label_count_Place p) (label_keys_Place p c))
  ∧ (∀ fc c, labels_advance c (visit_FunCall fc) (label_count_FunCall fc)
               (label_keys_FunCall fc c)).
Proof.
  apply AST_nested_ind.
  - (* Val *)
    intros p IHp c. destruct (Place_Id_or_not p) as [[x ->]|Hne].
    + simpl. la_start.
    + specialize (IHp Hne). rewrite visit_Val_place by done. la_start.
  - (* Num *)
    intros v c. simpl. la_start.
  - (* NilExp *)
    intros c. simpl. la_start.
  - (* Select *)
    intros g t f IHg IHt IHf c. simpl. la_start.
  - (* UnOp *)
    intros op oe IH c. destruct oe as [e|]; simpl in IH.
    + pose proof (λ c, la_lower_ptr c lower_exp e _ _ (la_lower_with c _ _ _ (IH c)))
        as Hptr.
      destruct op.
      * destruct (Exp_Num_or_not e) as [[v ->]|Hne]; [simpl; la_start|].
        rewrite (proj1 (visit_Neg_exp e Hne)). la_start.
      * pose proof (la_visit_BinOp AST.Eq _ _ _ _ _ _ c Hptr
                      (λ c, la_lower_with c _ _ _ (la_visit_Num c 0))) as Hbin.
        simpl. la_start.
    + destruct op; simpl; la_start.
  - (* BinOp *)
    intros op l r IHl IHr c.
    pose proof (la_visit_BinOp op _ _ _ _ _ _ c
                  (λ c, la_lower_with c _ _ _ (IHl c))
                  (λ c, la_lower_with c _ _ _ (IHr c))) as Hbin.
    simpl. destruct op; la_start.
  - (* NewSingle *)
    intros t c. simpl. la_start.
  - (* NewArray *)
    intros t sz IH c. simpl. la_start.
  - (* CallExp *)
    intros fc IH c. simpl. la_start.
  - (* Id *)
    intros x Hne. by destruct (Hne x).
  - (* Deref *)
    intros e IH _ c. simpl. la_start.
  - (* ArrayAccess *)
    intros a i IHa IHi _ c. simpl. la_start.
  - (* FieldAccess *)
    intros e f IH _ c. simpl. la_start.
  - (* MkFunCall *)
    intros callee args IHc IHargs c.
    pose proof (la_lower_args_with (λ a, lower_with (visit_Exp a))
                  label_count_Exp label_keys_Exp args) as Hargs.
    assert (Forall (λ a, ∀ c, labels_advance c (lower_with (visit_Exp a))
                                (label_count_Exp a) (label_keys_Exp a c)) args) as Hall.
    { clear -IHargs. induction IHargs as [|a args Ha _ IH]; constructor; [|done].
      intros c. apply la_lower_with, Ha. }
    specialize (Hargs Hall). simpl. la_start.
Qed.

Lemma la_visit_each {A} (f : A → Lower A) (count : A → nat)
    (keys : A → Z → list (string * Z)) l :
  Forall (λ x, ∀ c, labels_advance c (f x) (count x) (keys x c)) l →
  ∀ c, labels_advance c (visit_each f l) (count_from count l)
         (keys_from_first count keys l c).
Proof.
  induction 1 as [|x l Hx _ IH]; intros c; simpl; [apply la_ret|].
  la_start.
Qed.

Lemma la_lower_args args c :
  labels_advance c (lower_args args) (count_from label_count_Exp args)
    (keys_from_last label_count_Exp label_keys_Exp args c).
Proof.
  apply (la_lower_args_with lower_exp label_count_Exp label_keys_Exp).
  induction args as [|a args IH]; constructor; [|done].
  intros c'. apply la_lower_with, la_visit_AST.
Qed.

Lemma la_visit_Stmt s :
  ∀ c, labels_advance c (visit_Stmt s) (label_count_Stmt s) (label_keys_Stmt s c).
Proof.
  pose proof (proj1 la_visit_AST) as HExp.
  induction s as [ss IH|p e|fc|g t f Ht Hf|g b Hb| | |e] using Stmt_nested_ind; intros c.
  - (* Stmts *)
    pose proof (la_visit_each visit_Stmt label_count_Stmt label_keys_Stmt ss IH) as Hall.
    simpl. la_start.
  - (* Assign *)
    pose proof (HExp e) as He.
    destruct (Place_Id_or_not p) as [[x ->]|Hne].
    + simpl. la_start.
    + pose proof (proj1 (proj2 la_visit_AST) p Hne) as Hp.
      rewrite visit_Assign_place by done. simpl. la_start.
  - (* CallStmt *)
    destruct fc as [callee args].
    pose proof (HExp callee) as Hc. pose proof (la_lower_args args) as Hargs.
    simpl. la_start.
  - (* If *)
    pose proof (HExp g) as Hg.
    destruct f as [s|]; simpl in Hf; simpl; la_start.
  - (* While *)
    pose proof (HExp g) as Hg. simpl. la_start.
  - (* Break *)
    simpl. la_start.
  - (* Continue *)
    simpl. la_start.
  - (* Return *)
    destruct e as [e|]; [pose proof (HExp e) as He|]; simpl; la_start.
Qed.

(** ** The minted labels are pairwise different *)

Lemma fresh_in_nil : fresh_in (λ _, False) [].
Proof. split; [constructor|]. intros pk H. by apply elem_of_nil in H. Qed.

Lemma fresh_in_weaken (P Q : Z → Prop) ks :
  fresh_in P ks → (∀ k, P k → Q k) → fresh_in Q ks.
Proof. intros [Hnd H] HPQ. split; [done|]. intros pk Hpk. split; [apply HPQ|]; by apply H. Qed.

Lemma fresh_in_app (P1 P2 : Z → Prop) l1 l2 :
  fresh_in P1 l1 → fresh_in P2 l2 → (∀ k, P1 k → P2 k → False) →
  fresh_in (λ k, P1 k ∨ P2 k) (l1 ++ l2).
Proof.
  intros [Hnd1 H1] [Hnd2 H2] Hdis. split.
  - rewrite fmap_app. apply NoDup_app. split; [done|]. split; [|done].
    intros k (pk1 & -> & Hin1)%list_elem_of_fmap (pk2 & Heq & Hin2)%list_elem_of_fmap.
    apply (Hdis pk1.2); [by apply H1|rewrite Heq; by apply H2].
  - intros pk [Hin|Hin]%elem_of_app.
    + split; [left|]; by apply H1.
    + split; [right|]; by apply H2.
Qed.

Lemma fresh_in_cons (P : Z → Prop) (p : string) (k : Z) l :
  p ∈ label_prefixes → fresh_in P l → ¬ P k →
  fresh_in (λ k', k' = k ∨ P k') ((p, k) :: l).
Proof.
  intros Hp [Hnd H] Hk. split.
  - simpl. apply NoDup_cons. split; [|done].
    intros (pk & Heq & Hin)%list_elem_of_fmap. apply Hk. simpl in Heq. rewrite Heq.
    by apply H.
  - intros pk [->|Hin]%elem_of_cons; [by split; [left|]|].
    split; [right|]; by apply H.
Qed.

Ltac prefix_in :=
  unfold label_prefixes;
  repeat first [apply list_elem_of_here | apply list_elem_of_further].

Ltac fk :=
  lazymatch goal with
  | |- fresh_in _ (_ ++ _) =>
      eapply fresh_in_app; [fk | fk | cbv beta; intros; lia]
  | |- fresh_in _ (_ :: _) =>
      eapply fresh_in_cons; [prefix_in | fk | cbv beta; lia]
  | |- fresh_in _ [] => apply fresh_in_nil
  | |- fresh_in _ _ =>
      match goal with H : ∀ c, fresh_in _ _ |- _ => apply H end
  end.

Ltac fk_start :=
  unfold fresh_keys in *; simpl;
  eapply fresh_in_weaken; [fk | cbv beta; intros; lia].

Lemma fresh_keys_from_last {A} (count : A → nat) (keys : A → Z → list (string * Z)) l :
  Forall (λ a, ∀ c, fresh_keys c (c + Z.of_nat (count a)) (keys a c)) l →
  ∀ c, fresh_keys c (c + Z.of_nat (count_from count l)) (keys_from_last count keys l c).
Proof.
  induction 1 as [|a l Ha _ IH]; intros c.
  - unfold fresh_keys. simpl. eapply fresh_in_weaken; [apply fresh_in_nil|done].
  - fk_start.
Qed.

Lemma fresh_keys_from_first {A} (count : A → nat) (keys : A → Z → list (string * Z)) l :
  Forall (λ a, ∀ c, fresh_keys c (c + Z.of_nat (count a)) (keys a c)) l →
  ∀ c, fresh_keys c (c + Z.of_nat (count_from count l)) (keys_from_first count keys l c).
Proof.
  induction 1 as [|a l Ha _ IH]; intros c.
  - unfold fresh_keys. simpl. eapply fresh_in_weaken; [apply fresh_in_nil|done].
  - fk_start.
Qed.

Lemma fresh_keys_AST :
  (∀ e c, fresh_keys c (c + Z.of_nat (label_count_Exp e)) (label_keys_Exp e c))
  ∧ (∀ p c, fresh_keys c (c + Z.of_nat (label_count_Place p)) (label_keys_Place p c))
  ∧ (∀ fc c, fresh_keys c (c + Z.of_nat (label_count_FunCall fc)) (label_keys_FunCall fc c)).
Proof.
  apply AST_nested_ind.
  - intros p IH c. fk_start.
  - intros v c. fk_start.
  - intros c. fk_start.
  - intros g t f IHg IHt IHf c. fk_start.
  - intros op [e|] IH c; simpl in IH; fk_start.
  - intros op l r IHl IHr c. destruct op; fk_start.
  - intros t c. fk_start.
  - intros t sz IH c. fk_start.
  - intros fc IH c. fk_start.
  - intros x c. fk_start.
  - intros e IH c. fk_start.
  - intros a i IHa IHi c. fk_start.
  - intros e f IH c. fk_start.
  - intros callee args IHc IHargs c.
    pose proof (fresh_keys_from_last label_count_Exp label_keys_Exp args IHargs) as Hargs.
    fk_start.
Qed.

Lemma fresh_keys_Stmt s :
  ∀ c, fresh_keys c (c + Z.of_nat (label_count_Stmt s)) (label_keys_Stmt s c).
Proof.
  destruct fresh_keys_AST as (HExp & HPlace & HFunCall).
  induction s as [ss IH|p e|fc|g t f Ht Hf|g b Hb| | |e] using Stmt_nested_ind; intros c.
  - pose proof (fresh_keys_from_first label_count_Stmt label_keys_Stmt ss IH) as Hall.
    fk_start.
  - pose proof (HPlace p) as Hp. pose proof (HExp e) as He. fk_start.
  - pose proof (HFunCall fc) as Hfc. fk_start.
  - pose proof (HExp g) as Hg. destruct f as [s|]; simpl in Hf; fk_start.
  - pose proof (HExp g) as Hg. fk_start.
  - fk_start.
  - fk_start.
  - destruct e as [e|]; [pose proof (HExp e) as He|]; fk_start.
Qed.

Lemma render_inj pk1 pk2 :
  pk1.1 ∈ label_prefixes → pk2.1 ∈ label_prefixes → render pk1 = render pk2 → pk1 = pk2.
Proof.
  destruct pk1 as [p1 k1], pk2 as [p2 k2]. unfold render, label_prefixes, to_string.
  simpl. intros H1 H2 Heq.
  repeat (apply elem_of_cons in H1 as [->|H1]); try (by apply elem_of_nil in H1);
    repeat (apply elem_of_cons in H2 as [->|H2]); try (by apply elem_of_nil in H2);
    simpl in Heq; try discriminate;
    injection Heq as Heq; apply pretty_Z_inj in Heq; by subst.
Qed.

Lemma fresh_in_NoDup_render P ks : fresh_in P ks → NoDup (render <$> ks).
Proof.
  intros [Hnd H]. apply NoDup_fmap_2_strong; [|by apply NoDup_fmap_1 in Hnd].
  intros x y Hx Hy. apply render_inj; by apply H.
Qed.

Lemma last_char_cons c s : s ≠ "" → last_char (String c s) = last_char s.
Proof. by destruct s. Qed.

Lemma last_char_app s t : t ≠ "" → last_char (s +:+ t) = last_char t.
Proof.
  intros Ht. induction s as [|c s IH]; [done|].
  simpl. rewrite <- IH. destruct (s +:+ t) eqn:Heq; [|done].
  destruct s; simpl in Heq; [done|discriminate].
Qed.

Lemma last_char_pretty_N_go x : ∀ s, s ≠ "" → last_char (pretty_N_go x s) = last_char s.
Proof.
  induction (N.lt_wf_0 x) as [x _ IH]; intros s Hs.
  assert (x = 0 ∨ 0 < x)%N as [->|Hx] by lia; [by rewrite pretty_N_go_0|].
  rewrite pretty_N_go_step by done.
  rewrite IH; [by apply last_char_cons| |done].
  apply N.div_lt; lia.
Qed.

Lemma last_char_pretty_N_char x : Some (pretty_N_char x) ≠ Some "y"%char.
Proof. unfold pretty_N_char. by repeat case_match. Qed.

Lemma last_char_to_string_digit (k : Z) :
  (0 ≤ k)%Z → ∃ d, last_char (to_string k) = Some (pretty_N_char d).
Proof.
  intros Hk. unfold to_string, pretty. destruct k as [|p|p]; [by exists 0%N| |lia].
  unfold pretty_Z. change (pretty p) with (pretty (N.pos p)).
  unfold pretty at 1. unfold pretty_N. rewrite decide_False by done.
  rewrite pretty_N_go_step by lia.
  rewrite last_char_pretty_N_go by done. by eexists.
Qed.

Lemma last_char_render (pk : string * Z) :
  (0 ≤ pk.2)%Z → last_char (render pk) ≠ Some "y"%char.
Proof.
  intros Hk. destruct (last_char_to_string_digit pk.2 Hk) as [d Hd].
  unfold render. rewrite last_char_app; [|intros Heq; by rewrite Heq in Hd].
  rewrite Hd. apply last_char_pretty_N_char.
Qed.

Lemma last_char_entry (fname : string) : last_char (fname +:+ "_entry") = Some "y"%char.
Proof. by rewrite last_char_app. Qed.

Lemma length_keys_from_last {A} (count : A → nat) (keys : A → Z → list (string * Z)) l :
  Forall (λ a, ∀ c, length (keys a c) = count a) l →
  ∀ c, length (keys_from_last count keys l c) = count_from count l.
Proof.
  induction 1 as [|a l Ha _ IH]; intros c; simpl; [done|].
  rewrite length_app, IH, Ha. lia.
Qed.

Lemma length_keys_from_first {A} (count : A → nat) (keys : A → Z → list (string * Z)) l :
  Forall (λ a, ∀ c, length (keys a c) = count a) l →
  ∀ c, length (keys_from_first count keys l c) = count_from count l.
Proof.
  induction 1 as [|a l Ha _ IH]; intros c; simpl; [done|].
  rewrite length_app, IH, Ha. lia.
Qed.

Ltac len_keys :=
  simpl; repeat (rewrite length_app; simpl);
  repeat match goal with H : ∀ c, length _ = _ |- _ => rewrite H end; lia.

Lemma length_keys_AST :
  (∀ e c, length (label_keys_Exp e c) = label_count_Exp e)
  ∧ (∀ p c, length (label_keys_Place p c) = label_count_Place p)
  ∧ (∀ fc c, length (label_keys_FunCall fc c) = label_count_FunCall fc).
Proof.
  apply AST_nested_ind.
  - intros p IH c. len_keys.
  - intros v c. len_keys.
  - intros c. len_keys.
  - intros g t f IHg IHt IHf c. len_keys.
  - intros op [e|] IH c; simpl in IH; len_keys.
  - intros op l r IHl IHr c. destruct op; len_keys.
  - intros t c. len_keys.
  - intros t sz IH c. len_keys.
  - intros fc IH c. len_keys.
  - intros x c. len_keys.
  - intros e IH c. len_keys.
  - intros a i IHa IHi c. len_keys.
  - intros e f IH c. len_keys.
  - intros callee args IHc IHargs c.
    pose proof (length_keys_from_last label_count_Exp label_keys_Exp args IHargs) as Hargs.
    len_keys.
Qed.

Lemma length_keys_Stmt s : ∀ c, length (label_keys_Stmt s c) = label_count_Stmt s.
Proof.
  destruct length_keys_AST as (HExp & HPlace & HFunCall).
  induction s as [ss IH|p e|fc|g t f Ht Hf|g b Hb| | |e] using Stmt_nested_ind; intros c.
  - pose proof (length_keys_from_first label_count_Stmt label_keys_Stmt ss IH) as Hall.
    len_keys.
  - pose proof (HPlace p) as Hp. pose proof (HExp e) as He. len_keys.
  - pose proof (HFunCall fc) as Hfc. len_keys.
  - pose proof (HExp g) as Hg. destruct f as [s|]; simpl in Hf; len_keys.
  - pose proof (HExp g) as Hg. len_keys.
  - len_keys.
  - len_keys.
  - destruct e as [e|]; [pose proof (HExp e) as He|]; len_keys.
Qed.

(** Lowering a statement mints as many labels as its loops, conditionals,
    selects and short-circuit operators need, advances the label counter
    by that number, and pushes each minted label exactly once: the labels
    pushed are pairwise different, each is a prefix of [new_label] followed
    by a counter value between the old and the new counter, and the labels
    that were in the translation vector stay in front, in their order.
    (The counter is an [int]: the statement assumes it does not overflow.) *)
Theorem labels_are_minted_once (s s' : AST.Stmt) (st st' : Lowerer) :
  lower_stmt s st = (inr s', st') →
  (0 ≤ m_label_counter st)%Z →
  (m_label_counter st + Z.of_nat (label_count_Stmt s) ≤ INT_MAX)%Z →
  m_label_counter st' = (m_label_counter st + Z.of_nat (label_count_Stmt s))%Z
  ∧ ∃ new,
      labels_of (m_tv st') = labels_of (m_tv st) ++ new
      ∧ NoDup new
      ∧ length new = label_count_Stmt s
      ∧ ∀ l, l ∈ new →
          ∃ (p : string) (k : Z),
            l = p +:+ to_string k ∧ p ∈ label_prefixes
            ∧ (m_label_counter st ≤ k < m_label_counter st')%Z.
Proof.
  intros Hrun H0 Hmax.
  pose proof (la_visit_Stmt s (m_label_counter st) st eq_refl H0 Hmax) as H.
  unfold lower_stmt in Hrun. rewrite Hrun in H. destruct H as [Hc Htv].
  split; [done|]. exists (render <$> label_keys_Stmt s (m_label_counter st)).
  pose proof (fresh_keys_Stmt s (m_label_counter st)) as Hfresh.
  split; [done|]. split; [by apply (fresh_in_NoDup_render _ _ Hfresh)|].
  split; [by rewrite length_fmap, length_keys_Stmt|].
  intros l (pk & -> & Hin)%list_elem_of_fmap. destruct Hfresh as [_ Hfresh].
  destruct (Hfresh pk Hin) as [Hk Hp]. exists pk.1, pk.2.
  split; [done|]. split; [done|]. rewrite Hc. exact Hk.
Qed.

Lemma labels_of_main_literals :
  ∃ s' st',
    lower_stmt (AST.body Examples.main_literals)
      (Examples.state_in Examples.prog_literals "main")
    = (inr s', st')
    ∧ m_label_counter st' = 3%Z
    ∧ ∃ new, labels_of (m_tv st') = ["main_entry"] ++ new ∧ NoDup new ∧ length new = 3.
Proof.
  destruct (lower_stmt (AST.body Examples.main_literals)
              (Examples.state_in Examples.prog_literals "main"))
    as [[err|s'] st'] eqn:Hrun; [by vm_compute in Hrun|].
  assert (0 ≤ m_label_counter (Examples.state_in Examples.prog_literals "main"))%Z as H0
    by (vm_compute; discriminate).
  assert (m_label_counter (Examples.state_in Examples.prog_literals "main")
          + Z.of_nat (label_count_Stmt (AST.body Examples.main_literals)) ≤ INT_MAX)%Z
    as Hmax by (vm_compute; discriminate).
  destruct (labels_are_minted_once _ _ _ _ Hrun H0 Hmax) as (Hc & new & H1 & H2 & H3 & _).
  exists s', st'. split; [reflexivity|]. split; [exact Hc|].
  exists new. split; [exact H1|]. split; [exact H2|exact H3].
Defined.

Lemma cfg_step_tv cur item st cur' st' :
  cfg_step cur item st = (inr cur', st') → m_tv st' = m_tv st.
Proof.
  assert (∀ g (k : option BbId) st0,
            (modify_current_fun g ≫= λ _, mret k) st0 = (inr cur', st') →
            m_tv st' = m_tv st0) as Hmod.
  { intros g k st0. run.
    destruct (modify_current_fun g st0) as [[err|[]] st1] eqn:Hrun; run; [done|].
    intros [= _ <-]. apply modify_current_fun_fields in Hrun. tauto. }
  destruct item as [name|i|t]; simpl.
  - apply Hmod.
  - destruct cur as [bb|]; run; [apply Hmod|].
    destruct (get_current_fun_result st) as [(fn & _ & ->)| ->]; run; [|done].
    destruct (LIR.body fn !! _); run; [apply Hmod|done].
  - destruct cur as [bb|]; [apply Hmod|]. by intros [= _ <-].
Qed.

Lemma cfg_scan_tv tv : ∀ cur st st',
  cfg_scan tv cur st = (inr (), st') → m_tv st' = m_tv st.
Proof.
  induction tv as [|item tv IH]; intros cur st st'; simpl.
  - by intros [= <-].
  - run. destruct (cfg_step cur item st) as [[err|cur1] st1] eqn:Hstep; run; [done|].
    intros Hscan. apply cfg_step_tv in Hstep. apply IH in Hscan. congruence.
Qed.

(** The labels of a lowered function are pairwise different, and each
    names a block of its own.  The translation vector from which [build_cfg]
    builds the blocks starts with the entry label [<name>_entry], which
    differs from every minted label, and every other label in it was minted
    once, by one call of [new_label]; the body that [build_cfg] gives a
    function whose shell had no block has a block under each of these labels
    and under nothing else, so as many blocks as there are labels.  (Which
    block an instruction lands in is another matter: one that follows a
    terminal is put into the entry block.  The label counter is an [int]:
    the function is assumed to need no more labels than an [int] can
    count.) *)
Theorem function_labels_are_distinct (n n' : AST.FunctionDef) (st st' : Lowerer)
    (fn : LIR.Function) :
  LIR.functions (m_lir_prog st) !! AST.name n = Some fn →
  LIR.body fn = ∅ →
  visit_FunctionDef n st = (inr n', st') →
  (Z.of_nat (label_count_Stmt (AST.body n)) ≤ INT_MAX)%Z →
  NoDup (labels_of (m_tv st'))
  ∧ (∃ minted,
       labels_of (m_tv st') = (AST.name n +:+ "_entry") :: minted
       ∧ length minted = label_count_Stmt (AST.body n))
  ∧ ∃ fn',
      LIR.functions (m_lir_prog st') !! AST.name n = Some fn'
      ∧ (∀ l : string, is_Some (LIR.body fn' !! l) ↔ l ∈ labels_of (m_tv st'))
      ∧ size (LIR.body fn') = S (label_count_Stmt (AST.body n)).
Proof.
  intros Hfn Hbody Hrun Hmax.
  revert Hrun. unfold visit_FunctionDef. run. rewrite (set_context_run _ _ fn Hfn). run.
  set (st2 := with_tv (λ tv, tv ++ _) _).
  pose proof (la_visit_Stmt (AST.body n) 0 st2 eq_refl ltac:(lia) ltac:(lia)) as Hla.
  assert (only_locals_changed (AST.name n) (m_lir_prog st) fn st2) as Hfr
    by (by apply only_locals_changed_init).
  apply (frame_lower_stmt _ _ _ (AST.body n) []) in Hfr.
  unfold lower_stmt in *.
  destruct (visit_Stmt (AST.body n) st2) as [[err|body'] st3]; run; [done|].
  destruct Hla as [_ Htv3]. simpl in Htv3.
  destruct (add_implicit_return_run st3) as (st4 & -> & Hprog & Hcur & Htv4 & _). run.
  destruct Hfr as [Hcur3 (L & _ & Hprog3)].
  assert (LIR.functions (m_lir_prog st4) !! AST.name n
          = Some (LIR.with_locals (λ _, L) fn)) as Hfn4.
  { rewrite Hprog, Hprog3. simpl. apply lookup_insert_eq. }
  pose proof (run_build_cfg (AST.name n) _ st4 ltac:(congruence) Hfn4) as Hcfg.
  simpl in Hcfg. rewrite Hbody in Hcfg. unfold BbId in *.
  destruct (scan_body (LIR.name fn +:+ "_entry") (m_tv st4) ∅ None) as [B|] eqn:HB.
  2:{ destruct Hcfg as [st5 ->]. run. done. }
  rewrite Hcfg. run. intros [= _ <-].
  change (m_tv (set_body _ _ B st4)) with (m_tv st4).
  assert (labels_of (m_tv st4)
          = (AST.name n +:+ "_entry") :: (render <$> label_keys_Stmt (AST.body n) 0))
    as Hlabels.
  { destruct Htv4 as [-> | ->]; [done|]. by rewrite labels_of_app, app_nil_r. }
  pose proof (fresh_keys_Stmt (AST.body n) 0) as Hfresh.
  assert (NoDup (labels_of (m_tv st4))) as Hnd.
  { rewrite Hlabels. apply NoDup_cons.
    split; [|by apply (fresh_in_NoDup_render _ _ Hfresh)].
    intros (pk & Heq & Hin)%list_elem_of_fmap.
    destruct Hfresh as [_ Hfresh]. destruct (Hfresh pk Hin) as [Hk _].
    apply (last_char_render pk); [lia|]. rewrite <- Heq. apply last_char_entry. }
  assert (∀ l : string, is_Some (B !! l) ↔ l ∈ labels_of (m_tv st4)) as Hdom.
  { intros l. rewrite (scan_body_dom _ _ _ _ _ HB l), lookup_empty.
    split; [intros [[? ?]|?]; done|by right]. }
  split; [exact Hnd|]. split.
  - eexists. split; [exact Hlabels|]. by rewrite length_fmap, length_keys_Stmt.
  - eexists. split; [apply set_body_lookup|]. simpl. split; [exact Hdom|].
    rewrite <- size_dom.
    assert (dom B = list_to_set (labels_of (m_tv st4))) as ->.
    { apply set_eq. intros l. rewrite elem_of_dom, elem_of_list_to_set. apply Hdom. }
    rewrite size_list_to_set by done.
    by rewrite Hlabels, length_cons, length_fmap, length_keys_Stmt.
Qed.

Lemma function_labels_of_if_else_return :
  ∃ n' st' fn',
    visit_FunctionDef Examples.main_if_else_return
      (build_shell Examples.prog_if_else_return new_Lowerer).2 = (inr n', st')
    ∧ NoDup (labels_of (m_tv st'))
    ∧ (∃ minted, labels_of (m_tv st') = "main_entry" :: minted ∧ length minted = 3)
    ∧ LIR.functions (m_lir_prog st') !! "main" = Some fn'
    ∧ size (LIR.body fn') = 4.
Proof.
  destruct (visit_FunctionDef Examples.main_if_else_return
              (build_shell Examples.prog_if_else_return new_Lowerer).2)
    as [[err|n'] st'] eqn:Hrun; [by vm_compute in Hrun|].
  assert (LIR.functions (m_lir_prog (build_shell Examples.prog_if_else_return
                                       new_Lowerer).2) !! "main"
          = Some (function_shell Examples.main_if_else_return)) as Hfn
    by (vm_compute; reflexivity).
  assert (LIR.body (function_shell Examples.main_if_else_return) = ∅) as Hbody
    by reflexivity.
  assert (Z.of_nat (label_count_Stmt (AST.body Examples.main_if_else_return)) ≤ INT_MAX)%Z
    as Hmax by (vm_compute; discriminate).
  destruct (function_labels_are_distinct Examples.main_if_else_return n' _ st' _
              Hfn Hbody Hrun Hmax)
    as (H1 & H2 & fn' & H3 & _ & H4).
  exists n', st', fn'. split; [reflexivity|]. split; [exact H1|].
  split; [exact H2|]. split; [exact H3|exact H4].
Defined.
